(** * Fibonacci-Friend: the analytical engine, embedded and verified

    This development embeds the two logic modules of the repository,

    - [src/lib/fibonacci-logic.ts]: swing detection (global scan and rolling
      window), trend classification, Fibonacci retracement levels and the
      traffic-light signal;
    - [src/lib/backtest-logic.ts]: the Golden Zone backtest walker;

    and the pure steps of the code around them,

    - [src/lib/fmp-service.ts]: the bars made of a response of the data
      provider;
    - [src/components/fibonacci/FibChart.tsx]: the colour of a level line and
      the rows of the candle chart;
    - the dashboard: the analysis step of the search handler and the colour
      of a level in the levels table;

    and proves properties of them.

    ** Modelling choices

    - A JavaScript [number] is an IEEE 754 binary64 value: the primitive
      type [float] of the Standard Library, whose operations are the
      processor's (round to nearest, ties to even). The comparison operators
      are the IEEE ones: every comparison with NaN is false, [+0] and [-0]
      compare equal.
    - [x.toFixed(f)] yields a decimal numeral. Its text is represented by the
      data that determines it (sign, digits as an integer, number of fraction
      digits), type [NumeralString]; [parseFloat] reads such a numeral back
      as the nearest binary64 value.
    - Arrays are lists; [a[i]] is [nth_error], and reading a property of
      [undefined] raises [TypeError]. A function that can throw returns a
      [result].
    - Dates are strings and are compared as JavaScript compares strings,
      lexicographically by code unit.
    - Presentation-only fields are left out of the result records: the
      upper-cased ticker, the narrative and the summary sentence. Their
      computation (string templates, [toUpperCase], date formatting) cannot
      throw and feeds nothing back into the numbers. *)

From Stdlib Require Import ZArith List Bool Lia String Ascii Sorted.
From Stdlib Require Import QArith Qround Lqa Qpower Qfield.
From Stdlib Require Import Floats.
Import ListNotations.
Close Scope Q_scope.

Set Warnings "-inexact-float".

(** ** JavaScript numbers *)

Module JS.

Local Open Scope float_scope.

Definition number := float.

(** [x > y] and [x >= y]; [x < y] and [x <= y] are [ltb] and [leb]. *)
Definition gtb (x y : number) : bool := y <? x.
Definition geb (x y : number) : bool := y <=? x.

(** What a JavaScript function can throw in this program. *)
Inductive exn :=
| EmptyPriceData   (* new Error("Price data is empty — cannot detect swings.") *)
| TypeError.       (* property of undefined, reduce of an empty array *)

Inductive result (A : Type) :=
| Ok (a : A)
| Throw (e : exn).
Arguments Ok {A} a.
Arguments Throw {A} e.

Definition bind {A B} (r : result A) (k : A -> result B) : result B :=
  match r with
  | Ok a => k a
  | Throw e => Throw e
  end.

(** [a[i]] followed by a property access: [undefined] throws. *)
Definition index {A} (a : list A) (i : nat) : result A :=
  match nth_error a i with
  | Some x => Ok x
  | None => Throw TypeError
  end.

(** [a.slice(s, e)] for [0 <= s]. *)
Definition slice {A} (s e : nat) (a : list A) : list A :=
  firstn (e - s) (skipn s a).

(** [a.reduce(f)] with no initial value. *)
Definition reduce {A} (f : A -> A -> A) (a : list A) : result A :=
  match a with
  | [] => Throw TypeError
  | x :: rest => Ok (fold_left f rest x)
  end.

(** An integer as a number (exact below 2^53). *)
Definition ofZ (z : Z) : number :=
  SF2Prim (binary_normalize prec emax z 0 false).

(** *** [toFixed] and [parseFloat] *)

(** The text produced by [Number.prototype.toFixed]. *)
Inductive NumeralString :=
| StrNaN                                   (* "NaN" *)
| StrInfinity (neg : bool)                 (* "Infinity", "-Infinity" *)
| StrFixed (neg : bool) (n : Z) (f : nat)  (* the digits of n, the last f after the point *)
| StrNumber (x : number).                  (* Number::toString(x), when |x| >= 10^21 *)

(** The exact value of [m * 2^e]. *)
Definition magnitude (m : positive) (e : Z) : Q :=
  (inject_Z (Zpos m) * 2 ^ e)%Q.

(** The integer [n] for which [n / 10^f - x] is as close to zero as possible,
    the larger one when there are two: [floor (x * 10^f + 1/2)]. *)
Definition roundHalfUp (x : Q) (f : nat) : Z :=
  Qfloor (x * inject_Z (10 ^ Z.of_nat f) + (1 # 2))%Q.

Definition toFixed (x : number) (f : nat) : NumeralString :=
  match Prim2SF x with
  | S754_nan => StrNaN
  | S754_infinity s => StrInfinity s
  | S754_zero _ => StrFixed false 0 f
  | S754_finite s m e =>
      if 1e21 <=? abs x then StrNumber x
      else StrFixed s (roundHalfUp (magnitude m e) f) f
  end.

(** The binary64 value nearest to [n / 10^f], ties to even. *)
Definition nearestDecimal (n : Z) (f : nat) : spec_float :=
  match n, (10 ^ Z.of_nat f)%Z with
  | Zpos p, Zpos q => SFdiv prec emax (S754_finite false p 0) (S754_finite false q 0)
  | _, _ => S754_zero false
  end.

Definition parseFloat (s : NumeralString) : number :=
  match s with
  | StrNaN => nan
  | StrInfinity neg => if neg then neg_infinity else infinity
  | StrFixed neg n f =>
      let v := SF2Prim (nearestDecimal n f) in
      if neg then - v else v
  | StrNumber x => x
  end.

End JS.

Module Notations.
Notation "x <- r ;; k" := (JS.bind r (fun x => k))
  (at level 61, r at next level, right associativity).
End Notations.

(** ** fibonacci-logic.ts *)

Module Fib.

Import JS Notations.
Local Open Scope string_scope.
Local Open Scope float_scope.

Record HistoricalPrice := {
  date : string;
  open : number;
  high : number;
  low : number;
  close : number;
  volume : number
}.

Inductive TrendDirection := uptrend | downtrend.

Inductive ThemeStatus := success | warning | danger.

(** The anonymous type [{ price: number; date: string }]. *)
Record SwingPoint := { sp_price : number; sp_date : string }.

Record SwingPoints := { swingHigh : SwingPoint; swingLow : SwingPoint }.

Record FibLevel := {
  ratio : number;
  label : string;
  friendlyName : string;
  price : number;
  isGoldenZone : bool;
  trafficLight : ThemeStatus
}.

Record FibLevels := {
  trend : TrendDirection;
  trendFriendly : string;
  fl_high : SwingPoint;
  fl_low : SwingPoint;
  range : number;
  levels : list FibLevel;
  currentPrice : number;
  signal : ThemeStatus;
  signalReason : string
}.

(** *** 1. Trend detection *)

(** One turn of [for (const bar of prices)] in [detectSwingPoints]. *)
Definition scanBar (acc : SwingPoints) (bar : HistoricalPrice) : SwingPoints :=
  {| swingHigh :=
       if gtb (high bar) (sp_price (swingHigh acc))
       then {| sp_price := high bar; sp_date := date bar |}
       else swingHigh acc;
     swingLow :=
       if low bar <? sp_price (swingLow acc)
       then {| sp_price := low bar; sp_date := date bar |}
       else swingLow acc |}.

Definition noSwing : SwingPoints :=
  {| swingHigh := {| sp_price := neg_infinity; sp_date := "" |};
     swingLow := {| sp_price := infinity; sp_date := "" |} |}.

(** One turn of the loop of [detectSwingPointsRolling], at index [i]. *)
Definition rollingBar (prices : list HistoricalPrice) (lookback : nat)
    (acc : result SwingPoints) (i : nat) : result SwingPoints :=
  acc <- acc ;;
  bar <- index prices i ;;
  let window := slice (i - lookback) (i + lookback + 1) prices in
  Ok {| swingHigh :=
          if forallb (fun b => geb (high bar) (high b)) window
             && gtb (high bar) (sp_price (swingHigh acc))
          then {| sp_price := high bar; sp_date := date bar |}
          else swingHigh acc;
        swingLow :=
          if forallb (fun b => low bar <=? low b) window
             && (low bar <? sp_price (swingLow acc))
          then {| sp_price := low bar; sp_date := date bar |}
          else swingLow acc |}.

(** The indices [lookback <= i < prices.length - lookback], ascending. *)
Definition interior (n lookback : nat) : list nat :=
  seq lookback (n - lookback - lookback).

Definition detectSwingPointsRolling (prices : list HistoricalPrice)
    (lookback : nat) : result SwingPoints :=
  sw <- fold_left (rollingBar prices lookback)
          (interior (List.length prices) lookback) (Ok noSwing) ;;
  (* Fallback to absolute high/low *)
  sh <- (if sp_price (swingHigh sw) =? neg_infinity
         then best <- reduce (fun a b => if gtb (high b) (high a) then b else a) prices ;;
              Ok {| sp_price := high best; sp_date := date best |}
         else Ok (swingHigh sw)) ;;
  sl <- (if sp_price (swingLow sw) =? infinity
         then best <- reduce (fun a b => if low b <? low a then b else a) prices ;;
              Ok {| sp_price := low best; sp_date := date best |}
         else Ok (swingLow sw)) ;;
  Ok {| swingHigh := sh; swingLow := sl |}.

(** [lookback] is a number of bars, as the backtest passes it
    ([SWING_LOOKBACK = 10]); [None] is the argument left out. *)
Definition detectSwingPoints (prices : list HistoricalPrice)
    (lookback : option nat) : result SwingPoints :=
  match prices with
  | [] => Throw EmptyPriceData
  | _ =>
      match lookback with
      | Some l => detectSwingPointsRolling prices l
      | None => Ok (fold_left scanBar prices noSwing)
      end
  end.

Definition detectTrend (swing : SwingPoints) : TrendDirection :=
  if String.ltb (sp_date (swingLow swing)) (sp_date (swingHigh swing))
  then uptrend else downtrend.

(** *** 2. Fibonacci math *)

Record FibRatio := {
  fr_ratio : number;
  fr_label : string;
  fr_friendlyName : string;
  fr_trafficLight : ThemeStatus
}.

Definition FIB_RATIOS : list FibRatio :=
  [ {| fr_ratio := 0.236; fr_label := "23.6%"; fr_friendlyName := "Shallow Pullback";  fr_trafficLight := success |};
    {| fr_ratio := 0.382; fr_label := "38.2%"; fr_friendlyName := "Moderate Pullback"; fr_trafficLight := success |};
    {| fr_ratio := 0.5;   fr_label := "50.0%"; fr_friendlyName := "Halfway Point";     fr_trafficLight := warning |};
    {| fr_ratio := 0.618; fr_label := "61.8%"; fr_friendlyName := "The Sweet Spot";    fr_trafficLight := warning |};
    {| fr_ratio := 0.786; fr_label := "78.6%"; fr_friendlyName := "Deep Pullback";     fr_trafficLight := danger |} ].

(** The expression under [toFixed(2)] in [calculateFibLevels]. *)
Definition rawLevel (high low : number) (trend : TrendDirection) (r : number) : number :=
  let diff := high - low in
  match trend with
  | uptrend => high - diff * r      (* Uptrend: pullback from The Peak *)
  | downtrend => low + diff * r     (* Downtrend: bounce from The Floor *)
  end.

Definition calculateFibLevels (high low : number) (trend : TrendDirection)
    : list FibLevel :=
  map (fun r =>
         {| ratio := fr_ratio r;
            label := fr_label r;
            friendlyName := fr_friendlyName r;
            price := parseFloat (toFixed (rawLevel high low trend (fr_ratio r)) 2);
            isGoldenZone := fr_ratio r =? 0.618;
            trafficLight := fr_trafficLight r |})
      FIB_RATIOS.

(** *** 3. Traffic light signal *)

Definition determineSignal (currentPrice : number) (levels : list FibLevel)
    (trend : TrendDirection) : result (ThemeStatus * string) :=
  let shallow := index levels 0 in
  let golden :=
    match find isGoldenZone levels with
    | Some l => Ok l
    | None => Throw TypeError
    end in
  match trend with
  | uptrend =>
      s <- shallow ;;
      if geb currentPrice (price s) then
        Ok (success,
            "Price is holding above the shallow pullback — momentum is historically strong here.")
      else
        g <- golden ;;
        if geb currentPrice (price g) then
          Ok (warning,
              "Price is near the Sweet Spot (61.8 %). Historically, this is a make-or-break level — wait for confirmation.")
        else
          Ok (danger,
              "Price has dropped past the Sweet Spot — the pullback is deep and momentum is likely fading.")
  | downtrend =>
      s <- shallow ;;
      if currentPrice <=? price s then
        Ok (danger,
            "Price is still near The Floor with weak bounce energy — the downtrend is likely continuing.")
      else
        g <- golden ;;
        if currentPrice <=? price g then
          Ok (warning,
              "Price is bouncing toward the Sweet Spot. Historically, sellers often step back in here — wait and watch.")
        else
          Ok (success,
              "Price has bounced strongly past the Sweet Spot — momentum is shifting and a reversal is likely forming.")
  end.

(** *** 5. Main entry point *)

Definition analyzeTicker (prices : list HistoricalPrice) (currentPrice : number)
    : result FibLevels :=
  swing <- detectSwingPoints prices None ;;
  let trend := detectTrend swing in
  let levels :=
    calculateFibLevels (sp_price (swingHigh swing)) (sp_price (swingLow swing)) trend in
  sr <- determineSignal currentPrice levels trend ;;
  Ok {| trend := trend;
        trendFriendly := match trend with uptrend => "Growth Era" | downtrend => "Cooling Off" end;
        fl_high := swingHigh swing;
        fl_low := swingLow swing;
        range := parseFloat (toFixed (sp_price (swingHigh swing) - sp_price (swingLow swing)) 2);
        levels := levels;
        currentPrice := currentPrice;
        signal := fst sr;
        signalReason := snd sr |}.

End Fib.

(** ** backtest-logic.ts *)

Module Backtest.

Import JS Notations Fib.
Local Open Scope string_scope.
Local Open Scope float_scope.

(** The union type ["success" | "fail"] of [GoldenTouch.outcome]. *)
Inductive Outcome := touchSuccess | touchFail.

Record GoldenTouch := {
  gt_date : string;
  touchPrice : number;
  goldenLevelPrice : number;
  gt_trend : TrendDirection;
  priceAfter30 : number;
  percentChange : number;
  outcome : Outcome
}.

Record BacktestResult := {
  totalBars : nat;
  touches : list GoldenTouch;
  successes : nat;
  failures : nat;
  winRate : number
}.

(** How many bars the rolling window uses to find swing points. *)
Definition SWING_WINDOW : nat := 120.
(** Bars to look back on each side when detecting a swing. *)
Definition SWING_LOOKBACK : nat := 10.
(** How close price must get to the 61.8 % level to count as a touch. *)
Definition TOUCH_TOLERANCE : number := 0.015.
(** How many trading days ahead to measure the outcome. *)
Definition OUTCOME_HORIZON : nat := 30.
(** Minimum bars between two recorded touches. *)
Definition COOLDOWN_BARS : nat := 10.

(** The variables of the loop. Each pushed touch is logged with the index
    [i] of the turn that pushed it; [lastTouchIndex = None] is [-Infinity]. *)
Record WalkState := {
  touchLog : list (nat * GoldenTouch);
  lastTouchIndex : option nat
}.

(** [i - lastTouchIndex < COOLDOWN_BARS] *)
Definition inCooldown (i : nat) (last : option nat) : bool :=
  match last with
  | None => false
  | Some j => (Z.of_nat i - Z.of_nat j <? Z.of_nat COOLDOWN_BARS)%Z
  end.

(** One turn of the loop of [backtestGoldenZone], at index [i]; a
    [continue] leaves the state as it is. *)
Definition walkBar (prices : list HistoricalPrice)
    (st : result WalkState) (i : nat) : result WalkState :=
  st <- st ;;
  (* Cooldown: skip if we just logged a touch *)
  if inCooldown i (lastTouchIndex st) then Ok st else
  (* Build Fib levels from the trailing window *)
  let window := slice (i - SWING_WINDOW) i prices in
  swing <- detectSwingPoints window (Some SWING_LOOKBACK) ;;
  let trend := detectTrend swing in
  let levels :=
    calculateFibLevels (sp_price (swingHigh swing)) (sp_price (swingLow swing)) trend in
  match find isGoldenZone levels with
  | None => Ok st
  | Some goldenLevel =>
      (* Check if today's close touches the Sweet Spot *)
      bar <- index prices i ;;
      let range := sp_price (swingHigh swing) - sp_price (swingLow swing) in
      if range <=? 0 then Ok st else
      let distance := abs (close bar - price goldenLevel) in
      if gtb distance (range * TOUCH_TOLERANCE) then Ok st else
      (* We have a touch: now look 30 days ahead *)
      futureBar <- index prices (i + OUTCOME_HORIZON) ;;
      let pctChange := ((close futureBar - close bar) / close bar) * 100 in
      let outcome :=
        match trend with
        | uptrend => if gtb pctChange 0 then touchSuccess else touchFail
        | downtrend => if pctChange <? 0 then touchSuccess else touchFail
        end in
      Ok {| touchLog :=
              touchLog st ++
              [(i, {| gt_date := date bar;
                      touchPrice := close bar;
                      goldenLevelPrice := price goldenLevel;
                      gt_trend := trend;
                      priceAfter30 := close futureBar;
                      percentChange := parseFloat (toFixed pctChange 2);
                      outcome := outcome |})];
            lastTouchIndex := Some i |}
  end.

(** The indices [startAt <= i < stopAt], ascending. *)
Definition walkRange (n : nat) : list nat :=
  seq SWING_WINDOW (n - OUTCOME_HORIZON - SWING_WINDOW).

Definition walk (prices : list HistoricalPrice) : result WalkState :=
  fold_left (walkBar prices) (walkRange (List.length prices))
    (Ok {| touchLog := []; lastTouchIndex := None |}).

Definition isSuccess (t : GoldenTouch) : bool :=
  match outcome t with touchSuccess => true | touchFail => false end.

Definition backtestGoldenZone (prices : list HistoricalPrice)
    : result BacktestResult :=
  st <- walk prices ;;
  let touches := map snd (touchLog st) in
  let successes := List.length (filter isSuccess touches) in
  let failures := (List.length touches - successes)%nat in
  let winRate :=
    if (0 <? List.length touches)%nat
    then parseFloat (toFixed
           ((ofZ (Z.of_nat successes) / ofZ (Z.of_nat (List.length touches))) * 100) 1)
    else 0 in
  Ok {| totalBars := List.length prices;
        touches := touches;
        successes := successes;
        failures := failures;
        winRate := winRate |}.

End Backtest.

(** ** fmp-service.ts: the bars of a response *)

Module Service.

Import JS Fib.
Local Open Scope string_scope.

(** An entry of the response of the data provider. *)
Record FMPHistoricalEntry := {
  e_date : string;
  e_open : number;
  e_high : number;
  e_low : number;
  e_close : number;
  e_volume : number
}.

(** The bars that [getHistoricalPrices] makes of a response:
    [json.map((entry) => ({ ... })).reverse()]. *)
Definition reversedBars (json : list FMPHistoricalEntry) : list HistoricalPrice :=
  rev (map (fun entry =>
              {| date := e_date entry;
                 open := e_open entry;
                 high := e_high entry;
                 low := e_low entry;
                 close := e_close entry;
                 volume := e_volume entry |})
           json).

End Service.

(** ** The chart: colours and rows *)

Module Chart.

Import JS Notations Fib.
Local Open Scope string_scope.
Local Open Scope float_scope.

(** [theme[status].color] of ThemeConfig. *)
Definition themeColor (status : ThemeStatus) : string :=
  match status with
  | success => "#34d399"   (* Emerald-400 *)
  | warning => "#fbbf24"   (* Amber-400 *)
  | danger => "#fb7185"    (* Rose-400 *)
  end.

Definition EMERALD : string := themeColor success.
Definition ROSE : string := themeColor danger.
Definition AMBER : string := themeColor warning.
Definition GOLDEN : string := "#eab308".
Definition TEXT : string := "#64748b".

(** [fibColor] of FibChart.tsx; the [switch] compares with [===]. *)
Definition fibColor (level : FibLevel) : string :=
  if isGoldenZone level then GOLDEN
  else if ratio level =? 0.236 then EMERALD
  else if ratio level =? 0.382 then EMERALD
  else if ratio level =? 0.5 then AMBER
  else if ratio level =? 0.786 then ROSE
  else TEXT.

(** The colour of a level in the levels table of the dashboard:
    [level.isGoldenZone ? "#eab308" : theme[level.trafficLight].color]. *)
Definition tableColor (level : FibLevel) : string :=
  if isGoldenZone level then "#eab308" else themeColor (trafficLight level).

(** [Math.min] and [Math.max] of two numbers: NaN when one of them is NaN,
    and [-0] below [+0]. *)
Definition mathMin (x y : number) : number :=
  if is_nan x || is_nan y then nan
  else if x <? y then x
  else if y <? x then y
  else if get_sign x then x else y.

Definition mathMax (x y : number) : number :=
  if is_nan x || is_nan y then nan
  else if y <? x then x
  else if x <? y then y
  else if get_sign x then y else x.

(** How many recent bars to show. *)
Definition VISIBLE_BARS : nat := 120.

Record ChartRow := {
  cr_date : string;
  cr_open : number;
  cr_high : number;
  cr_low : number;
  cr_close : number;
  wick : number * number;   (* [low, high] *)
  body : number * number    (* [min(open,close), max(open,close)] *)
}.

(** [prices.slice(-n)]: the last [n] elements, all of them when there are
    fewer. *)
Definition sliceLast {A} (n : nat) (a : list A) : list A :=
  skipn (List.length a - n) a.

Definition prepareData (prices : list HistoricalPrice) : list ChartRow :=
  map (fun p =>
         {| cr_date := date p;
            cr_open := open p;
            cr_high := high p;
            cr_low := low p;
            cr_close := close p;
            wick := (low p, high p);
            body := (mathMin (open p) (close p), mathMax (open p) (close p)) |})
      (sliceLast VISIBLE_BARS prices).

(** [Math.floor]: the greatest integer at or below [x]; [x] itself when it
    is an integer, infinite or NaN. A number with a negative exponent
    [m * 2^e] has the integer part [floor (m / 2^-e)], which is exact. *)
Definition mathFloor (x : number) : number :=
  match Prim2SF x with
  | S754_finite s m e =>
      if (e <? 0)%Z
      then SF2Prim (binary_normalize prec emax
                      (cond_Zopp s (Zpos m) / 2 ^ (- e))%Z 0 s)
      else x
  | _ => x
  end.

(** [Math.ceil]: the least integer at or above [x]. *)
Definition mathCeil (x : number) : number :=
  match Prim2SF x with
  | S754_finite s m e =>
      if (e <? 0)%Z
      then SF2Prim (binary_normalize prec emax
                      (- ((- cond_Zopp s (Zpos m)) / 2 ^ (- e)))%Z 0 s)
      else x
  | _ => x
  end.

(** One turn of [for (const d of data)] in the Y-axis domain of the chart. *)
Definition scanRow (acc : number * number) (d : ChartRow) : number * number :=
  (if cr_low d <? fst acc then cr_low d else fst acc,
   if gtb (cr_high d) (snd acc) then cr_high d else snd acc).

(** One turn of [for (const fl of fibLevels)]. *)
Definition scanLevel (acc : number * number) (fl : FibLevel) : number * number :=
  (if price fl <? fst acc then price fl else fst acc,
   if gtb (price fl) (snd acc) then price fl else snd acc).

(** [[yMin, yMax]] of the chart: the data range and the level lines, padded
    by 4 % and widened to integers. *)
Definition yDomain (data : list ChartRow) (fibLevels : list FibLevel)
    : number * number :=
  let acc := fold_left scanLevel fibLevels
               (fold_left scanRow data (infinity, neg_infinity)) in
  let lo := fst acc in
  let hi := snd acc in
  let pad := (hi - lo) * 0.04 in
  (mathFloor (lo - pad), mathCeil (hi + pad)).

End Chart.

(** ** The dashboard: the analysis step of the search handler *)

Module Dashboard.

Import JS Notations Fib.
Local Open Scope string_scope.
Local Open Scope float_scope.

(** The analysis step of [handleSearch]:
    [const currentPrice = priceData[priceData.length - 1].close;
     const result = analyzeTicker(ticker, priceData, currentPrice);] *)
Definition analyzeLatest (priceData : list HistoricalPrice) : result FibLevels :=
  lastBar <- index priceData (List.length priceData - 1) ;;
  let currentPrice := close lastBar in
  analyzeTicker priceData currentPrice.

End Dashboard.

(** ** Sample series *)

Module Samples.

Import JS Fib.
Local Open Scope string_scope.
Local Open Scope float_scope.

Definition twoDigits (n : nat) : string :=
  String (ascii_of_nat (48 + n / 10)) (String (ascii_of_nat (48 + n mod 10)) "").

(** Day [k] of a calendar of 28-day months: ["2024-01-01"], ["2024-01-02"], ... *)
Definition dayDate (k : nat) : string :=
  "2024-" ++ twoDigits (1 + k / 28) ++ "-" ++ twoDigits (1 + k mod 28).

(** A series that never moves: high 200, low 100, close on the 61.8 % level
    of a downtrend. *)
Definition flatBar (k : nat) : HistoricalPrice :=
  {| date := dayDate k; open := 150; high := 200; low := 100;
     close := 161.8; volume := 1000 |}.

Definition flatBars (n : nat) : list HistoricalPrice := map flatBar (seq 0 n).

(** 130 days rising by 0.75 a day, from a low of 100.00 on day 1 to a high
    of 200.00 on day 130. *)
Definition risingBar (k : nat) : HistoricalPrice :=
  let l := 100 + 0.75 * ofZ (Z.of_nat k) in
  {| date := dayDate k; open := l; high := l + 3.25; low := l;
     close := l + 1; volume := 1000 |}.

Definition risingBars : list HistoricalPrice := map risingBar (seq 0 130).

End Samples.

(** ** The order of binary64 values

    The comparisons of [SpecFloat] order the values that are not NaN as a
    total preorder: by sign class first, then exponent, then mantissa. [rank]
    maps a value to its position in that order, so that facts about
    comparisons become linear arithmetic on ranks. *)

Module Order.

Import JS.
Local Open Scope Z_scope.

Definition rank (x : spec_float) : Z * Z * Z :=
  match x with
  | S754_nan => (0, 0, 0)
  | S754_zero _ => (0, 0, 0)
  | S754_infinity true => (-2, 0, 0)
  | S754_infinity false => (2, 0, 0)
  | S754_finite true m e => (-1, - e, - Zpos m)
  | S754_finite false m e => (1, e, Zpos m)
  end.

Definition lexlt (a b : Z * Z * Z) : Prop :=
  let '(a1, a2, a3) := a in
  let '(b1, b2, b3) := b in
  a1 < b1 \/ (a1 = b1 /\ (a2 < b2 \/ (a2 = b2 /\ a3 < b3))).

Definition isNaN (x : spec_float) : Prop := x = S754_nan.

(** A number that is not NaN. *)
Definition ordered (x : number) : Prop := PrimFloat.is_nan x = false.

(** A number that is neither NaN nor infinite. *)
Definition finite (x : number) : Prop := PrimFloat.is_finite x = true.

Definition key (x : number) : Z * Z * Z := rank (Prim2SF x).

Local Ltac rank_cases :=
  eexists; split; [reflexivity|];
  repeat split; intros; try discriminate; try lia; try congruence;
  try (match goal with
       | H : (_, _, _) = (_, _, _) |- _ => injection H; intros; lia
       end).

Lemma SFcompare_rank (x y : spec_float) :
  x <> S754_nan -> y <> S754_nan ->
  exists c, SFcompare x y = Some c /\
    (c = Lt <-> lexlt (rank x) (rank y)) /\
    (c = Eq <-> rank x = rank y) /\
    (c = Gt <-> lexlt (rank y) (rank x)).
Proof.
  intros Hx Hy.
  destruct x as [sx|sx| |sx mx ex], y as [sy|sy| |sy my ey];
    try congruence; unfold lexlt; cbn [SFcompare rank];
    try (destruct sx); try (destruct sy);
    try (rank_cases; fail).
  - destruct (Z.compare_spec ex ey) as [He|He|He]; [|rank_cases..].
    change (Pos.compare_cont Eq mx my) with (Pos.compare mx my).
    destruct (Pos.compare_spec mx my) as [Hm|Hm|Hm]; cbn [CompOpp]; rank_cases.
  - destruct (Z.compare_spec ex ey) as [He|He|He]; [|rank_cases..].
    change (Pos.compare_cont Eq mx my) with (Pos.compare mx my).
    destruct (Pos.compare_spec mx my) as [Hm|Hm|Hm]; rank_cases.
Qed.

Lemma SFcompare_nan_l (y : spec_float) : SFcompare S754_nan y = None.
Proof. reflexivity. Qed.

Lemma SFcompare_nan_r (x : spec_float) : SFcompare x S754_nan = None.
Proof. destruct x; reflexivity. Qed.

Lemma ordered_spec (x : number) : ordered x <-> Prim2SF x <> S754_nan.
Proof.
  unfold ordered, PrimFloat.is_nan. rewrite eqb_spec. unfold SFeqb.
  split.
  - intros H E. rewrite E in H. discriminate.
  - intros H. destruct (SFcompare_rank _ _ H H) as (c & -> & _ & Heq & _).
    assert (c = Eq) as -> by (apply Heq; reflexivity). reflexivity.
Qed.

Lemma ltb_key (x y : number) :
  PrimFloat.ltb x y = true <-> ordered x /\ ordered y /\ lexlt (key x) (key y).
Proof.
  rewrite ltb_spec, !ordered_spec. unfold SFltb, key.
  split.
  - intros H.
    assert (Hx : Prim2SF x <> S754_nan)
      by (intros E; rewrite E in H; discriminate).
    assert (Hy : Prim2SF y <> S754_nan)
      by (intros E; rewrite E, SFcompare_nan_r in H; discriminate).
    destruct (SFcompare_rank _ _ Hx Hy) as (c & Hc & Hlt & _).
    rewrite Hc in H. destruct c; try discriminate.
    repeat split; auto. apply Hlt; reflexivity.
  - intros (Hx & Hy & Hl).
    destruct (SFcompare_rank _ _ Hx Hy) as (c & -> & Hlt & _).
    apply Hlt in Hl. subst c. reflexivity.
Qed.

Lemma eqb_key (x y : number) :
  PrimFloat.eqb x y = true <-> ordered x /\ ordered y /\ key x = key y.
Proof.
  rewrite eqb_spec, !ordered_spec. unfold SFeqb, key.
  split.
  - intros H.
    assert (Hx : Prim2SF x <> S754_nan)
      by (intros E; rewrite E in H; discriminate).
    assert (Hy : Prim2SF y <> S754_nan)
      by (intros E; rewrite E, SFcompare_nan_r in H; discriminate).
    destruct (SFcompare_rank _ _ Hx Hy) as (c & Hc & _ & Heq & _).
    rewrite Hc in H. destruct c; try discriminate.
    repeat split; auto. apply Heq; reflexivity.
  - intros (Hx & Hy & Hl).
    destruct (SFcompare_rank _ _ Hx Hy) as (c & -> & _ & Heq & _).
    apply Heq in Hl. subst c. reflexivity.
Qed.

Lemma leb_key (x y : number) :
  PrimFloat.leb x y = true <->
  ordered x /\ ordered y /\ (lexlt (key x) (key y) \/ key x = key y).
Proof.
  rewrite leb_spec, !ordered_spec. unfold SFleb, key.
  split.
  - intros H.
    assert (Hx : Prim2SF x <> S754_nan)
      by (intros E; rewrite E in H; discriminate).
    assert (Hy : Prim2SF y <> S754_nan)
      by (intros E; rewrite E, SFcompare_nan_r in H; discriminate).
    destruct (SFcompare_rank _ _ Hx Hy) as (c & Hc & Hlt & Heq & _).
    rewrite Hc in H. destruct c; try discriminate.
    + repeat split; auto. right. apply Heq; reflexivity.
    + repeat split; auto. left. apply Hlt; reflexivity.
  - intros (Hx & Hy & Hl).
    destruct (SFcompare_rank _ _ Hx Hy) as (c & -> & Hlt & Heq & _).
    destruct Hl as [Hl|Hl]; [apply Hlt in Hl|apply Heq in Hl]; subst c; reflexivity.
Qed.

(** The first component of a key tells the class of the value. *)
Lemma finite_key (x : number) :
  finite x <-> ordered x /\ -1 <= fst (fst (key x)) <= 1.
Proof.
  unfold finite, PrimFloat.is_finite.
  rewrite negb_true_iff, orb_false_iff.
  fold (ordered x). rewrite ordered_spec.
  unfold PrimFloat.is_infinity. rewrite eqb_spec, abs_spec. unfold key.
  change (Prim2SF infinity) with (S754_infinity false).
  destruct (Prim2SF x) as [s|s| |s m e]; try destruct s; cbn;
    intuition (try congruence; try lia).
Qed.

Lemma key_neg_infinity : key neg_infinity = (-2, 0, 0).
Proof. reflexivity. Qed.

Lemma key_infinity : key infinity = (2, 0, 0).
Proof. reflexivity. Qed.

Lemma ordered_neg_infinity : ordered neg_infinity.
Proof. reflexivity. Qed.

Lemma ordered_infinity : ordered infinity.
Proof. reflexivity. Qed.

(** Turns comparisons of numbers in the goal and the context into
    arithmetic on keys, and decides it. *)
Ltac key_simpl :=
  unfold gtb, geb in *;
  repeat match goal with
  | H : _ = false |- _ => apply not_true_iff_false in H
  | |- _ = false => apply not_true_iff_false
  end;
  rewrite ?ltb_key, ?leb_key, ?eqb_key, ?finite_key in *;
  rewrite ?key_neg_infinity, ?key_infinity in *.

Ltac key_destruct :=
  repeat match goal with
  | |- context [key ?x] =>
      let a := fresh "k" in let b := fresh "k" in let c := fresh "k" in
      destruct (key x) as [[a b] c]
  | H : context [key ?x] |- _ =>
      let a := fresh "k" in let b := fresh "k" in let c := fresh "k" in
      destruct (key x) as [[a b] c]
  end.

Lemma triple_eq (a b c a' b' c' : Z) :
  (a, b, c) = (a', b', c') <-> a = a' /\ b = b' /\ c = c'.
Proof. split; [intros H; injection H; auto | intros (-> & -> & ->); reflexivity]. Qed.

Ltac order :=
  intros; key_simpl; unfold lexlt in *;
  pose proof ordered_neg_infinity; pose proof ordered_infinity;
  repeat match goal with
  | H : ~ (ordered ?x /\ ordered ?y /\ ?P), Hx : ordered ?x, Hy : ordered ?y |- _ =>
      assert (~ P) by (let K := fresh in intros K; apply H; auto); clear H
  | H : _ /\ _ |- _ => destruct H
  end;
  key_destruct; cbn [fst snd] in *; rewrite ?triple_eq in *;
  intuition (try congruence; try lia).

Lemma finite_ordered (x : number) : finite x -> ordered x.
Proof. order. Qed.

Lemma ltb_trans (x y z : number) :
  PrimFloat.ltb x y = true -> PrimFloat.ltb y z = true -> PrimFloat.ltb x z = true.
Proof. order. Qed.

Lemma leb_trans (x y z : number) :
  PrimFloat.leb x y = true -> PrimFloat.leb y z = true -> PrimFloat.leb x z = true.
Proof. order. Qed.

Lemma leb_ltb_trans (x y z : number) :
  PrimFloat.leb x y = true -> PrimFloat.ltb y z = true -> PrimFloat.ltb x z = true.
Proof. order. Qed.

Lemma ltb_leb_trans (x y z : number) :
  PrimFloat.ltb x y = true -> PrimFloat.leb y z = true -> PrimFloat.ltb x z = true.
Proof. order. Qed.

Lemma ltb_leb (x y : number) :
  PrimFloat.ltb x y = true -> PrimFloat.leb x y = true.
Proof. order. Qed.

Lemma leb_refl (x : number) : ordered x -> PrimFloat.leb x x = true.
Proof. order. Qed.

Lemma ltb_irrefl (x : number) : PrimFloat.ltb x x = false.
Proof. order. Qed.

(** On numbers that are not NaN, [<] is the negation of [>=]. *)
Lemma ltb_not_leb (x y : number) :
  ordered x -> ordered y -> PrimFloat.ltb x y = negb (PrimFloat.leb y x).
Proof.
  intros Hx Hy.
  destruct (PrimFloat.ltb x y) eqn:E1, (PrimFloat.leb y x) eqn:E2;
    try reflexivity; exfalso; order.
Qed.

Lemma leb_not_ltb (x y : number) :
  ordered x -> ordered y -> PrimFloat.leb x y = negb (PrimFloat.ltb y x).
Proof.
  intros Hx Hy. rewrite (ltb_not_leb y x) by assumption.
  now rewrite negb_involutive.
Qed.

Lemma finite_above_neg_infinity (x : number) :
  finite x -> PrimFloat.ltb neg_infinity x = true.
Proof. order. Qed.

Lemma finite_below_infinity (x : number) :
  finite x -> PrimFloat.ltb x infinity = true.
Proof. order. Qed.

Lemma finite_not_neg_infinity (x : number) :
  finite x -> PrimFloat.eqb x neg_infinity = false.
Proof. order. Qed.

Lemma finite_not_infinity (x : number) :
  finite x -> PrimFloat.eqb x infinity = false.
Proof. order. Qed.

End Order.

(** ** Keeping the best candidate of a scan

    The three scans of [fibonacci-logic.ts] (the global scan, the rolling
    scan and the [reduce] fallback) share one shape: walk a list from left to
    right and replace the accumulator when the current item is a candidate
    and strictly beats it. [fold_best] describes the outcome. *)

Section Best.

Import JS Order.

Variables (A B : Type).
Variable beats : number -> number -> bool.
Variable c : A -> bool.
Variable v : A -> number.
Variable pv : B -> number.
Variable mk : A -> B.

Hypothesis pv_mk : forall a, pv (mk a) = v a.
Hypothesis beats_trans : forall x y z,
  beats x y = true -> beats y z = true -> beats x z = true.
Hypothesis beats_cotrans : forall x y z,
  ordered x -> ordered y -> ordered z ->
  beats x y = false -> beats z y = true -> beats z x = true.

Definition keepBest (acc : B) (a : A) : B :=
  if c a && beats (v a) (pv acc) then mk a else acc.

(** The scan kept item [a], met after [l1] and before [l2]: it beats every
    candidate before it and no candidate after it beats it. *)
Definition bestAt (l1 : list A) (a : A) (l2 : list A) : Prop :=
  c a = true /\
  (forall a', In a' l1 -> c a' = true -> beats (v a) (v a') = true) /\
  (forall a', In a' l2 -> c a' = true -> beats (v a') (v a) = false).

Lemma fold_best (l : list A) :
  Forall (fun a => ordered (v a)) l ->
  forall init, ordered (pv init) ->
  (fold_left keepBest l init = init /\
   forall a, In a l -> c a = true -> beats (v a) (pv init) = false) \/
  (exists l1 a l2, l = l1 ++ a :: l2 /\
     fold_left keepBest l init = mk a /\
     beats (v a) (pv init) = true /\ bestAt l1 a l2).
Proof.
  induction 1 as [|a l Ha Hl IH]; intros init Hinit; cbn [fold_left].
  - left. split; [reflexivity|]. intros a [].
  - destruct (c a && beats (v a) (pv init)) eqn:Hcb.
    + assert (keepBest init a = mk a) as ->
        by (unfold keepBest; now rewrite Hcb).
      apply andb_true_iff in Hcb as [Hc Hb].
      assert (Hmk : ordered (pv (mk a))) by (rewrite pv_mk; exact Ha).
      right.
      destruct (IH (mk a) Hmk)
        as [[E Hno]|(l1 & a' & l2 & -> & E & Hb' & Hc' & Hl1 & Hl2)];
        rewrite pv_mk in *.
      * exists [], a, l. split; [reflexivity|]. split; [exact E|].
        split; [exact Hb|]. split; [exact Hc|]. split; [intros a' []|exact Hno].
      * exists (a :: l1), a', l2. split; [reflexivity|]. split; [exact E|].
        split; [eapply beats_trans; eassumption|].
        split; [exact Hc'|]. split; [|exact Hl2].
        intros a'' [<-|Hin] Hc''; auto.
    + assert (keepBest init a = init) as ->
        by (unfold keepBest; now rewrite Hcb).
      assert (Hnb : c a = true -> beats (v a) (pv init) = false)
        by (intros Hc; now rewrite Hc in Hcb).
      destruct (IH init Hinit)
        as [[E Hno]|(l1 & a' & l2 & -> & E & Hb' & Hc' & Hl1 & Hl2)].
      * left. split; [exact E|]. intros a' [<-|Hin] Hc'; auto.
      * right. exists (a :: l1), a', l2. split; [reflexivity|]. split; [exact E|].
        split; [exact Hb'|]. split; [exact Hc'|]. split; [|exact Hl2].
        intros a'' [<-|Hin] Hc''; auto.
        apply Forall_app in Hl as [_ Hl]. inversion Hl; subst.
        eapply (beats_cotrans _ (pv init)); eauto.
Qed.

End Best.

(** ** Swing detection: the global scan *)

Module SwingFacts.

Import JS Order Fib.
Local Open Scope string_scope.
Local Open Scope float_scope.

(** The swing point a bar yields as a high, and as a low. *)
Definition pointHigh (bar : HistoricalPrice) : SwingPoint :=
  {| sp_price := high bar; sp_date := date bar |}.

Definition pointLow (bar : HistoricalPrice) : SwingPoint :=
  {| sp_price := low bar; sp_date := date bar |}.

(** Bars whose high and low are finite numbers. *)
Definition finiteBar (b : HistoricalPrice) : Prop :=
  finite (high b) /\ finite (low b).

(** [bar], at index [i], has the maximum high of [prices] and no earlier bar
    reaches it. *)
Definition firstMaxHigh (prices : list HistoricalPrice) (i : nat)
    (bar : HistoricalPrice) : Prop :=
  nth_error prices i = Some bar /\
  (forall k b, nth_error prices k = Some b ->
     PrimFloat.leb (high b) (high bar) = true) /\
  (forall k b, (k < i)%nat -> nth_error prices k = Some b ->
     PrimFloat.ltb (high b) (high bar) = true).

(** [bar], at index [i], has the minimum low of [prices] and no earlier bar
    reaches it. *)
Definition firstMinLow (prices : list HistoricalPrice) (i : nat)
    (bar : HistoricalPrice) : Prop :=
  nth_error prices i = Some bar /\
  (forall k b, nth_error prices k = Some b ->
     PrimFloat.leb (low bar) (low b) = true) /\
  (forall k b, (k < i)%nat -> nth_error prices k = Some b ->
     PrimFloat.ltb (low bar) (low b) = true).

Lemma gtb_trans (x y z : number) :
  gtb x y = true -> gtb y z = true -> gtb x z = true.
Proof. order. Qed.

Lemma gtb_cotrans (x y z : number) :
  ordered x -> ordered y -> ordered z ->
  gtb x y = false -> gtb z y = true -> gtb z x = true.
Proof. order. Qed.

Lemma ltb_cotrans (x y z : number) :
  ordered x -> ordered y -> ordered z ->
  PrimFloat.ltb x y = false -> PrimFloat.ltb z y = true -> PrimFloat.ltb z x = true.
Proof. order. Qed.

Definition always (_ : HistoricalPrice) : bool := true.

Lemma scan_swingHigh (l : list HistoricalPrice) (acc : SwingPoints) :
  swingHigh (fold_left scanBar l acc) =
  fold_left (keepBest _ _ gtb always high sp_price pointHigh) l (swingHigh acc).
Proof.
  revert acc. induction l as [|b l IH]; intros acc; [reflexivity|].
  cbn [fold_left]. rewrite IH. reflexivity.
Qed.

Lemma scan_swingLow (l : list HistoricalPrice) (acc : SwingPoints) :
  swingLow (fold_left scanBar l acc) =
  fold_left (keepBest _ _ PrimFloat.ltb always low sp_price pointLow) l (swingLow acc).
Proof.
  revert acc. induction l as [|b l IH]; intros acc; [reflexivity|].
  cbn [fold_left]. rewrite IH. reflexivity.
Qed.

(** From the split form of [bestAt] to positions in the list. *)
Lemma bestAt_firstMaxHigh (l1 l2 : list HistoricalPrice) (a : HistoricalPrice) :
  Forall finiteBar (l1 ++ a :: l2) ->
  bestAt _ gtb always high l1 a l2 ->
  firstMaxHigh (l1 ++ a :: l2) (List.length l1) a.
Proof.
  intros Hfin (_ & H1 & H2).
  assert (Hord : forall b, In b (l1 ++ a :: l2) -> ordered (high b)).
  { intros b Hb. rewrite Forall_forall in Hfin.
    apply finite_ordered, (Hfin b Hb). }
  assert (Ha : ordered (high a)) by (apply Hord, in_elt).
  split; [|split].
  - rewrite nth_error_app2, Nat.sub_diag by lia. reflexivity.
  - intros k b Hk. apply nth_error_In in Hk.
    pose proof (Hord b Hk) as Hb.
    apply in_app_iff in Hk as [Hk|[<-|Hk]].
    + apply ltb_leb. apply (H1 b Hk). reflexivity.
    + now apply leb_refl.
    + specialize (H2 b Hk eq_refl). unfold gtb in H2.
      rewrite leb_not_ltb by assumption. now rewrite H2.
  - intros k b Hlt Hk. rewrite nth_error_app1 in Hk by assumption.
    apply nth_error_In in Hk. apply (H1 b Hk). reflexivity.
Qed.

Lemma bestAt_firstMinLow (l1 l2 : list HistoricalPrice) (a : HistoricalPrice) :
  Forall finiteBar (l1 ++ a :: l2) ->
  bestAt _ PrimFloat.ltb always low l1 a l2 ->
  firstMinLow (l1 ++ a :: l2) (List.length l1) a.
Proof.
  intros Hfin (_ & H1 & H2).
  assert (Hord : forall b, In b (l1 ++ a :: l2) -> ordered (low b)).
  { intros b Hb. rewrite Forall_forall in Hfin.
    apply finite_ordered, (Hfin b Hb). }
  assert (Ha : ordered (low a)) by (apply Hord, in_elt).
  split; [|split].
  - rewrite nth_error_app2, Nat.sub_diag by lia. reflexivity.
  - intros k b Hk. apply nth_error_In in Hk.
    pose proof (Hord b Hk) as Hb.
    apply in_app_iff in Hk as [Hk|[<-|Hk]].
    + apply ltb_leb. apply (H1 b Hk). reflexivity.
    + now apply leb_refl.
    + specialize (H2 b Hk eq_refl).
      rewrite leb_not_ltb by assumption. now rewrite H2.
  - intros k b Hlt Hk. rewrite nth_error_app1 in Hk by assumption.
    apply nth_error_In in Hk. apply (H1 b Hk). reflexivity.
Qed.

Lemma Forall_finite_high (l : list HistoricalPrice) :
  Forall finiteBar l -> Forall (fun b => ordered (high b)) l.
Proof.
  apply Forall_impl. intros b [H _]. now apply finite_ordered.
Qed.

Lemma Forall_finite_low (l : list HistoricalPrice) :
  Forall finiteBar l -> Forall (fun b => ordered (low b)) l.
Proof.
  apply Forall_impl. intros b [_ H]. now apply finite_ordered.
Qed.

(** The global scan over a non-empty series of finite bars ends on the first
    bar of maximum high, and on the first bar of minimum low. *)
Lemma scan_extrema (prices : list HistoricalPrice) :
  prices <> [] -> Forall finiteBar prices ->
  exists i hi j lo,
    fold_left scanBar prices noSwing =
      {| swingHigh := pointHigh hi; swingLow := pointLow lo |} /\
    firstMaxHigh prices i hi /\ firstMinLow prices j lo.
Proof.
  intros Hne Hfin.
  destruct prices as [|b0 rest]; [congruence|].
  pose proof (fold_best _ _ gtb always high sp_price pointHigh
                (fun _ => eq_refl) gtb_trans gtb_cotrans
                (b0 :: rest) (Forall_finite_high _ Hfin)
                (swingHigh noSwing) ordered_neg_infinity) as Hh.
  pose proof (fold_best _ _ PrimFloat.ltb always low sp_price pointLow
                (fun _ => eq_refl) ltb_trans ltb_cotrans
                (b0 :: rest) (Forall_finite_low _ Hfin)
                (swingLow noSwing) ordered_infinity) as Hl.
  inversion Hfin as [|? ? [Hb0h Hb0l] _]; subst.
  destruct Hh as [[_ Hno]|(l1 & hi & l2 & Esplit & Eh & _ & Hbest)].
  { specialize (Hno b0 (or_introl eq_refl) eq_refl).
    change (PrimFloat.ltb neg_infinity (high b0) = false) in Hno.
    pose proof (finite_above_neg_infinity _ Hb0h). congruence. }
  destruct Hl as [[_ Hno]|(l1' & lo & l2' & Esplit' & El & _ & Hbest')].
  { specialize (Hno b0 (or_introl eq_refl) eq_refl).
    change (PrimFloat.ltb (low b0) infinity = false) in Hno.
    pose proof (finite_below_infinity _ Hb0l). congruence. }
  exists (List.length l1), hi, (List.length l1'), lo.
  split; [|split].
  - rewrite <- scan_swingHigh in Eh. rewrite <- scan_swingLow in El.
    destruct (fold_left scanBar (b0 :: rest) noSwing) as [sh sl].
    cbn in Eh, El. now subst.
  - rewrite Esplit. apply bestAt_firstMaxHigh; [rewrite <- Esplit|]; assumption.
  - rewrite Esplit'. apply bestAt_firstMinLow; [rewrite <- Esplit'|]; assumption.
Qed.

(** ** Swing detection: the rolling window *)

(** [bar], at interior index [i], is a candidate swing high: its high is the
    maximum of the closed window [[i - L, i + L]]. *)
Definition candidateHigh (prices : list HistoricalPrice) (L i : nat)
    (bar : HistoricalPrice) : Prop :=
  (L <= i)%nat /\ (i + L < List.length prices)%nat /\
  nth_error prices i = Some bar /\
  (forall k b, (i - L <= k <= i + L)%nat -> nth_error prices k = Some b ->
     PrimFloat.leb (high b) (high bar) = true).

(** [bar], at interior index [i], is a candidate swing low: its low is the
    minimum of the closed window [[i - L, i + L]]. *)
Definition candidateLow (prices : list HistoricalPrice) (L i : nat)
    (bar : HistoricalPrice) : Prop :=
  (L <= i)%nat /\ (i + L < List.length prices)%nat /\
  nth_error prices i = Some bar /\
  (forall k b, (i - L <= k <= i + L)%nat -> nth_error prices k = Some b ->
     PrimFloat.leb (low bar) (low b) = true).

(** The candidate with the largest high, the first one found on ties. *)
Definition bestCandidateHigh (prices : list HistoricalPrice) (L i : nat)
    (bar : HistoricalPrice) : Prop :=
  candidateHigh prices L i bar /\
  (forall k b, candidateHigh prices L k b ->
     PrimFloat.leb (high b) (high bar) = true /\
     ((k < i)%nat -> PrimFloat.ltb (high b) (high bar) = true)).

(** The candidate with the smallest low, the first one found on ties. *)
Definition bestCandidateLow (prices : list HistoricalPrice) (L i : nat)
    (bar : HistoricalPrice) : Prop :=
  candidateLow prices L i bar /\
  (forall k b, candidateLow prices L k b ->
     PrimFloat.leb (low bar) (low b) = true /\
     ((k < i)%nat -> PrimFloat.ltb (low bar) (low b) = true)).

Lemma In_slice {A} (s e : nat) (l : list A) (x : A) :
  In x (slice s e l) <-> exists k, (s <= k < e)%nat /\ nth_error l k = Some x.
Proof.
  unfold slice. split.
  - intros Hin. apply In_nth_error in Hin as [j Hj].
    rewrite nth_error_firstn in Hj.
    destruct (Nat.ltb_spec j (e - s)) as [Hlt|]; [|discriminate].
    rewrite nth_error_skipn in Hj. exists (s + j)%nat. split; [lia|exact Hj].
  - intros (k & Hk & Hx). apply (nth_error_In _ (k - s)).
    rewrite nth_error_firstn.
    destruct (Nat.ltb_spec (k - s) (e - s)) as [|Hge]; [|lia].
    rewrite nth_error_skipn. now replace (s + (k - s))%nat with k by lia.
Qed.

Lemma seq_split_bounds (l1 l2 : list nat) (i : nat) :
  forall s n, seq s n = (l1 ++ i :: l2)%list ->
  (forall k, In k l1 <-> (s <= k < i)%nat) /\
  (forall k, In k l2 <-> (i < k < s + n)%nat) /\ (s <= i < s + n)%nat.
Proof.
  induction l1 as [|a l1 IH]; intros s n E.
  - destruct n as [|n]; [discriminate|]. cbn in E. injection E as <- <-.
    split; [|split].
    + intros k. cbn. lia.
    + intros k. rewrite in_seq. lia.
    + lia.
  - destruct n as [|n]; [discriminate|]. cbn in E. injection E as <- E.
    destruct (IH _ _ E) as (H1 & H2 & H3).
    split; [|split].
    + intros k. cbn. rewrite H1. lia.
    + intros k. rewrite H2. lia.
    + lia.
Qed.

Section Rolling.

Variable prices : list HistoricalPrice.
Variable L : nat.
Variable b0 : HistoricalPrice.

Definition barAt (i : nat) : HistoricalPrice := nth i prices b0.

Definition window (i : nat) : list HistoricalPrice :=
  slice (i - L) (i + L + 1) prices.

Definition testHigh (i : nat) : bool :=
  forallb (fun b => geb (high (barAt i)) (high b)) (window i).

Definition testLow (i : nat) : bool :=
  forallb (fun b => low (barAt i) <=? low b) (window i).

(** The rolling loop never reads outside the array, and its two
    accumulators evolve independently of each other. *)
Lemma rolling_fold (idxs : list nat) :
  (forall i, In i idxs -> (i < List.length prices)%nat) ->
  forall acc,
  fold_left (rollingBar prices L) idxs (Ok acc) =
  Ok {| swingHigh :=
          fold_left (keepBest _ _ gtb testHigh (fun i => high (barAt i))
                       sp_price (fun i => pointHigh (barAt i)))
            idxs (swingHigh acc);
        swingLow :=
          fold_left (keepBest _ _ PrimFloat.ltb testLow (fun i => low (barAt i))
                       sp_price (fun i => pointLow (barAt i)))
            idxs (swingLow acc) |}.
Proof.
  induction idxs as [|i idxs IH]; intros Hin acc.
  - destruct acc; reflexivity.
  - cbn [fold_left].
    assert (Hi : (i < List.length prices)%nat) by (apply Hin; now left).
    assert (E : index prices i = Ok (barAt i)).
    { unfold index, barAt. now rewrite (nth_error_nth' _ b0 Hi). }
    unfold rollingBar at 2. cbn [bind]. rewrite E. cbn [bind].
    rewrite IH by (intros k Hk; apply Hin; now right).
    reflexivity.
Qed.

Lemma testHigh_spec (i : nat) :
  (L <= i)%nat -> (i + L < List.length prices)%nat ->
  testHigh i = true <-> candidateHigh prices L i (barAt i).
Proof.
  intros H1 H2. unfold testHigh, window, candidateHigh, geb.
  rewrite forallb_forall.
  assert (E : nth_error prices i = Some (barAt i))
    by (apply nth_error_nth'; lia).
  split.
  - intros H. repeat split; auto.
    intros k b Hk Hb. apply H. apply In_slice. exists k. split; [lia|exact Hb].
  - intros (_ & _ & _ & H) b Hb. apply In_slice in Hb as (k & Hk & Hb).
    apply (H k b); [lia|exact Hb].
Qed.

Lemma testLow_spec (i : nat) :
  (L <= i)%nat -> (i + L < List.length prices)%nat ->
  testLow i = true <-> candidateLow prices L i (barAt i).
Proof.
  intros H1 H2. unfold testLow, window, candidateLow.
  rewrite forallb_forall.
  assert (E : nth_error prices i = Some (barAt i))
    by (apply nth_error_nth'; lia).
  split.
  - intros H. repeat split; auto.
    intros k b Hk Hb. apply H. apply In_slice. exists k. split; [lia|exact Hb].
  - intros (_ & _ & _ & H) b Hb. apply In_slice in Hb as (k & Hk & Hb).
    apply (H k b); [lia|exact Hb].
Qed.

End Rolling.

Lemma firstMaxHigh_unique (l : list HistoricalPrice) (i j : nat)
    (a b : HistoricalPrice) :
  firstMaxHigh l i a -> firstMaxHigh l j b -> i = j /\ a = b.
Proof.
  intros (Ea & Ha & Ha') (Eb & Hb & Hb').
  destruct (Nat.lt_trichotomy i j) as [Hlt|[->|Hlt]].
  - pose proof (Hb' _ _ Hlt Ea). pose proof (Ha _ _ Eb). exfalso. order.
  - split; congruence.
  - pose proof (Ha' _ _ Hlt Eb). pose proof (Hb _ _ Ea). exfalso. order.
Qed.

Lemma firstMinLow_unique (l : list HistoricalPrice) (i j : nat)
    (a b : HistoricalPrice) :
  firstMinLow l i a -> firstMinLow l j b -> i = j /\ a = b.
Proof.
  intros (Ea & Ha & Ha') (Eb & Hb & Hb').
  destruct (Nat.lt_trichotomy i j) as [Hlt|[->|Hlt]].
  - pose proof (Hb' _ _ Hlt Ea). pose proof (Ha _ _ Eb). exfalso. order.
  - split; congruence.
  - pose proof (Ha' _ _ Hlt Eb). pose proof (Hb _ _ Ea). exfalso. order.
Qed.

(** The fallback of the rolling mode: [reduce] ends on the first bar of
    maximum high (minimum low). *)
Lemma reduce_firstMaxHigh (prices : list HistoricalPrice) :
  prices <> [] -> Forall finiteBar prices ->
  exists i hi,
    reduce (fun a b => if gtb (high b) (high a) then b else a) prices = Ok hi /\
    firstMaxHigh prices i hi.
Proof.
  intros Hne Hfin. destruct prices as [|b0 rest]; [congruence|].
  cbn [reduce].
  change (fun a b => if gtb (high b) (high a) then b else a)
    with (keepBest _ _ gtb always high high (fun a : HistoricalPrice => a)).
  inversion Hfin as [|? ? [Hb0 _] Hrest]; subst.
  destruct (fold_best _ _ gtb always high high (fun a => a)
              (fun _ => eq_refl) gtb_trans gtb_cotrans
              rest (Forall_finite_high _ Hrest) b0 (finite_ordered _ Hb0))
    as [[E Hno]|(l1 & a & l2 & -> & E & Hb & _ & H1 & H2)]; rewrite E.
  - exists 0%nat, b0. split; [reflexivity|].
    apply (bestAt_firstMaxHigh [] rest b0 Hfin).
    split; [reflexivity|]. split; [intros a' []|]. intros a' Hin _. now apply Hno.
  - exists (S (List.length l1)), a. split; [reflexivity|].
    apply (bestAt_firstMaxHigh (b0 :: l1) l2 a Hfin).
    split; [reflexivity|]. split; [|exact H2].
    intros a' [<-|Hin] Hc; auto.
Qed.

Lemma reduce_firstMinLow (prices : list HistoricalPrice) :
  prices <> [] -> Forall finiteBar prices ->
  exists i lo,
    reduce (fun a b => if low b <? low a then b else a) prices = Ok lo /\
    firstMinLow prices i lo.
Proof.
  intros Hne Hfin. destruct prices as [|b0 rest]; [congruence|].
  cbn [reduce].
  change (fun a b => if low b <? low a then b else a)
    with (keepBest _ _ PrimFloat.ltb always low low (fun a : HistoricalPrice => a)).
  inversion Hfin as [|? ? [_ Hb0] Hrest]; subst.
  destruct (fold_best _ _ PrimFloat.ltb always low low (fun a => a)
              (fun _ => eq_refl) ltb_trans ltb_cotrans
              rest (Forall_finite_low _ Hrest) b0 (finite_ordered _ Hb0))
    as [[E Hno]|(l1 & a & l2 & -> & E & Hb & _ & H1 & H2)]; rewrite E.
  - exists 0%nat, b0. split; [reflexivity|].
    apply (bestAt_firstMinLow [] rest b0 Hfin).
    split; [reflexivity|]. split; [intros a' []|]. intros a' Hin _. now apply Hno.
  - exists (S (List.length l1)), a. split; [reflexivity|].
    apply (bestAt_firstMinLow (b0 :: l1) l2 a Hfin).
    split; [reflexivity|]. split; [|exact H2].
    intros a' [<-|Hin] Hc; auto.
Qed.

Lemma finiteBar_nth (prices : list HistoricalPrice) (b0 : HistoricalPrice) (i : nat) :
  Forall finiteBar prices -> (i < List.length prices)%nat ->
  finiteBar (nth i prices b0).
Proof.
  intros Hfin Hi. rewrite Forall_forall in Hfin. apply Hfin, nth_In, Hi.
Qed.

Lemma candidateHigh_barAt (prices : list HistoricalPrice) (L i : nat)
    (b0 bar : HistoricalPrice) :
  candidateHigh prices L i bar -> bar = barAt prices b0 i.
Proof.
  intros (_ & Hi & E & _). unfold barAt.
  rewrite (nth_error_nth' _ b0) in E by lia. congruence.
Qed.

Lemma candidateLow_barAt (prices : list HistoricalPrice) (L i : nat)
    (b0 bar : HistoricalPrice) :
  candidateLow prices L i bar -> bar = barAt prices b0 i.
Proof.
  intros (_ & Hi & E & _). unfold barAt.
  rewrite (nth_error_nth' _ b0) in E by lia. congruence.
Qed.

(** The rolling scan for the high: it keeps the best candidate, the first
    found on ties, or stays at [-Infinity] when there is no candidate. *)
Lemma rolling_high (prices : list HistoricalPrice) (L : nat) (b0 : HistoricalPrice) :
  Forall finiteBar prices ->
  let r := fold_left (keepBest _ _ gtb (testHigh prices L b0)
                        (fun i => high (barAt prices b0 i)) sp_price
                        (fun i => pointHigh (barAt prices b0 i)))
             (interior (List.length prices) L) (swingHigh noSwing) in
  (r = swingHigh noSwing /\ forall i bar, ~ candidateHigh prices L i bar) \/
  (exists i hi, r = pointHigh hi /\ bestCandidateHigh prices L i hi).
Proof.
  intros Hfin r.
  assert (Hint : forall i, In i (interior (List.length prices) L) <->
                           (L <= i /\ i + L < List.length prices)%nat).
  { intros i. unfold interior. rewrite in_seq. lia. }
  assert (Hord : Forall (fun i => ordered (high (barAt prices b0 i)))
                   (interior (List.length prices) L)).
  { apply Forall_forall. intros i Hi. apply Hint in Hi.
    apply finite_ordered, (finiteBar_nth prices b0 i Hfin). lia. }
  destruct (fold_best _ _ gtb (testHigh prices L b0)
              (fun i => high (barAt prices b0 i)) sp_price
              (fun i => pointHigh (barAt prices b0 i))
              (fun _ => eq_refl) gtb_trans gtb_cotrans _ Hord
              (swingHigh noSwing) ordered_neg_infinity)
    as [[E Hno]|(l1 & i & l2 & Esplit & E & Hb & Hc & H1 & H2)].
  - left. split; [exact E|]. intros i bar Hcand.
    pose proof Hcand as (Hi1 & Hi2 & _).
    rewrite (candidateHigh_barAt _ _ _ b0 _ Hcand) in Hcand.
    apply testHigh_spec in Hcand; [|assumption..].
    specialize (Hno i (proj2 (Hint i) (conj Hi1 Hi2)) Hcand).
    change (PrimFloat.ltb neg_infinity (high (barAt prices b0 i)) = false) in Hno.
    rewrite finite_above_neg_infinity in Hno; [discriminate|].
    apply (finiteBar_nth prices b0 i Hfin). lia.
  - right. exists i, (barAt prices b0 i). split; [exact E|].
    destruct (seq_split_bounds _ _ _ _ _ Esplit) as (Hl1 & Hl2 & Hi).
    assert (Hi' : (L <= i /\ i + L < List.length prices)%nat) by lia.
    split; [apply testHigh_spec; tauto|].
    intros k b Hcand. pose proof Hcand as (Hk1 & Hk2 & _).
    pose proof (candidateHigh_barAt _ _ _ b0 _ Hcand) as Eb; subst b.
    apply testHigh_spec in Hcand; [|assumption..].
    assert (Hfk : ordered (high (barAt prices b0 k)))
      by (apply finite_ordered, (finiteBar_nth prices b0 k Hfin); lia).
    assert (Hfi : ordered (high (barAt prices b0 i)))
      by (apply finite_ordered, (finiteBar_nth prices b0 i Hfin); lia).
    assert (Hlt : (k < i)%nat -> PrimFloat.ltb (high (barAt prices b0 k))
                                   (high (barAt prices b0 i)) = true).
    { intros Hki. apply (H1 k); [apply Hl1; lia|exact Hcand]. }
    split; [|exact Hlt].
    destruct (Nat.lt_trichotomy k i) as [Hki|[->|Hki]].
    + now apply ltb_leb, Hlt.
    + now apply leb_refl.
    + assert (Hin : In k l2) by (apply Hl2; lia).
      specialize (H2 k Hin Hcand). unfold gtb in H2.
      rewrite leb_not_ltb by assumption. now rewrite H2.
Qed.

Lemma rolling_low (prices : list HistoricalPrice) (L : nat) (b0 : HistoricalPrice) :
  Forall finiteBar prices ->
  let r := fold_left (keepBest _ _ PrimFloat.ltb (testLow prices L b0)
                        (fun i => low (barAt prices b0 i)) sp_price
                        (fun i => pointLow (barAt prices b0 i)))
             (interior (List.length prices) L) (swingLow noSwing) in
  (r = swingLow noSwing /\ forall i bar, ~ candidateLow prices L i bar) \/
  (exists i lo, r = pointLow lo /\ bestCandidateLow prices L i lo).
Proof.
  intros Hfin r.
  assert (Hint : forall i, In i (interior (List.length prices) L) <->
                           (L <= i /\ i + L < List.length prices)%nat).
  { intros i. unfold interior. rewrite in_seq. lia. }
  assert (Hord : Forall (fun i => ordered (low (barAt prices b0 i)))
                   (interior (List.length prices) L)).
  { apply Forall_forall. intros i Hi. apply Hint in Hi.
    apply finite_ordered, (finiteBar_nth prices b0 i Hfin). lia. }
  destruct (fold_best _ _ PrimFloat.ltb (testLow prices L b0)
              (fun i => low (barAt prices b0 i)) sp_price
              (fun i => pointLow (barAt prices b0 i))
              (fun _ => eq_refl) ltb_trans ltb_cotrans _ Hord
              (swingLow noSwing) ordered_infinity)
    as [[E Hno]|(l1 & i & l2 & Esplit & E & Hb & Hc & H1 & H2)].
  - left. split; [exact E|]. intros i bar Hcand.
    pose proof Hcand as (Hi1 & Hi2 & _).
    rewrite (candidateLow_barAt _ _ _ b0 _ Hcand) in Hcand.
    apply testLow_spec in Hcand; [|assumption..].
    specialize (Hno i (proj2 (Hint i) (conj Hi1 Hi2)) Hcand).
    change (PrimFloat.ltb (low (barAt prices b0 i)) infinity = false) in Hno.
    rewrite finite_below_infinity in Hno; [discriminate|].
    apply (finiteBar_nth prices b0 i Hfin). lia.
  - right. exists i, (barAt prices b0 i). split; [exact E|].
    destruct (seq_split_bounds _ _ _ _ _ Esplit) as (Hl1 & Hl2 & Hi).
    assert (Hi' : (L <= i /\ i + L < List.length prices)%nat) by lia.
    split; [apply testLow_spec; tauto|].
    intros k b Hcand. pose proof Hcand as (Hk1 & Hk2 & _).
    pose proof (candidateLow_barAt _ _ _ b0 _ Hcand) as Eb; subst b.
    apply testLow_spec in Hcand; [|assumption..].
    assert (Hfk : ordered (low (barAt prices b0 k)))
      by (apply finite_ordered, (finiteBar_nth prices b0 k Hfin); lia).
    assert (Hfi : ordered (low (barAt prices b0 i)))
      by (apply finite_ordered, (finiteBar_nth prices b0 i Hfin); lia).
    assert (Hlt : (k < i)%nat -> PrimFloat.ltb (low (barAt prices b0 i))
                                   (low (barAt prices b0 k)) = true).
    { intros Hki. apply (H1 k); [apply Hl1; lia|exact Hcand]. }
    split; [|exact Hlt].
    destruct (Nat.lt_trichotomy k i) as [Hki|[->|Hki]].
    + now apply ltb_leb, Hlt.
    + now apply leb_refl.
    + assert (Hin : In k l2) by (apply Hl2; lia).
      specialize (H2 k Hin Hcand).
      rewrite leb_not_ltb by assumption. now rewrite H2.
Qed.

(** The rolling mode returns on every non-empty input, whatever the numbers. *)
Lemma detectSwingPoints_rolling_total (prices : list HistoricalPrice) (L : nat) :
  prices <> [] -> exists sw, detectSwingPoints prices (Some L) = Ok sw.
Proof.
  intros Hne.
  destruct prices as [|b0 rest] eqn:Eprices; [congruence|].
  cbn [detectSwingPoints]. rewrite <- Eprices. unfold detectSwingPointsRolling.
  rewrite (rolling_fold prices L b0)
    by (intros i Hi; unfold interior in Hi; apply in_seq in Hi; lia).
  cbn [bind swingHigh swingLow].
  assert (Er : forall f, reduce f prices = Ok (fold_left f rest b0))
    by (intros f; now rewrite Eprices).
  rewrite !Er. cbn [bind].
  destruct (_ =? neg_infinity), (_ =? infinity); eexists; reflexivity.
Qed.

(** Claim C4. For every non-empty price series (of finite prices),
    global-mode swing detection, [detectSwingPoints] with no lookback,
    returns as [swingHigh] the price and date of a bar whose high is the
    maximum [bar.high] of the series, and as [swingLow] those of a bar whose
    low is the minimum [bar.low]; on ties the first occurrence in scan order
    wins, for both extrema. *)
Theorem detectSwingPoints_global_extrema (prices : list HistoricalPrice) :
  prices <> [] -> Forall finiteBar prices ->
  exists i hi j lo,
    detectSwingPoints prices None =
      Ok {| swingHigh := pointHigh hi; swingLow := pointLow lo |} /\
    firstMaxHigh prices i hi /\ firstMinLow prices j lo.
Proof.
  intros Hne Hfin.
  destruct (scan_extrema prices Hne Hfin) as (i & hi & j & lo & E & Hhi & Hlo).
  exists i, hi, j, lo. split; [|split; assumption].
  destruct prices; [congruence|]. cbn [detectSwingPoints]. now rewrite E.
Qed.

Lemma candidateHigh_finite (prices : list HistoricalPrice) (L i : nat)
    (bar : HistoricalPrice) :
  Forall finiteBar prices -> candidateHigh prices L i bar -> finiteBar bar.
Proof.
  intros Hfin (_ & _ & E & _). rewrite Forall_forall in Hfin.
  apply Hfin. eapply nth_error_In, E.
Qed.

Lemma candidateLow_finite (prices : list HistoricalPrice) (L i : nat)
    (bar : HistoricalPrice) :
  Forall finiteBar prices -> candidateLow prices L i bar -> finiteBar bar.
Proof.
  intros Hfin (_ & _ & E & _). rewrite Forall_forall in Hfin.
  apply Hfin. eapply nth_error_In, E.
Qed.

(** What [detectSwingPointsRolling] returns on a non-empty series of finite
    bars: per extremum, the best candidate, or without candidates the first
    extremum of the whole input. *)
Lemma rolling_result (prices : list HistoricalPrice) (L : nat) :
  prices <> [] -> Forall finiteBar prices ->
  exists sh sl,
    detectSwingPointsRolling prices L = Ok {| swingHigh := sh; swingLow := sl |} /\
    ((exists i hi, bestCandidateHigh prices L i hi /\ sh = pointHigh hi) \/
     ((forall i bar, ~ candidateHigh prices L i bar) /\
      exists i hi, firstMaxHigh prices i hi /\ sh = pointHigh hi)) /\
    ((exists j lo, bestCandidateLow prices L j lo /\ sl = pointLow lo) \/
     ((forall j bar, ~ candidateLow prices L j bar) /\
      exists j lo, firstMinLow prices j lo /\ sl = pointLow lo)).
Proof.
  intros Hne Hfin.
  destruct prices as [|b0 rest] eqn:Eprices; [congruence|]. rewrite <- Eprices in *.
  unfold detectSwingPointsRolling.
  rewrite (rolling_fold prices L b0)
    by (intros i Hi; unfold interior in Hi; apply in_seq in Hi; lia).
  cbn [bind swingHigh swingLow].
  destruct (reduce_firstMaxHigh prices Hne Hfin) as (im & hm & Em & Hm).
  destruct (reduce_firstMinLow prices Hne Hfin) as (jm & lm & En & Hn).
  rewrite Em, En. cbn [bind].
  destruct (rolling_high prices L b0 Hfin) as [[Eh Hnoh]|(i & hi & Eh & Hbh)];
    destruct (rolling_low prices L b0 Hfin) as [[El Hnol]|(j & lo & El & Hbl)];
    rewrite Eh, El.
  - do 2 eexists. split; [reflexivity|]. split; right; split; eauto.
  - pose proof (candidateLow_finite _ _ _ _ Hfin (proj1 Hbl)) as [_ Hf].
    cbn [pointLow sp_price]. rewrite (finite_not_infinity _ Hf).
    do 2 eexists. split; [reflexivity|]. split; [right|left]; eauto.
  - pose proof (candidateHigh_finite _ _ _ _ Hfin (proj1 Hbh)) as [Hf _].
    cbn [pointHigh sp_price]. rewrite (finite_not_neg_infinity _ Hf).
    do 2 eexists. split; [reflexivity|]. split; [left|right]; eauto.
  - pose proof (candidateHigh_finite _ _ _ _ Hfin (proj1 Hbh)) as [Hf _].
    pose proof (candidateLow_finite _ _ _ _ Hfin (proj1 Hbl)) as [_ Hf'].
    cbn [pointHigh pointLow sp_price].
    rewrite (finite_not_neg_infinity _ Hf), (finite_not_infinity _ Hf').
    do 2 eexists. split; [reflexivity|]. split; left; eauto.
Qed.

(** Claim C2. In rolling-window mode with lookback [L], on a non-empty
    series of finite prices: a bar at interior index [i] is a candidate swing
    high exactly when its high is the maximum of the closed window
    [[i - L, i + L]]; the returned [swingHigh] is the candidate with the
    largest high, the first found on ties; mirrored for the swing low with
    the minimum; and an extremum for which no interior bar qualifies falls
    back to what the global mode returns over the full input. *)
Theorem detectSwingPoints_rolling (prices : list HistoricalPrice) (L : nat) :
  prices <> [] -> Forall finiteBar prices ->
  exists sw g,
    detectSwingPoints prices (Some L) = Ok sw /\
    detectSwingPoints prices None = Ok g /\
    ((exists i hi, bestCandidateHigh prices L i hi /\ swingHigh sw = pointHigh hi) \/
     ((forall i bar, ~ candidateHigh prices L i bar) /\ swingHigh sw = swingHigh g)) /\
    ((exists j lo, bestCandidateLow prices L j lo /\ swingLow sw = pointLow lo) \/
     ((forall j bar, ~ candidateLow prices L j bar) /\ swingLow sw = swingLow g)) /\
    (forall i bar, (L <= i)%nat -> (i + L < List.length prices)%nat ->
       nth_error prices i = Some bar ->
       (forallb (fun b => geb (high bar) (high b))
          (slice (i - L) (i + L + 1) prices) = true <->
        candidateHigh prices L i bar) /\
       (forallb (fun b => low bar <=? low b)
          (slice (i - L) (i + L + 1) prices) = true <->
        candidateLow prices L i bar)).
Proof.
  intros Hne Hfin.
  destruct (rolling_result prices L Hne Hfin) as (sh & sl & E & Hh & Hl).
  destruct (detectSwingPoints_global_extrema prices Hne Hfin)
    as (ig & hg & jg & lg & Eg & Hhg & Hlg).
  exists {| swingHigh := sh; swingLow := sl |},
         {| swingHigh := pointHigh hg; swingLow := pointLow lg |}.
  split; [|split; [exact Eg|split; [|split]]].
  - destruct prices; [congruence|exact E].
  - destruct Hh as [Hh|[Hno (i & hi & Hm & ->)]]; [left; exact Hh|right].
    split; [exact Hno|]. cbn [swingHigh].
    now destruct (firstMaxHigh_unique _ _ _ _ _ Hm Hhg) as [_ ->].
  - destruct Hl as [Hl|[Hno (j & lo & Hm & ->)]]; [left; exact Hl|right].
    split; [exact Hno|]. cbn [swingLow].
    now destruct (firstMinLow_unique _ _ _ _ _ Hm Hlg) as [_ ->].
  - intros i bar Hi1 Hi2 Ebar.
    assert (Eb : bar = barAt prices bar i).
    { unfold barAt. rewrite (nth_error_nth' _ bar) in Ebar by lia. congruence. }
    pose proof (testHigh_spec prices L bar i Hi1 Hi2) as Th.
    pose proof (testLow_spec prices L bar i Hi1 Hi2) as Tl.
    unfold testHigh, testLow, window in Th, Tl.
    rewrite <- Eb in Th, Tl. split; assumption.
Qed.

(** A bar with the given date, high, low and close. *)
Definition mkBar (d : string) (h l cl : number) : HistoricalPrice :=
  {| date := d; open := l; high := h; low := l; close := cl; volume := 1000 |}.

(** Four days with a tie for the highest high and for the lowest low. *)
Definition tiedBars : list HistoricalPrice :=
  [ mkBar "2024-01-02" 11 9 10;
    mkBar "2024-01-03" 12 8 11;
    mkBar "2024-01-04" 12 8 9;
    mkBar "2024-01-05" 10 9 9.5 ].

Lemma finiteBar_tiedBars : Forall finiteBar tiedBars.
Proof. repeat constructor. Qed.

Lemma detectSwingPoints_global_extrema_witness :
  exists i hi j lo,
    detectSwingPoints tiedBars None =
      Ok {| swingHigh := pointHigh hi; swingLow := pointLow lo |} /\
    firstMaxHigh tiedBars i hi /\ firstMinLow tiedBars j lo.
Proof.
  apply (detectSwingPoints_global_extrema tiedBars).
  - discriminate.
  - exact finiteBar_tiedBars.
Defined.

Lemma detectSwingPoints_rolling_witness :
  exists sw g,
    detectSwingPoints tiedBars (Some 1%nat) = Ok sw /\
    detectSwingPoints tiedBars None = Ok g /\
    ((exists i hi, bestCandidateHigh tiedBars 1 i hi /\ swingHigh sw = pointHigh hi) \/
     ((forall i bar, ~ candidateHigh tiedBars 1 i bar) /\ swingHigh sw = swingHigh g)) /\
    ((exists j lo, bestCandidateLow tiedBars 1 j lo /\ swingLow sw = pointLow lo) \/
     ((forall j bar, ~ candidateLow tiedBars 1 j bar) /\ swingLow sw = swingLow g)) /\
    (forall i bar, (1 <= i)%nat -> (i + 1 < List.length tiedBars)%nat ->
       nth_error tiedBars i = Some bar ->
       (forallb (fun b => geb (high bar) (high b))
          (slice (i - 1) (i + 1 + 1) tiedBars) = true <->
        candidateHigh tiedBars 1 i bar) /\
       (forallb (fun b => low bar <=? low b)
          (slice (i - 1) (i + 1 + 1) tiedBars) = true <->
        candidateLow tiedBars 1 i bar)).
Proof.
  apply (detectSwingPoints_rolling tiedBars 1).
  - discriminate.
  - exact finiteBar_tiedBars.
Defined.

End SwingFacts.

(** ** Retracement levels and the signal *)

Module LevelFacts.

Import JS Notations Order Fib.
Local Open Scope string_scope.
Local Open Scope float_scope.

(** The signal alone, without the reason. *)
Definition signalAt (levels : list FibLevel) (trend : TrendDirection)
    (cp : number) : result ThemeStatus :=
  sr <- determineSignal cp levels trend ;; Ok (fst sr).

(** The decision table of the signal over two thresholds. *)
Definition signalRule (trend : TrendDirection) (shallow golden cp : number)
    : ThemeStatus :=
  match trend with
  | uptrend =>
      if geb cp shallow then success
      else if geb cp golden then warning else danger
  | downtrend =>
      if cp <=? shallow then danger
      else if cp <=? golden then warning else success
  end.

(** The level of [calculateFibLevels] for the entry [r] of [FIB_RATIOS]. *)
Definition levelOf (high low : number) (trend : TrendDirection) (r : FibRatio)
    : FibLevel :=
  {| ratio := fr_ratio r;
     label := fr_label r;
     friendlyName := fr_friendlyName r;
     price := parseFloat (toFixed (rawLevel high low trend (fr_ratio r)) 2);
     isGoldenZone := fr_ratio r =? 0.618;
     trafficLight := fr_trafficLight r |}.

Lemma calculateFibLevels_unfold (high low : number) (trend : TrendDirection) :
  calculateFibLevels high low trend = map (levelOf high low trend) FIB_RATIOS.
Proof. reflexivity. Qed.

Lemma calculateFibLevels_golden (high low : number) (trend : TrendDirection) :
  exists g,
    find isGoldenZone (calculateFibLevels high low trend) = Some g /\
    nth_error (calculateFibLevels high low trend) 3 = Some g /\
    ratio g = 0.618 /\
    price g = parseFloat (toFixed (rawLevel high low trend 0.618) 2).
Proof. eexists. repeat split; reflexivity. Qed.

Lemma calculateFibLevels_shallow (high low : number) (trend : TrendDirection) :
  exists s,
    nth_error (calculateFibLevels high low trend) 0 = Some s /\
    ratio s = 0.236 /\
    price s = parseFloat (toFixed (rawLevel high low trend 0.236) 2).
Proof. eexists. repeat split; reflexivity. Qed.

(** Numbers in strictly ascending order. *)
Definition ascending (l : list number) : Prop :=
  StronglySorted (fun x y => (x <? y) = true) l.

Lemma determineSignal_rule (high low : number) (t trend : TrendDirection)
    (cp : number) :
  let levels := calculateFibLevels high low t in
  signalAt levels trend cp =
  Ok (signalRule trend
        (parseFloat (toFixed (rawLevel high low t 0.236) 2))
        (parseFloat (toFixed (rawLevel high low t 0.618) 2)) cp).
Proof.
  unfold signalAt, determineSignal, signalRule.
  rewrite calculateFibLevels_unfold.
  cbn [FIB_RATIOS map index nth_error find levelOf isGoldenZone price bind
       fr_ratio fr_label fr_friendlyName fr_trafficLight].
  change (0.236 =? 0.618) with false. change (0.382 =? 0.618) with false.
  change (0.5 =? 0.618) with false. change (0.618 =? 0.618) with true.
  cbn [bind price]. destruct trend.
  - destruct (geb cp _); [reflexivity|]. destruct (geb cp _); reflexivity.
  - destruct (cp <=? _); [reflexivity|]. destruct (cp <=? _); reflexivity.
Qed.

Lemma determineSignal_total (high low : number) (t trend : TrendDirection)
    (cp : number) :
  exists sr, determineSignal cp (calculateFibLevels high low t) trend = Ok sr.
Proof.
  pose proof (determineSignal_rule high low t trend cp) as H.
  cbv zeta in H. unfold signalAt in H.
  destruct (determineSignal cp (calculateFibLevels high low t) trend) as [sr|e];
    [now exists sr|discriminate].
Qed.

(** Claim C10. For every high, low and trend, [calculateFibLevels] returns
    exactly five levels, in ascending ratio order, of which exactly one, the
    one of ratio 0.618, has [isGoldenZone] true. Hence the Golden Zone lookup
    [levels.find] never comes back empty: [determineSignal] does not fail on
    these levels, and the guard of [backtestGoldenZone] that skips when no
    golden level is found is never taken. *)
Theorem calculateFibLevels_five_levels (high low : number) (t : TrendDirection) :
  let levels := calculateFibLevels high low t in
  List.length levels = 5%nat /\
  map ratio levels = [0.236; 0.382; 0.5; 0.618; 0.786] /\
  ascending (map ratio levels) /\
  map isGoldenZone levels = [false; false; false; true; false] /\
  (exists g, find isGoldenZone levels = Some g /\ ratio g = 0.618) /\
  find isGoldenZone levels <> None /\
  (forall cp trend, exists sr, determineSignal cp levels trend = Ok sr).
Proof.
  cbv zeta. split; [reflexivity|]. split; [reflexivity|].
  split; [repeat constructor|]. split; [reflexivity|].
  split; [eexists; split; reflexivity|]. split; [discriminate|].
  intros cp trend. apply determineSignal_total.
Qed.

(** Each region of the decision table is an interval: a price between two
    prices of one region lies in that region. *)
Lemma signalRule_convex (trend : TrendDirection) (shallow golden a b c : number) :
  (a <=? b) = true -> (b <=? c) = true ->
  signalRule trend shallow golden a = signalRule trend shallow golden c ->
  signalRule trend shallow golden b = signalRule trend shallow golden a.
Proof.
  intros Hab Hbc. unfold signalRule, geb. destruct trend.
  - assert (M1 : (shallow <=? a) = true -> (shallow <=? b) = true)
      by (intros H; exact (leb_trans _ _ _ H Hab)).
    assert (M2 : (shallow <=? b) = true -> (shallow <=? c) = true)
      by (intros H; exact (leb_trans _ _ _ H Hbc)).
    assert (M3 : (golden <=? a) = true -> (golden <=? b) = true)
      by (intros H; exact (leb_trans _ _ _ H Hab)).
    assert (M4 : (golden <=? b) = true -> (golden <=? c) = true)
      by (intros H; exact (leb_trans _ _ _ H Hbc)).
    destruct (shallow <=? a), (golden <=? a), (shallow <=? b), (golden <=? b),
             (shallow <=? c), (golden <=? c);
      intros E; try reflexivity; try discriminate;
      try discriminate (M1 eq_refl); try discriminate (M2 eq_refl);
      try discriminate (M3 eq_refl); try discriminate (M4 eq_refl).
  - assert (M1 : (b <=? shallow) = true -> (a <=? shallow) = true)
      by (intros H; exact (leb_trans _ _ _ Hab H)).
    assert (M2 : (c <=? shallow) = true -> (b <=? shallow) = true)
      by (intros H; exact (leb_trans _ _ _ Hbc H)).
    assert (M3 : (b <=? golden) = true -> (a <=? golden) = true)
      by (intros H; exact (leb_trans _ _ _ Hab H)).
    assert (M4 : (c <=? golden) = true -> (b <=? golden) = true)
      by (intros H; exact (leb_trans _ _ _ Hbc H)).
    destruct (a <=? shallow), (a <=? golden), (b <=? shallow), (b <=? golden),
             (c <=? shallow), (c <=? golden);
      intros E; try reflexivity; try discriminate;
      try discriminate (M1 eq_refl); try discriminate (M2 eq_refl);
      try discriminate (M3 eq_refl); try discriminate (M4 eq_refl).
Qed.

(** Claim C9. [analyzeTicker] throws the empty-input error exactly when the
    price series has zero bars; for every non-empty series it returns an
    analysis result and does not throw. *)
Theorem analyzeTicker_throws_iff_empty (prices : list HistoricalPrice)
    (cp : number) :
  (prices = [] /\ analyzeTicker prices cp = Throw EmptyPriceData) \/
  (prices <> [] /\ exists r, analyzeTicker prices cp = Ok r).
Proof.
  destruct prices as [|b rest]; [left; split; reflexivity|right].
  split; [discriminate|].
  unfold analyzeTicker. cbn [detectSwingPoints bind].
  set (swing := fold_left scanBar (b :: rest) noSwing).
  destruct (determineSignal_total (sp_price (swingHigh swing))
              (sp_price (swingLow swing)) (detectTrend swing)
              (detectTrend swing) cp) as [sr ->].
  cbn [bind]. eexists. reflexivity.
Qed.

End LevelFacts.

(** ** The backtest walker *)

Module BacktestFacts.

Import JS Notations Order Fib Backtest.
Local Open Scope string_scope.
Local Open Scope float_scope.

(** Touches are logged at least [COOLDOWN_BARS] indices apart, in ascending
    order of index. *)
Definition spaced (log : list (nat * GoldenTouch)) : Prop :=
  forall p q i j ti tj, (p < q)%nat ->
    nth_error log p = Some (i, ti) -> nth_error log q = Some (j, tj) ->
    (i + COOLDOWN_BARS <= j)%nat.

(** The invariant of the loop: the log is spaced and [lastTouchIndex] is at
    or after every logged index. *)
Definition walkInv (st : WalkState) : Prop :=
  spaced (touchLog st) /\
  (forall p k t, nth_error (touchLog st) p = Some (k, t) ->
     exists j, lastTouchIndex st = Some j /\ (k <= j)%nat).

Lemma slice_window_nonempty (prices : list HistoricalPrice) (i : nat) :
  (SWING_WINDOW <= i)%nat -> (i <= List.length prices)%nat ->
  slice (i - SWING_WINDOW) i prices <> [].
Proof.
  intros H1 H2 E. apply (f_equal (@List.length _)) in E.
  unfold slice in E. rewrite length_firstn, length_skipn in E.
  unfold SWING_WINDOW in *. cbn [List.length] in E. lia.
Qed.

(** One turn of the loop, inside the range walked: it does not throw, and it
    either leaves the state alone or logs a touch at [i] outside the
    cooldown. *)
Lemma walkBar_step (prices : list HistoricalPrice) (st : WalkState) (i : nat) :
  (SWING_WINDOW <= i)%nat -> (i + OUTCOME_HORIZON < List.length prices)%nat ->
  exists st', walkBar prices (Ok st) i = Ok st' /\
    (st' = st \/
     (inCooldown i (lastTouchIndex st) = false /\
      exists t, st' = {| touchLog := touchLog st ++ [(i, t)];
                         lastTouchIndex := Some i |})).
Proof.
  intros H1 H2. unfold walkBar. cbn [bind].
  destruct (inCooldown i (lastTouchIndex st)) eqn:Hcool;
    [exists st; split; [reflexivity|now left]|].
  destruct (SwingFacts.detectSwingPoints_rolling_total
              (slice (i - SWING_WINDOW) i prices) SWING_LOOKBACK)
    as [swing ->]; [apply slice_window_nonempty; lia|].
  cbn [bind].
  destruct (LevelFacts.calculateFibLevels_golden
              (sp_price (swingHigh swing)) (sp_price (swingLow swing))
              (detectTrend swing)) as (g & -> & _).
  assert (Ei : exists bar, index prices i = Ok bar).
  { unfold index. destruct (nth_error prices i) eqn:E; [eauto|].
    apply nth_error_None in E. lia. }
  assert (Ef : exists bar, index prices (i + OUTCOME_HORIZON) = Ok bar).
  { unfold index. destruct (nth_error prices (i + OUTCOME_HORIZON)) eqn:E; [eauto|].
    apply nth_error_None in E. lia. }
  destruct Ei as [bar ->], Ef as [futureBar ->]. cbn [bind].
  destruct (_ <=? 0); [exists st; split; [reflexivity|now left]|].
  destruct (gtb _ _); [exists st; split; [reflexivity|now left]|].
  eexists. split; [reflexivity|]. right. split; [reflexivity|].
  eexists. reflexivity.
Qed.

Lemma walkInv_init : walkInv {| touchLog := []; lastTouchIndex := None |}.
Proof.
  split.
  - intros p q i j ti tj _ Hp. destruct p; discriminate.
  - intros p k t Hp. destruct p; discriminate.
Qed.

Lemma walkInv_push (st : WalkState) (i : nat) (t : GoldenTouch) :
  walkInv st -> inCooldown i (lastTouchIndex st) = false ->
  walkInv {| touchLog := touchLog st ++ [(i, t)]; lastTouchIndex := Some i |}.
Proof.
  intros [Hsp Hlast] Hcool. cbn [touchLog lastTouchIndex].
  assert (Hold : forall p k tk, nth_error (touchLog st) p = Some (k, tk) ->
                   (k + COOLDOWN_BARS <= i)%nat).
  { intros p k tk Hp. destruct (Hlast p k tk Hp) as (j & Ej & Hkj).
    rewrite Ej in Hcool. cbn [inCooldown] in Hcool.
    apply Z.ltb_ge in Hcool. lia. }
  assert (Hnew : forall p k tk,
            nth_error (touchLog st ++ [(i, t)]) p = Some (k, tk) ->
            ((p < List.length (touchLog st))%nat /\
             nth_error (touchLog st) p = Some (k, tk)) \/
            (p = List.length (touchLog st) /\ k = i)).
  { intros p k tk Hp.
    destruct (Nat.lt_ge_cases p (List.length (touchLog st))) as [Hlt|Hge].
    - rewrite nth_error_app1 in Hp by assumption. now left.
    - rewrite nth_error_app2 in Hp by assumption. right.
      destruct (p - List.length (touchLog st))%nat as [|d] eqn:Ed.
      + cbn in Hp. injection Hp as <- <-. split; [lia|reflexivity].
      + destruct d; discriminate. }
  split.
  - intros p q k j tk tj Hpq Hp Hq.
    apply Hnew in Hp as [[Hp1 Hp]|[Hp1 ->]], Hq as [[Hq1 Hq]|[Hq1 ->]].
    + exact (Hsp p q k j tk tj Hpq Hp Hq).
    + exact (Hold p k tk Hp).
    + lia.
    + lia.
  - intros p k tk Hp. exists i. split; [reflexivity|].
    apply Hnew in Hp as [[_ Hp]|[_ ->]]; [|lia].
    pose proof (Hold p k tk Hp). lia.
Qed.

(** The loop over any indices of the range walked: it does not throw and
    keeps the invariant. *)
Lemma walk_fold (prices : list HistoricalPrice) (idxs : list nat) :
  (forall i, In i idxs ->
     (SWING_WINDOW <= i)%nat /\ (i + OUTCOME_HORIZON < List.length prices)%nat) ->
  forall st, walkInv st ->
  exists st', fold_left (walkBar prices) idxs (Ok st) = Ok st' /\ walkInv st'.
Proof.
  induction idxs as [|i idxs IH]; intros Hin st Hinv.
  - exists st. split; [reflexivity|exact Hinv].
  - cbn [fold_left].
    destruct (Hin i (or_introl eq_refl)) as [H1 H2].
    destruct (walkBar_step prices st i H1 H2) as (st1 & -> & Hst1).
    apply IH; [intros k Hk; apply Hin; now right|].
    destruct Hst1 as [->|(Hcool & t & ->)]; [exact Hinv|].
    now apply walkInv_push.
Qed.

Lemma walk_total (prices : list HistoricalPrice) :
  exists st, walk prices = Ok st /\ walkInv st.
Proof.
  apply walk_fold; [|exact walkInv_init].
  intros i Hi. unfold walkRange in Hi. apply in_seq in Hi.
  unfold SWING_WINDOW, OUTCOME_HORIZON in *. lia.
Qed.

(** Claim C8. For every price series, no two touches recorded by
    [backtestGoldenZone] have bar indices closer than [COOLDOWN_BARS = 10]:
    [touches] is the log of the walk, in which a later touch lies at least
    ten bars after an earlier one. *)
Theorem backtest_cooldown (prices : list HistoricalPrice) :
  exists st r,
    walk prices = Ok st /\
    backtestGoldenZone prices = Ok r /\
    touches r = map snd (touchLog st) /\
    COOLDOWN_BARS = 10%nat /\
    (forall p q i j ti tj, (p < q)%nat ->
       nth_error (touchLog st) p = Some (i, ti) ->
       nth_error (touchLog st) q = Some (j, tj) ->
       (i + COOLDOWN_BARS <= j)%nat).
Proof.
  destruct (walk_total prices) as (st & E & Hsp & _).
  exists st. eexists. split; [exact E|].
  unfold backtestGoldenZone. rewrite E. cbn [bind].
  split; [reflexivity|]. split; [reflexivity|]. split; [reflexivity|exact Hsp].
Qed.

(** Claim C1, as the code has it. [backtestGoldenZone] never fails, whatever
    the length of the series: there is no insufficient-data error. A series
    of at most [SWING_WINDOW + OUTCOME_HORIZON = 150] bars yields a result
    with an empty touches list, no successes, no failures and a win rate of
    zero; an empty touches list is a valid result. *)
Theorem backtest_never_fails (prices : list HistoricalPrice) :
  exists r,
    backtestGoldenZone prices = Ok r /\
    totalBars r = List.length prices /\
    ((List.length prices <= SWING_WINDOW + OUTCOME_HORIZON)%nat ->
     r = {| totalBars := List.length prices; touches := [];
            successes := 0; failures := 0; winRate := 0 |}).
Proof.
  destruct (walk_total prices) as (st & E & _).
  unfold backtestGoldenZone. rewrite E. cbn [bind].
  eexists. split; [reflexivity|]. split; [reflexivity|].
  intros Hlen. unfold walk, walkRange in E.
  replace (List.length prices - OUTCOME_HORIZON - SWING_WINDOW)%nat with 0%nat in E
    by (unfold SWING_WINDOW, OUTCOME_HORIZON in *; lia).
  cbn in E. injection E as <-. reflexivity.
Qed.

(** Where claim C1 fails: on a series of exactly 150 bars, and on one of
    4 bars, [backtestGoldenZone] returns a result with no touches. *)
Lemma backtest_short_series_returns :
  backtestGoldenZone (Samples.flatBars 150) =
    Ok {| totalBars := 150; touches := [];
          successes := 0; failures := 0; winRate := 0 |} /\
  backtestGoldenZone SwingFacts.tiedBars =
    Ok {| totalBars := 4; touches := [];
          successes := 0; failures := 0; winRate := 0 |}.
Proof. split; vm_compute; reflexivity. Qed.

(** On 200 flat bars every bar from index 120 on is within the touch zone;
    the cooldown keeps one touch in ten. *)
Example backtest_flat_series_touches :
  exists st, walk (Samples.flatBars 200) = Ok st /\
    map fst (touchLog st) = [120; 130; 140; 150; 160]%nat.
Proof. eexists. split; vm_compute; reflexivity. Qed.

End BacktestFacts.

(** ** The rising-series scenario *)

Module Scenario.

Import JS Notations Order Fib SwingFacts LevelFacts.
Local Open Scope string_scope.
Local Open Scope float_scope.

(** A series that rises strictly from bar to bar, in highs, in lows and in
    dates. *)
Definition rising (prices : list HistoricalPrice) : Prop :=
  forall i j bi bj, (i < j)%nat ->
    nth_error prices i = Some bi -> nth_error prices j = Some bj ->
    (high bi <? high bj) = true /\ (low bi <? low bj) = true /\
    String.ltb (date bi) (date bj) = true.

(** The price of the level of a given ratio, if there is one. *)
Definition priceAt (r : number) (levels : list FibLevel) : option number :=
  option_map price (find (fun l => ratio l =? r) levels).

Lemma rising_firstMinLow (prices : list HistoricalPrice) (b : HistoricalPrice) :
  Forall finiteBar prices -> rising prices ->
  nth_error prices 0 = Some b -> firstMinLow prices 0 b.
Proof.
  intros Hfin Hr E. split; [exact E|]. split; [|lia].
  intros k bk Ek. destruct k as [|k].
  - assert (bk = b) as -> by congruence.
    apply leb_refl, finite_ordered.
    rewrite Forall_forall in Hfin. apply (Hfin b). eapply nth_error_In, E.
  - apply ltb_leb. apply (Hr 0%nat (S k) b bk); [lia|assumption..].
Qed.

Lemma rising_firstMaxHigh (prices : list HistoricalPrice) (n : nat)
    (b : HistoricalPrice) :
  Forall finiteBar prices -> rising prices -> List.length prices = S n ->
  nth_error prices n = Some b -> firstMaxHigh prices n b.
Proof.
  intros Hfin Hr Hlen E. split; [exact E|]. split.
  - intros k bk Ek.
    assert (Hk : (k < S n)%nat)
      by (rewrite <- Hlen; apply nth_error_Some; congruence).
    destruct (Nat.eq_dec k n) as [->|Hne].
    + assert (bk = b) as -> by congruence.
      apply leb_refl, finite_ordered.
      rewrite Forall_forall in Hfin. apply (Hfin b). eapply nth_error_In, E.
    + apply ltb_leb. apply (Hr k n bk b); [lia|assumption..].
  - intros k bk Hk Ek. apply (Hr k n bk b); assumption.
Qed.

(** Claim C3. For a strictly rising 130-bar series going from 100.00 (the
    low of day 1, the swing low) to 200.00 (the high of day 130, the swing
    high) and [currentPrice = 180.00], [analyzeTicker] reports an uptrend,
    the Golden Zone (0.618) level at 138.20, the shallow (0.236) level at
    176.40, and the favorable signal. *)
Theorem analyzeTicker_rising_scenario (prices : list HistoricalPrice)
    (first last : HistoricalPrice) :
  Forall finiteBar prices -> rising prices ->
  List.length prices = 130%nat ->
  nth_error prices 0 = Some first -> low first = 100 ->
  nth_error prices 129 = Some last -> high last = 200 ->
  exists r,
    analyzeTicker prices 180 = Ok r /\
    trend r = uptrend /\
    fl_low r = pointLow first /\ fl_high r = pointHigh last /\
    priceAt 0.618 (levels r) = Some 138.2 /\
    priceAt 0.236 (levels r) = Some 176.4 /\
    signal r = success.
Proof.
  intros Hfin Hr Hlen E1 Hlow E130 Hhigh.
  assert (Hne : prices <> []) by (intros ->; discriminate).
  destruct (scan_extrema prices Hne Hfin) as (i & hi & j & lo & E & Hhi & Hlo).
  destruct (firstMaxHigh_unique _ _ _ _ _ Hhi
              (rising_firstMaxHigh prices 129 last Hfin Hr Hlen E130)) as [_ ->].
  destruct (firstMinLow_unique _ _ _ _ _ Hlo
              (rising_firstMinLow prices first Hfin Hr E1)) as [_ ->].
  assert (Hd : String.ltb (date first) (date last) = true)
    by (apply (Hr 0%nat 129%nat first last); [lia|assumption..]).
  unfold analyzeTicker.
  destruct prices as [|b0 rest]; [congruence|].
  cbn [detectSwingPoints bind]. rewrite E.
  unfold detectTrend. cbn [swingHigh swingLow pointHigh pointLow sp_date sp_price].
  rewrite Hd, Hlow, Hhigh.
  eexists. split; [vm_compute; reflexivity|].
  repeat split; vm_compute; reflexivity.
Qed.

(** A check that decides [rising] on a concrete series. *)
Fixpoint risingb (prices : list HistoricalPrice) : bool :=
  match prices with
  | [] => true
  | b :: rest =>
      forallb (fun b' => (high b <? high b') && (low b <? low b')
                         && String.ltb (date b) (date b')) rest
      && risingb rest
  end.

Lemma risingb_sound (prices : list HistoricalPrice) :
  risingb prices = true -> rising prices.
Proof.
  induction prices as [|b rest IH]; intros H i j bi bj Hij Ei Ej.
  - destruct i; discriminate.
  - cbn [risingb] in H. apply andb_true_iff in H as [H1 H2].
    destruct j as [|j]; [lia|]. cbn [nth_error] in Ej.
    destruct i as [|i].
    + cbn [nth_error] in Ei. assert (bi = b) as -> by congruence.
      rewrite forallb_forall in H1.
      specialize (H1 bj (nth_error_In _ _ Ej)).
      apply andb_true_iff in H1 as [H1 H3].
      apply andb_true_iff in H1 as [H1 H4]. auto.
    + cbn [nth_error] in Ei. apply (IH H2 i j); [lia|assumption..].
Qed.

Lemma finiteBars_sound (prices : list HistoricalPrice) :
  forallb (fun b => is_finite (high b) && is_finite (low b)) prices = true ->
  Forall finiteBar prices.
Proof.
  rewrite forallb_forall, Forall_forall. intros H b Hb.
  specialize (H b Hb). apply andb_true_iff in H. exact H.
Qed.

Lemma analyzeTicker_rising_scenario_witness :
  exists r,
    analyzeTicker Samples.risingBars 180 = Ok r /\
    trend r = uptrend /\
    fl_low r = pointLow (Samples.risingBar 0) /\
    fl_high r = pointHigh (Samples.risingBar 129) /\
    priceAt 0.618 (levels r) = Some 138.2 /\
    priceAt 0.236 (levels r) = Some 176.4 /\
    signal r = success.
Proof.
  apply (analyzeTicker_rising_scenario Samples.risingBars
           (Samples.risingBar 0) (Samples.risingBar 129)).
  - apply finiteBars_sound. vm_compute. reflexivity.
  - apply risingb_sound. vm_compute. reflexivity.
  - reflexivity.
  - reflexivity.
  - vm_compute. reflexivity.
  - reflexivity.
  - vm_compute. reflexivity.
Defined.

End Scenario.

(** ** Binary64 rounding

    The operations of [SpecFloat] round an exact result to the nearest
    number of the format, ties to even. This part derives, from their
    definitions, what the proofs about level prices need: rounding is
    monotone, it keeps a number of the format, and it is bounded by the
    numbers of the format around the exact result. Exact non-negative reals
    are held as integers on a fixed scale. *)

Module Binary64.

Local Open Scope Z_scope.

(** Bit length. *)
Lemma digits2_pos_bounds (p : positive) :
  2 ^ (Zpos (digits2_pos p) - 1) <= Zpos p < 2 ^ Zpos (digits2_pos p).
Proof.
  induction p as [p IH|p IH|]; cbn [digits2_pos].
  - rewrite Pos2Z.inj_succ, Z.pow_succ_r by lia.
    replace (Z.succ (Zpos (digits2_pos p)) - 1) with (Z.succ (Zpos (digits2_pos p) - 1)) by lia.
    rewrite Z.pow_succ_r by lia. lia.
  - rewrite Pos2Z.inj_succ, Z.pow_succ_r by lia.
    replace (Z.succ (Zpos (digits2_pos p)) - 1) with (Z.succ (Zpos (digits2_pos p) - 1)) by lia.
    rewrite Z.pow_succ_r by lia. lia.
  - cbn. lia.
Qed.

(** The scale: a real [x] is held as the integer [X = x * W * 2^C]. *)
Definition C : Z := 2200.

(** Half a unit in the last place at exponent [e], on the scale. *)
Definition hu (W e : Z) : Z := W * 2 ^ (e - 1 + C).

Lemma hu_pos (W e : Z) : 0 < W -> 1 - C <= e -> 0 < hu W e.
Proof.
  intros HW He. unfold hu. apply Z.mul_pos_pos; [assumption|].
  apply Z.pow_pos_nonneg; lia.
Qed.

Lemma hu_add (W e k : Z) : 1 - C <= e -> 0 <= k -> hu W (e + k) = 2 ^ k * hu W e.
Proof.
  intros He Hk. unfold hu.
  replace (e + k - 1 + C) with ((e - 1 + C) + k) by lia.
  rewrite Z.pow_add_r by lia. ring.
Qed.

Lemma hu_succ (W e : Z) : 1 - C <= e -> hu W (e + 1) = 2 * hu W e.
Proof. intros He. rewrite hu_add by lia. reflexivity. Qed.

Lemma hu_add_le (W e1 e2 : Z) :
  0 < W -> 1 - C <= e1 <= e2 -> 2 ^ (e2 - e1) * hu W e1 = hu W e2.
Proof.
  intros HW He. replace e2 with (e1 + (e2 - e1)) at 2 by lia.
  symmetry. apply hu_add; lia.
Qed.

(** [x] lies in the unit interval above [m * 2^e], where the location says. *)
Definition inbetween (W X m e : Z) (l : location) : Prop :=
  match l with
  | loc_Exact => X = 2 * m * hu W e
  | loc_Inexact Lt => 2 * m * hu W e < X < (2 * m + 1) * hu W e
  | loc_Inexact Eq => X = (2 * m + 1) * hu W e
  | loc_Inexact Gt => (2 * m + 1) * hu W e < X < (2 * m + 2) * hu W e
  end.

Lemma shr_1_inbetween (W X e : Z) (mrs : shr_record) :
  0 < W -> 1 - C <= e -> 0 <= shr_m mrs ->
  inbetween W X (shr_m mrs) e (loc_of_shr_record mrs) ->
  inbetween W X (shr_m (shr_1 mrs)) (e + 1) (loc_of_shr_record (shr_1 mrs)) /\
  0 <= shr_m (shr_1 mrs).
Proof.
  intros HW He Hm.
  pose proof (hu_pos W e HW He) as Hh. pose proof (hu_succ W e He) as Hs.
  destruct mrs as [m r s]. cbn [shr_m] in *.
  destruct m as [|[p|p|]|p]; try lia; destruct r, s;
    cbn [shr_1 shr_m loc_of_shr_record inbetween orb]; rewrite Hs;
    intros H; split; lia.
Qed.

Lemma iter_pos_invariant {A} (f : A -> A) (P : A -> Z -> Prop) :
  (forall a e, P a e -> P (f a) (e + 1)) ->
  forall p a e, P a e -> P (iter_pos f p a) (e + Zpos p).
Proof.
  intros Hf. induction p as [p IH|p IH|]; intros a e H; cbn [iter_pos].
  - replace (e + Zpos p~1) with (e + 1 + Zpos p + Zpos p) by lia.
    apply IH, IH, Hf, H.
  - replace (e + Zpos p~0) with (e + Zpos p + Zpos p) by lia.
    apply IH, IH, H.
  - apply Hf, H.
Qed.

Lemma shr_inbetween (W X e n : Z) (mrs : shr_record) :
  0 < W -> 1 - C <= e -> 0 <= shr_m mrs ->
  inbetween W X (shr_m mrs) e (loc_of_shr_record mrs) ->
  inbetween W X (shr_m (fst (shr mrs e n))) (snd (shr mrs e n))
    (loc_of_shr_record (fst (shr mrs e n))) /\
  0 <= shr_m (fst (shr mrs e n)) /\
  snd (shr mrs e n) = e + Z.max n 0.
Proof.
  intros HW He Hm H. destruct n as [|p|p]; cbn [shr fst snd].
  - rewrite Z.add_0_r. auto.
  - replace (Z.max (Zpos p) 0) with (Zpos p) by lia.
    pose proof (iter_pos_invariant shr_1
      (fun mrs e => 1 - C <= e /\ 0 <= shr_m mrs /\
                    inbetween W X (shr_m mrs) e (loc_of_shr_record mrs))) as K.
    cbv beta in K.
    destruct (K (fun a e0 '(conj A1 (conj A2 A3)) =>
                   let '(conj B1 B2) := shr_1_inbetween W X e0 a HW A1 A2 A3 in
                   conj (ltac:(lia) : 1 - C <= e0 + 1) (conj B2 B1))
                p mrs e (conj He (conj Hm H))) as (_ & K2 & K3).
    auto.
  - rewrite Z.add_0_r. auto.
Qed.

(** Arithmetic of scaled bounds, stated on plain integers. *)
Lemma scaled_lt (X a b h : Z) :
  0 < h -> X < a * h -> a <= b -> X < b * h.
Proof.
  intros Hh H1 H2.
  assert (a * h <= b * h) by (apply Z.mul_le_mono_nonneg_r; lia). lia.
Qed.

Lemma scaled_le (X a b h : Z) :
  0 < h -> a * h <= X -> b <= a -> b * h <= X.
Proof.
  intros Hh H1 H2.
  assert (b * h <= a * h) by (apply Z.mul_le_mono_nonneg_r; lia). lia.
Qed.

Lemma scaled_cancel_le (a b h : Z) : 0 < h -> a * h <= b * h -> a <= b.
Proof. intros Hh H. apply Z.mul_le_mono_pos_r in H; assumption. Qed.

Lemma scaled_cancel_lt (a b h : Z) : 0 < h -> a * h < b * h -> a < b.
Proof. intros Hh H. apply Z.mul_lt_mono_pos_r in H; assumption. Qed.

Lemma fexp64 (k : Z) : fexp prec emax k = Z.max (k - 53) (-1074).
Proof. reflexivity. Qed.

Lemma shr_record_of_loc_m (m : Z) (l : location) :
  shr_m (shr_record_of_loc m l) = m.
Proof. destruct l as [|[]]; reflexivity. Qed.

Lemma loc_of_shr_record_of_loc (m : Z) (l : location) :
  loc_of_shr_record (shr_record_of_loc m l) = l.
Proof. destruct l as [|[]]; reflexivity. Qed.

(** [m * 2^e] is the rounding to nearest, ties to even, of the positive
    real [x] in the format: [e] is the exponent of the binade of [x] (or the
    least exponent), and [m] the integer nearest to [x / 2^e]. *)
Definition rounds_to (W X m e : Z) : Prop :=
  -1074 <= e /\
  X < 2 ^ 54 * hu W e /\
  (-1074 < e -> 2 ^ 53 * hu W e <= X) /\
  (2 * m - 1) * hu W e <= X <= (2 * m + 1) * hu W e /\
  (X = (2 * m - 1) * hu W e \/ X = (2 * m + 1) * hu W e -> Z.even m = true).

(** The number [m * 2^e] as a binary64 value, once [m] fits in 53 bits. *)
Definition finish (m e : Z) : spec_float :=
  let '(m', e') := if m =? 2 ^ 53 then (2 ^ 52, e + 1) else (m, e) in
  match m' with
  | Z0 => S754_zero false
  | Zpos p => if e' <=? 971 then S754_finite false p e' else S754_infinity false
  | Zneg _ => S754_nan
  end.

Lemma inbetween_bounds (W X m e : Z) (l : location) :
  0 < W -> 1 - C <= e -> inbetween W X m e l ->
  2 * m * hu W e <= X < (2 * m + 2) * hu W e.
Proof.
  intros HW He. pose proof (hu_pos W e HW He).
  destruct l as [|[]]; cbn [inbetween]; lia.
Qed.

Lemma round_nearest_even_spec (W X m e : Z) (l : location) :
  0 < W -> 1 - C <= e -> inbetween W X m e l ->
  let m1 := round_nearest_even m l in
  (m1 = m \/ m1 = m + 1) /\
  (2 * m1 - 1) * hu W e <= X <= (2 * m1 + 1) * hu W e /\
  (X = (2 * m1 - 1) * hu W e \/ X = (2 * m1 + 1) * hu W e -> Z.even m1 = true).
Proof.
  intros HW He. pose proof (hu_pos W e HW He).
  destruct l as [|[]]; cbn [inbetween round_nearest_even]; intros Hin.
  - split; [auto|]. split; [lia|]. intros [E|E]; lia.
  - destruct (Z.even m) eqn:Hev.
    + split; [auto|]. split; [lia|]. intros _. exact Hev.
    + split; [auto|]. split; [lia|]. intros _.
      rewrite Z.even_add, Hev. reflexivity.
  - split; [auto|]. split; [lia|]. intros [E|E]; lia.
  - split; [auto|]. split; [lia|]. intros [E|E]; lia.
Qed.

Lemma pow2_le (a b : Z) : 0 <= a <= b -> 2 ^ a <= 2 ^ b.
Proof. intros. apply Z.pow_le_mono_r; lia. Qed.

Lemma pow2_pos (a : Z) : 0 <= a -> 0 < 2 ^ a.
Proof. intros. apply Z.pow_pos_nonneg; lia. Qed.

Lemma binary_round_aux_spec (W X mx ex : Z) (lx : location) :
  0 < W -> 0 < mx -> 1 - C <= ex ->
  inbetween W X mx ex lx ->
  ex <= fexp prec emax (Zdigits2 mx + ex) ->
  exists m e, rounds_to W X m e /\
    binary_round_aux prec emax false mx ex lx = finish m e.
Proof.
  intros HW Hmx Hex Hin Hprec.
  unfold binary_round_aux, shr_fexp.
  set (d := Zdigits2 mx) in *.
  set (e1 := fexp prec emax (d + ex)) in *.
  assert (Hd : 2 ^ (d - 1) <= mx < 2 ^ d /\ 0 < d).
  { destruct mx as [|p|p]; try lia. subst d. cbn [Zdigits2].
    split; [apply digits2_pos_bounds|lia]. }
  destruct Hd as [Hd Hd0].
  assert (He1 : e1 = Z.max (d + ex - 53) (-1074)) by (subst e1; apply fexp64).
  pose proof (shr_inbetween W X ex (e1 - ex) (shr_record_of_loc mx lx) HW Hex) as Hs.
  rewrite shr_record_of_loc_m, loc_of_shr_record_of_loc in Hs.
  specialize (Hs ltac:(lia) Hin).
  destruct (shr (shr_record_of_loc mx lx) ex (e1 - ex)) as [mrs' e'].
  cbn [fst snd] in Hs. destruct Hs as (Hin' & Hm' & He').
  assert (Ee : e' = e1) by lia. clear He'. subst e'.
  set (m' := shr_m mrs') in *. set (l' := loc_of_shr_record mrs') in *.
  assert (He1C : 1 - C <= e1) by (unfold C; lia).
  pose proof (round_nearest_even_spec W X m' e1 l' HW He1C Hin') as (Hm1 & Hr1 & Ht1).
  set (m1 := round_nearest_even m' l') in *.
  pose proof (hu_pos W ex HW Hex) as Hhx.
  pose proof (hu_pos W e1 HW He1C) as Hh1.
  pose proof (inbetween_bounds W X mx ex lx HW Hex Hin) as Hbx.
  assert (Hhu : hu W e1 = 2 ^ (e1 - ex) * hu W ex).
  { replace e1 with (ex + (e1 - ex)) at 1 by lia. apply hu_add; lia. }
  assert (Hup : X < 2 ^ 54 * hu W e1).
  { rewrite Hhu, Z.mul_assoc, <- Z.pow_add_r by lia.
    assert (Hp : 2 ^ (d + 1) <= 2 ^ (54 + (e1 - ex))) by (apply pow2_le; lia).
    rewrite Z.pow_add_r in Hp by lia. change (2 ^ 1) with 2 in Hp.
    apply (scaled_lt X (2 * mx + 2)); [assumption|lia|lia]. }
  assert (Hlo : -1074 < e1 -> 2 ^ 53 * hu W e1 <= X).
  { intros Hn. rewrite Hhu, Z.mul_assoc, <- Z.pow_add_r by lia.
    replace (53 + (e1 - ex)) with ((d - 1) + 1) by lia.
    rewrite Z.pow_add_r by lia. change (2 ^ 1) with 2.
    apply (scaled_le X (2 * mx)); [assumption|lia|lia]. }
  assert (Hrt : rounds_to W X m1 e1).
  { split; [lia|]. split; [exact Hup|]. split; [exact Hlo|]. split; assumption. }
  exists m1, e1. split; [exact Hrt|].
  assert (Hm1r : 0 <= m1 <= 2 ^ 53).
  { split; [lia|]. change (2 ^ 54) with (2 * 2 ^ 53) in Hup.
    assert (Hc : (2 * m1 - 1) * hu W e1 < (2 * 2 ^ 53) * hu W e1) by lia.
    apply scaled_cancel_lt in Hc; [lia|assumption]. }
  unfold finish.
  destruct (Z.eqb_spec m1 (2 ^ 53)) as [E53|N53].
  - rewrite E53. change (Zdigits2 (2 ^ 53)) with 54.
    rewrite fexp64.
    replace (Z.max (54 + e1 - 53) (-1074) - e1) with 1 by lia.
    cbn -[Z.leb]. change (emax - prec) with 971. reflexivity.
  - destruct m1 as [|q|q]; try lia.
    + cbn [Zdigits2 shr_record_of_loc]. rewrite fexp64.
      destruct (Z.max (0 + e1 - 53) (-1074) - e1) eqn:En;
        try lia; cbn [shr shr_m]; reflexivity.
    + assert (Hq : Zpos (digits2_pos q) <= 53).
      { pose proof (digits2_pos_bounds q) as [Hq _].
        destruct (Z_le_gt_dec (Zpos (digits2_pos q)) 53) as [|Hgt]; [assumption|].
        assert (2 ^ 53 <= 2 ^ (Zpos (digits2_pos q) - 1)) by (apply pow2_le; lia).
        lia. }
      cbn [Zdigits2]. rewrite fexp64.
      destruct (Z.max (Zpos (digits2_pos q) + e1 - 53) (-1074) - e1) eqn:En;
        try lia; cbn [shr shr_record_of_loc shr_m];
        change (emax - prec) with 971; reflexivity.
Qed.

(** The value of a non-negative finite binary64 number, on the scale. *)
Definition sval (W : Z) (f : spec_float) : Z :=
  match f with
  | S754_finite false m e => 2 * Zpos m * hu W e
  | _ => 0
  end.

(** Zero, or a positive finite number in canonical form. *)
Definition nnf (f : spec_float) : Prop :=
  match f with
  | S754_zero _ => True
  | S754_finite false m e => bounded prec emax m e = true
  | _ => False
  end.

Lemma digits2_pos_unique (p : positive) (k : Z) :
  2 ^ (k - 1) <= Zpos p < 2 ^ k -> Zpos (digits2_pos p) = k.
Proof.
  intros [H1 H2]. pose proof (digits2_pos_bounds p) as [H3 H4].
  set (d := Zpos (digits2_pos p)) in *.
  assert (0 < k).
  { destruct (Z_lt_le_dec 0 k); [assumption|].
    assert (2 ^ k <= 1).
    { destruct (Z.eq_dec k 0) as [->|]; [cbn; lia|].
      rewrite Z.pow_neg_r by lia. lia. }
    lia. }
  destruct (Z_lt_le_dec d k) as [Hlt|Hge].
  - assert (2 ^ d <= 2 ^ (k - 1)) by (apply pow2_le; lia). lia.
  - destruct (Z_lt_le_dec k d) as [Hlt|Hge']; [|lia].
    assert (2 ^ k <= 2 ^ (d - 1)) by (apply pow2_le; lia). lia.
Qed.

Lemma bounded_spec (m : positive) (e : Z) :
  bounded prec emax m e = true <->
  -1074 <= e <= 971 /\ Zpos m < 2 ^ 53 /\ (-1074 < e -> 2 ^ 52 <= Zpos m).
Proof.
  unfold bounded, canonical_mantissa. rewrite andb_true_iff, Z.eqb_eq, Z.leb_le.
  rewrite fexp64. change (emax - prec) with 971.
  pose proof (digits2_pos_bounds m) as [H1 H2].
  set (d := Zpos (digits2_pos m)) in *.
  assert (Hd0 : 0 < d) by (subst d; lia).
  split.
  - intros [Hc He].
    assert (Hd : d <= 53) by lia.
    split; [lia|]. split.
    + assert (2 ^ d <= 2 ^ 53) by (apply pow2_le; lia). lia.
    + intros Hn. assert (d = 53) by lia.
      replace (d - 1) with 52 in H1 by lia. exact H1.
  - intros (He & Hm & Hn). split; [|lia].
    assert (Hd : d <= 53).
    { destruct (Z_le_gt_dec d 53); [assumption|].
      assert (2 ^ 53 <= 2 ^ (d - 1)) by (apply pow2_le; lia). lia. }
    destruct (Z.eq_dec e (-1074)) as [->|Hne]; [lia|].
    assert (2 ^ 52 <= Zpos m) by (apply Hn; lia).
    assert (d = 53).
    { destruct (Z_le_gt_dec 53 d); [lia|].
      assert (2 ^ d <= 2 ^ 52) by (apply pow2_le; lia). lia. }
    lia.
Qed.

Lemma rounds_to_range (W X m e : Z) :
  0 < W -> 0 <= X -> rounds_to W X m e ->
  0 <= m <= 2 ^ 53 /\ (-1074 < e -> 2 ^ 52 <= m) /\ 1 - C <= e /\ 0 < hu W e.
Proof.
  intros HW HX (He & Hup & Hlo & Hr & _).
  assert (HeC : 1 - C <= e) by (unfold C; lia).
  pose proof (hu_pos W e HW HeC) as Hh.
  change (2 ^ 54) with (2 * 2 ^ 53) in Hup. change (2 ^ 53) with (2 * 2 ^ 52) in Hlo.
  repeat split; try assumption; try nia.
Qed.

(** What [finish] yields: infinity on overflow, else a number of the format
    with the value [m * 2^e]. *)
Lemma finish_spec (W X m e : Z) :
  0 < W -> 0 <= X -> rounds_to W X m e ->
  finish m e = S754_infinity false \/
  (nnf (finish m e) /\ sval W (finish m e) = 2 * m * hu W e).
Proof.
  intros HW HX Hrt.
  pose proof (rounds_to_range W X m e HW HX Hrt) as (Hm & Hn & HeC & Hh).
  destruct Hrt as (He & _).
  unfold finish. destruct (Z.eqb_spec m (2 ^ 53)) as [->|N53].
  - change (2 ^ 52) with (Zpos 4503599627370496).
    destruct (Z.leb_spec (e + 1) 971); [right|now left].
    split.
    + cbn [nnf]. apply bounded_spec.
      change (Zpos 4503599627370496) with (2 ^ 52). split; [lia|]. split; lia.
    + cbn [sval]. rewrite hu_succ by assumption.
      change (Zpos 4503599627370496) with (2 ^ 52).
      change (2 ^ 53) with (2 * 2 ^ 52). ring.
  - destruct m as [|p|p]; try lia.
    + right. split; [exact I|]. cbn [sval]. ring.
    + destruct (Z.leb_spec e 971); [right|now left].
      split; [|reflexivity].
      cbn [nnf]. apply bounded_spec. split; [lia|]. split; [lia|exact Hn].
Qed.

(** A number of the format rounds to itself. *)
Lemma rounds_to_self (W : Z) (m : positive) (e : Z) :
  0 < W -> bounded prec emax m e = true ->
  rounds_to W (2 * Zpos m * hu W e) (Zpos m) e /\
  finish (Zpos m) e = S754_finite false m e.
Proof.
  intros HW Hb. apply bounded_spec in Hb as (He & Hm & Hn).
  assert (HeC : 1 - C <= e) by (unfold C; lia).
  pose proof (hu_pos W e HW HeC) as Hh.
  split.
  - split; [lia|]. split; [|split; [|split]].
    + change (2 ^ 54) with (2 * 2 ^ 53). nia.
    + intros Hn'. specialize (Hn Hn'). change (2 ^ 53) with (2 * 2 ^ 52). nia.
    + nia.
    + intros [E|E]; nia.
  - unfold finish. destruct (Z.eqb_spec (Zpos m) (2 ^ 53)); [lia|].
    destruct (Z.leb_spec e 971); [reflexivity|lia].
Qed.

(** Rounding is monotone. *)
Lemma rounds_to_mono (W X1 m1 e1 X2 m2 e2 : Z) :
  0 < W -> 0 <= X1 <= X2 ->
  rounds_to W X1 m1 e1 -> rounds_to W X2 m2 e2 ->
  e1 <= e2 /\ m1 * hu W e1 <= m2 * hu W e2.
Proof.
  intros HW HX H1 H2.
  pose proof (rounds_to_range W X1 m1 e1 HW ltac:(lia) H1) as (Hm1 & Hn1 & HC1 & Hh1).
  pose proof (rounds_to_range W X2 m2 e2 HW ltac:(lia) H2) as (Hm2 & Hn2 & HC2 & Hh2).
  destruct H1 as (He1 & Hup1 & Hlo1 & Hr1 & Ht1).
  destruct H2 as (He2 & Hup2 & Hlo2 & Hr2 & Ht2).
  assert (Hle : e1 <= e2).
  { destruct (Z_le_gt_dec e1 e2) as [|Hgt]; [assumption|exfalso].
    specialize (Hlo1 ltac:(lia)).
    assert (Hk : hu W e1 = 2 ^ (e1 - e2) * hu W e2).
    { replace e1 with (e2 + (e1 - e2)) at 1 by lia. apply hu_add; lia. }
    assert (Hp : 2 ^ 1 <= 2 ^ (e1 - e2)) by (apply pow2_le; lia).
    change (2 ^ 1) with 2 in Hp. change (2 ^ 54) with (2 * 2 ^ 53) in Hup2.
    rewrite Hk, Z.mul_assoc in Hlo1.
    assert (Hc : (2 ^ 53 * 2 ^ (e1 - e2)) * hu W e2 < (2 * 2 ^ 53) * hu W e2) by lia.
    apply scaled_cancel_lt in Hc; [|assumption].
    assert (2 ^ 53 * 2 <= 2 ^ 53 * 2 ^ (e1 - e2))
      by (apply Z.mul_le_mono_nonneg_l; [reflexivity || discriminate|assumption]).
    lia. }
  split; [exact Hle|].
  destruct (Z.eq_dec e1 e2) as [->|Hne].
  - assert (Hc : (2 * m1 - 1) * hu W e2 <= (2 * m2 + 1) * hu W e2) by lia.
    apply scaled_cancel_le in Hc; [|assumption].
    assert (Hm : m1 <= m2).
    { destruct (Z_le_gt_dec m1 m2) as [|Hgt]; [assumption|exfalso].
      assert (m1 = m2 + 1) by lia. subst m1.
      replace (2 * (m2 + 1) - 1) with (2 * m2 + 1) in * by lia.
      assert (E1 : X1 = (2 * m2 + 1) * hu W e2) by lia.
      assert (E2 : X2 = (2 * m2 + 1) * hu W e2) by lia.
      specialize (Ht1 (or_introl E1)). specialize (Ht2 (or_intror E2)).
      rewrite Z.even_add, Ht2 in Ht1. discriminate. }
    apply Z.mul_le_mono_nonneg_r; lia.
  - specialize (Hn2 ltac:(lia)).
    rewrite <- (hu_add_le W e1 e2 HW ltac:(lia)).
    assert (Hp : 2 ^ 1 <= 2 ^ (e2 - e1)) by (apply pow2_le; lia).
    change (2 ^ 1) with 2 in Hp.
    assert (Ha : m1 * hu W e1 <= (2 * 2 ^ 52) * hu W e1)
      by (apply Z.mul_le_mono_nonneg_r; [lia|exact (proj2 Hm1)]).
    assert (Hb : 2 ^ 52 * 2 <= m2 * 2 ^ (e2 - e1))
      by (apply Z.mul_le_mono_nonneg; [discriminate|assumption|lia|assumption]).
    assert (Hd : (2 ^ 52 * 2) * hu W e1 <= (m2 * 2 ^ (e2 - e1)) * hu W e1)
      by (apply Z.mul_le_mono_nonneg_r; lia).
    lia.
Qed.

Lemma hu_le (W e1 e2 : Z) :
  0 < W -> 1 - C <= e1 <= e2 -> 2 ^ (e2 - e1) * hu W e1 = hu W e2.
Proof.
  intros HW He. replace e2 with (e1 + (e2 - e1)) at 2 by lia.
  symmetry. apply hu_add; lia.
Qed.

(** Overflow is decided by the value. *)
Lemma finish_infinity (W X m e : Z) :
  0 < W -> 0 <= X -> rounds_to W X m e ->
  finish m e = S754_infinity false <-> 2 ^ 53 * hu W 971 <= m * hu W e.
Proof.
  intros HW HX Hrt.
  pose proof (rounds_to_range W X m e HW HX Hrt) as (Hm & Hn & HeC & Hh).
  destruct Hrt as (He & _).
  assert (H971 : 0 < hu W 971) by (apply hu_pos; unfold C; lia).
  assert (P52 : 0 < 2 ^ 52) by reflexivity.
  assert (E53 : 2 ^ 53 = 2 * 2 ^ 52) by reflexivity.
  destruct (Z_le_gt_dec e 971) as [Hle|Hgt].
  - pose proof (hu_le W e 971 HW ltac:(lia)) as Hk.
    assert (Hp : 1 <= 2 ^ (971 - e)) by (apply (pow2_le 0); lia).
    unfold finish. destruct (Z.eqb_spec m (2 ^ 53)) as [->|N53].
    + change (2 ^ 52) with (Zpos 4503599627370496).
      destruct (Z.leb_spec (e + 1) 971) as [Hl|Hl].
      * split; [discriminate|]. intros H.
        assert (Hp2 : 2 ^ 1 <= 2 ^ (971 - e)) by (apply pow2_le; lia).
        change (2 ^ 1) with 2 in Hp2. nia.
      * split; [|reflexivity]. intros _. assert (e = 971) by lia. subst e. lia.
    + destruct m as [|p|p]; try lia.
      * split; [discriminate|]. intros H. nia.
      * destruct (Z.leb_spec e 971); [|lia].
        split; [discriminate|]. intros H'. nia.
  - specialize (Hn ltac:(lia)).
    pose proof (hu_le W 971 e HW ltac:(unfold C; lia)) as Hk.
    assert (Hp2 : 2 ^ 1 <= 2 ^ (e - 971)) by (apply pow2_le; lia).
    change (2 ^ 1) with 2 in Hp2.
    split; [intros _; nia|intros _].
    unfold finish. destruct (Z.eqb_spec m (2 ^ 53)) as [->|N53].
    + change (2 ^ 52) with (Zpos 4503599627370496).
      destruct (Z.leb_spec (e + 1) 971); [lia|reflexivity].
    + destruct m as [|p|p]; try lia.
      destruct (Z.leb_spec e 971); [lia|reflexivity].
Qed.

(** The comparisons of numbers of the format are those of their values. *)
Lemma nnf_compare (W : Z) (a b : spec_float) :
  0 < W -> nnf a -> nnf b ->
  SFcompare a b = Some (sval W a ?= sval W b).
Proof.
  intros HW Ha Hb.
  destruct a as [sa|sa| |[] ma ea], b as [sb|sb| |[] mb eb];
    cbn [nnf] in *; try contradiction.
  - reflexivity.
  - apply bounded_spec in Hb as (He & _).
    pose proof (hu_pos W eb HW ltac:(unfold C; lia)).
    cbn [SFcompare sval]. symmetry. f_equal. apply Z.compare_lt_iff. nia.
  - apply bounded_spec in Ha as (He & _).
    pose proof (hu_pos W ea HW ltac:(unfold C; lia)).
    cbn [SFcompare sval]. symmetry. f_equal. apply Z.compare_gt_iff. nia.
  - apply bounded_spec in Ha as (Hea & Hma & Hna).
    apply bounded_spec in Hb as (Heb & Hmb & Hnb).
    pose proof (hu_pos W ea HW ltac:(unfold C; lia)) as Hha.
    pose proof (hu_pos W eb HW ltac:(unfold C; lia)) as Hhb.
    assert (E53 : 2 ^ 53 = 2 * 2 ^ 52) by reflexivity.
    cbn [SFcompare sval]. f_equal. symmetry.
    destruct (Z.compare_spec ea eb) as [->|Hlt|Hgt].
    + change (Pos.compare_cont Eq ma mb) with (Zpos ma ?= Zpos mb).
      destruct (Z.compare_spec (Zpos ma) (Zpos mb)) as [E|E|E].
      * apply Z.compare_eq_iff. rewrite E. reflexivity.
      * apply Z.compare_lt_iff. nia.
      * apply Z.compare_gt_iff. nia.
    + apply Z.compare_lt_iff. specialize (Hnb ltac:(lia)).
      pose proof (hu_le W ea eb HW ltac:(unfold C; lia)) as Hk.
      assert (Hp2 : 2 ^ 1 <= 2 ^ (eb - ea)) by (apply pow2_le; lia).
      change (2 ^ 1) with 2 in Hp2. nia.
    + apply Z.compare_gt_iff. specialize (Hna ltac:(lia)).
      pose proof (hu_le W eb ea HW ltac:(unfold C; lia)) as Hk.
      assert (Hp2 : 2 ^ 1 <= 2 ^ (ea - eb)) by (apply pow2_le; lia).
      change (2 ^ 1) with 2 in Hp2. nia.
Qed.

Lemma nnf_leb (W : Z) (a b : spec_float) :
  0 < W -> nnf a -> nnf b -> SFleb a b = true <-> sval W a <= sval W b.
Proof.
  intros HW Ha Hb. unfold SFleb. rewrite (nnf_compare W a b HW Ha Hb).
  destruct (Z.compare_spec (sval W a) (sval W b)); split; intros; try lia;
    try reflexivity; discriminate.
Qed.

Lemma nnf_ltb (W : Z) (a b : spec_float) :
  0 < W -> nnf a -> nnf b -> SFltb a b = true <-> sval W a < sval W b.
Proof.
  intros HW Ha Hb. unfold SFltb. rewrite (nnf_compare W a b HW Ha Hb).
  destruct (Z.compare_spec (sval W a) (sval W b)); split; intros; try lia;
    try reflexivity; discriminate.
Qed.

Lemma nnf_leb_infinity (a : spec_float) :
  nnf a -> SFleb a (S754_infinity false) = true.
Proof. destruct a as [s|s| |[] m e]; cbn; intros H; try contradiction; reflexivity. Qed.

(** [f] is the rounding of the non-negative real [x]. *)
Definition rounded (W X : Z) (f : spec_float) : Prop :=
  (X = 0 /\ exists s, f = S754_zero s) \/
  (0 < X /\ exists m e, rounds_to W X m e /\ f = finish m e).

Lemma rounded_self (W : Z) (f : spec_float) :
  0 < W -> nnf f -> rounded W (sval W f) f.
Proof.
  intros HW Hf. destruct f as [s|s| |[] m e]; cbn [nnf] in Hf; try contradiction.
  - left. split; [reflexivity|eauto].
  - right. destruct (rounds_to_self W m e HW Hf) as [H1 H2].
    pose proof Hf as Hb. apply bounded_spec in Hb as (He & _).
    pose proof (hu_pos W e HW ltac:(unfold C; lia)).
    split; [cbn [sval]; nia|]. exists (Zpos m), e. split; [exact H1|now rewrite H2].
Qed.

Lemma rounded_cases (W X : Z) (f : spec_float) :
  0 < W -> rounded W X f -> f = S754_infinity false \/ nnf f.
Proof.
  intros HW [[_ [s ->]]|(HX & m & e & Hrt & ->)]; [right; exact I|].
  destruct (finish_spec W X m e HW ltac:(lia) Hrt) as [E|[Hn _]]; auto.
Qed.

(** Rounding is monotone, infinity included. *)
Lemma rounded_leb (W X1 X2 : Z) (f1 f2 : spec_float) :
  0 < W -> X1 <= X2 -> rounded W X1 f1 -> rounded W X2 f2 ->
  SFleb f1 f2 = true.
Proof.
  intros HW HX H1 H2.
  destruct H1 as [[E1 [s1 ->]]|(HX1 & m1 & e1 & Hr1 & ->)].
  - destruct (rounded_cases W X2 f2 HW H2) as [->|Hn]; [reflexivity|].
    apply (nnf_leb W); [assumption|exact I|assumption|].
    cbn [sval]. destruct f2 as [s|s| |[] m e]; cbn [nnf sval] in *; try contradiction; try lia.
    apply bounded_spec in Hn as (He & _).
    pose proof (hu_pos W e HW ltac:(unfold C; lia)). nia.
  - destruct H2 as [[E2 _]|(HX2 & m2 & e2 & Hr2 & ->)]; [lia|].
    destruct (rounds_to_mono W X1 m1 e1 X2 m2 e2 HW ltac:(lia) Hr1 Hr2) as [_ Hv].
    destruct (finish_spec W X2 m2 e2 HW ltac:(lia) Hr2) as [E2|[Hn2 Hs2]].
    + rewrite E2.
      destruct (finish_spec W X1 m1 e1 HW ltac:(lia) Hr1) as [E1|[Hn1 _]].
      * rewrite E1. reflexivity.
      * now apply nnf_leb_infinity.
    + destruct (finish_spec W X1 m1 e1 HW ltac:(lia) Hr1) as [E1|[Hn1 Hs1]].
      * exfalso. apply (finish_infinity W X1 m1 e1 HW ltac:(lia) Hr1) in E1.
        assert (E2 : finish m2 e2 = S754_infinity false)
          by (apply (finish_infinity W X2 m2 e2 HW ltac:(lia) Hr2); lia).
        rewrite E2 in Hn2. exact Hn2.
      * apply (nnf_leb W); [assumption..|]. rewrite Hs1, Hs2. lia.
Qed.

(** *** The operations *)

Lemma iter_xO (p d : positive) : Zpos (Pos.iter xO p d) = Zpos p * 2 ^ Zpos d.
Proof.
  induction d as [|d IH] using Pos.peano_ind.
  - cbn [Pos.iter]. lia.
  - rewrite Pos.iter_succ, Pos2Z.inj_xO, IH, Pos2Z.inj_succ, Z.pow_succ_r by lia.
    ring.
Qed.

Lemma shl_align_spec (p : positive) (e e' : Z) :
  let '(p', e'') := shl_align p e e' in
  e'' = Z.min e e' /\ Zpos p' = Zpos p * 2 ^ (e - e'').
Proof.
  unfold shl_align. destruct (e' - e) as [|d|d] eqn:E.
  - split; [lia|]. rewrite Z.sub_diag. lia.
  - split; [lia|]. rewrite Z.sub_diag. lia.
  - split; [lia|]. rewrite iter_xO. f_equal. f_equal. lia.
Qed.

Lemma digits_lower (p : positive) (k : Z) :
  2 ^ k <= Zpos p -> k < Zpos (digits2_pos p).
Proof.
  intros H. pose proof (digits2_pos_bounds p) as [_ H2].
  destruct (Z_lt_le_dec k (Zpos (digits2_pos p))) as [|Hge]; [assumption|].
  assert (2 ^ Zpos (digits2_pos p) <= 2 ^ k) by (apply pow2_le; lia). lia.
Qed.

Lemma binary_round_spec (W : Z) (p : positive) (e : Z) :
  0 < W -> -1074 <= e ->
  rounded W (2 * Zpos p * hu W e) (binary_round prec emax false p e).
Proof.
  intros HW He. unfold binary_round.
  set (d := Zpos (digits2_pos p)).
  pose proof (shl_align_spec p e (fexp prec emax (d + e))) as Hs.
  destruct (shl_align p e (fexp prec emax (d + e))) as [mz ez].
  destruct Hs as [Hez Hmz]. rewrite fexp64 in Hez.
  assert (HeC : 1 - C <= ez) by (unfold C; lia).
  pose proof (hu_pos W ez HW HeC) as Hh.
  assert (HX : 2 * Zpos p * hu W e = 2 * Zpos mz * hu W ez).
  { rewrite Hmz, <- (hu_le W ez e HW) by lia. ring. }
  right. split.
  - rewrite HX. nia.
  - rewrite HX. apply binary_round_aux_spec; try assumption; try lia.
    + reflexivity.
    + cbn [Zdigits2]. rewrite fexp64.
      pose proof (digits2_pos_bounds p) as [Hp1 Hp2]. fold d in Hp1, Hp2.
      assert (Hd : d + (e - ez) <= Zpos (digits2_pos mz)).
      { assert (d + (e - ez) - 1 < Zpos (digits2_pos mz)); [|lia].
        apply digits_lower. rewrite Hmz.
        replace (d + (e - ez) - 1) with ((d - 1) + (e - ez)) by lia.
        rewrite Z.pow_add_r by lia.
        assert (0 < 2 ^ (e - ez)) by (apply pow2_pos; lia). nia. }
      lia.
Qed.

Lemma binary_normalize_spec (W M e : Z) :
  0 < W -> -1074 <= e -> 0 <= M ->
  rounded W (2 * M * hu W e) (binary_normalize prec emax M e false).
Proof.
  intros HW He HM. destruct M as [|p|p]; try lia.
  - left. split; [ring|]. exists false. reflexivity.
  - apply binary_round_spec; assumption.
Qed.

Lemma sval_finite (W : Z) (m : positive) (e ez : Z) :
  0 < W -> 1 - C <= ez <= e ->
  2 * Zpos m * hu W e = 2 * (Zpos m * 2 ^ (e - ez)) * hu W ez.
Proof. intros HW He. rewrite <- (hu_le W ez e HW He). ring. Qed.

Lemma SFsub_spec (a b : spec_float) :
  nnf a -> nnf b -> sval 1 b <= sval 1 a ->
  rounded 1 (sval 1 a - sval 1 b) (SFsub prec emax a b).
Proof.
  intros Ha Hb Hle.
  destruct a as [sa|sa| |[] ma ea], b as [sb|sb| |[] mb eb];
    cbn [nnf] in *; try contradiction.
  - left. split; [reflexivity|]. destruct sa, sb; cbn; eauto.
  - exfalso. apply bounded_spec in Hb as (He & _).
    pose proof (hu_pos 1 eb ltac:(lia) ltac:(unfold C; lia)).
    cbn [sval] in Hle. nia.
  - cbn [SFsub]. rewrite Z.sub_0_r. apply (rounded_self 1); [lia|exact Ha].
  - cbn [SFsub cond_Zopp].
    pose proof Ha as Ha'. pose proof Hb as Hb'.
    apply bounded_spec in Ha' as (Hea & _). apply bounded_spec in Hb' as (Heb & _).
    pose proof (shl_align_spec ma ea (Z.min ea eb)) as Sa.
    pose proof (shl_align_spec mb eb (Z.min ea eb)) as Sb.
    destruct (shl_align ma ea (Z.min ea eb)) as [ma' ea'].
    destruct (shl_align mb eb (Z.min ea eb)) as [mb' eb'].
    destruct Sa as [Ea Ma], Sb as [Eb Mb]. cbn [fst].
    replace ea' with (Z.min ea eb) in Ma by lia.
    replace eb' with (Z.min ea eb) in Mb by lia.
    set (ez := Z.min ea eb) in *.
    assert (HX : sval 1 (S754_finite false ma ea) - sval 1 (S754_finite false mb eb) =
                 2 * (Zpos ma' - Zpos mb') * hu 1 ez).
    { cbn [sval]. rewrite Ma, Mb.
      rewrite (sval_finite 1 ma ea ez), (sval_finite 1 mb eb ez) by (unfold C; lia).
      ring. }
    rewrite HX. apply binary_normalize_spec; try lia.
    pose proof (hu_pos 1 ez ltac:(lia) ltac:(unfold C; lia)).
    apply Zle_minus_le_0 in Hle. rewrite HX in Hle. nia.
Qed.

Lemma SFadd_spec (a b : spec_float) :
  nnf a -> nnf b ->
  rounded 1 (sval 1 a + sval 1 b) (SFadd prec emax a b).
Proof.
  intros Ha Hb.
  destruct a as [sa|sa| |[] ma ea], b as [sb|sb| |[] mb eb];
    cbn [nnf] in *; try contradiction.
  - left. split; [reflexivity|]. destruct sa, sb; cbn; eauto.
  - cbn [SFadd]. change (sval 1 (S754_zero sa)) with 0. rewrite Z.add_0_l.
    apply (rounded_self 1); [lia|exact Hb].
  - cbn [SFadd]. change (sval 1 (S754_zero sb)) with 0. rewrite Z.add_0_r.
    apply (rounded_self 1); [lia|exact Ha].
  - cbn [SFadd cond_Zopp].
    pose proof Ha as Ha'. pose proof Hb as Hb'.
    apply bounded_spec in Ha' as (Hea & _). apply bounded_spec in Hb' as (Heb & _).
    pose proof (shl_align_spec ma ea (Z.min ea eb)) as Sa.
    pose proof (shl_align_spec mb eb (Z.min ea eb)) as Sb.
    destruct (shl_align ma ea (Z.min ea eb)) as [ma' ea'].
    destruct (shl_align mb eb (Z.min ea eb)) as [mb' eb'].
    destruct Sa as [Ea Ma], Sb as [Eb Mb]. cbn [fst].
    replace ea' with (Z.min ea eb) in Ma by lia.
    replace eb' with (Z.min ea eb) in Mb by lia.
    set (ez := Z.min ea eb) in *.
    assert (HX : sval 1 (S754_finite false ma ea) + sval 1 (S754_finite false mb eb) =
                 2 * (Zpos ma' + Zpos mb') * hu 1 ez).
    { cbn [sval]. rewrite Ma, Mb.
      rewrite (sval_finite 1 ma ea ez), (sval_finite 1 mb eb ez) by (unfold C; lia).
      ring. }
    rewrite HX. apply binary_normalize_spec; lia.
Qed.

(** A product lives on the square of the scale. *)
Lemma SFmul_spec (a b : spec_float) :
  nnf a -> nnf b ->
  rounded (2 ^ C) (sval 1 a * sval 1 b) (SFmul prec emax a b).
Proof.
  intros Ha Hb.
  assert (HW : 0 < 2 ^ C) by (apply pow2_pos; unfold C; lia).
  destruct a as [sa|sa| |[] ma ea], b as [sb|sb| |[] mb eb];
    cbn [nnf] in *; try contradiction;
    try (left; split; [cbn [sval]; ring|]; cbn; eauto; fail).
  cbn [SFmul xorb].
  pose proof Ha as Ha'. pose proof Hb as Hb'.
  apply bounded_spec in Ha' as (Hea & Hma & Hna).
  apply bounded_spec in Hb' as (Heb & Hmb & Hnb).
  assert (HX : sval 1 (S754_finite false ma ea) * sval 1 (S754_finite false mb eb) =
               2 * Zpos (ma * mb) * hu (2 ^ C) (ea + eb)).
  { cbn [sval]. unfold hu. rewrite Pos2Z.inj_mul.
    assert (E : 2 ^ C * 2 ^ (ea + eb - 1 + C) =
                2 * (2 ^ (ea - 1 + C) * 2 ^ (eb - 1 + C))).
    { rewrite <- !Z.pow_add_r by (unfold C; lia).
      replace (C + (ea + eb - 1 + C)) with (1 + (ea - 1 + C + (eb - 1 + C))) by lia.
      rewrite Z.pow_add_r by (unfold C; lia). reflexivity. }
    rewrite E. ring. }
  assert (HeC : 1 - C <= ea + eb) by (unfold C; lia).
  pose proof (hu_pos (2 ^ C) (ea + eb) HW HeC) as Hh.
  right. split; [rewrite HX; nia|]. rewrite HX.
  apply binary_round_aux_spec; try assumption; try lia.
  - reflexivity.
  - cbn [Zdigits2]. rewrite fexp64.
    destruct (Z.eq_dec ea (-1074)) as [Ea|Na];
      [destruct (Z.eq_dec eb (-1074)) as [Eb|Nb]; [lia|]|].
    + assert (52 < Zpos (digits2_pos (ma * mb))); [|lia].
      apply digits_lower. rewrite Pos2Z.inj_mul.
      specialize (Hnb ltac:(lia)). nia.
    + assert (52 < Zpos (digits2_pos (ma * mb))); [|lia].
      apply digits_lower. rewrite Pos2Z.inj_mul.
      specialize (Hna ltac:(lia)). nia.
Qed.

Lemma new_location_inbetween (q r t m : Z) :
  0 < q -> 0 <= r < q -> 0 < t ->
  let h := q * t in
  let X := 2 * m * h + 2 * r * t in
  match new_location q r with
  | loc_Exact => X = 2 * m * h
  | loc_Inexact Lt => 2 * m * h < X < (2 * m + 1) * h
  | loc_Inexact Eq => X = (2 * m + 1) * h
  | loc_Inexact Gt => (2 * m + 1) * h < X < (2 * m + 2) * h
  end.
Proof.
  intros Hq Hr Ht h X. unfold new_location.
  destruct (Z.even q) eqn:Hev.
  - unfold new_location_even. destruct (Z.eqb_spec r 0) as [->|Hr0].
    + subst X. ring.
    + destruct (Z.compare_spec (2 * r) q) as [E|E|E]; subst X h; nia.
  - unfold new_location_odd. destruct (Z.eqb_spec r 0) as [->|Hr0].
    + subst X. ring.
    + assert (Hodd : 2 * r <> q).
      { intros E. rewrite <- E, Z.even_mul in Hev. discriminate. }
      destruct (Z.compare_spec (2 * r + 1) q) as [E|E|E]; subst X h; nia.
Qed.

(** The quotient of two integers, as [parseFloat] rounds a decimal numeral. *)
Lemma SFdiv_int_spec (n q : positive) :
  Zpos (digits2_pos q) <= 1000 ->
  rounded (Zpos q) (Zpos n * 2 ^ C)
    (SFdiv prec emax (S754_finite false n 0) (S754_finite false q 0)).
Proof.
  intros Hq. cbn [SFdiv xorb]. unfold SFdiv_core_binary. cbn [Zdigits2].
  pose proof (digits2_pos_bounds n) as [Hn1 Hn2].
  pose proof (digits2_pos_bounds q) as [Hq1 Hq2].
  set (d1 := Zpos (digits2_pos n)) in *. set (d2 := Zpos (digits2_pos q)) in *.
  assert (Hd1 : 0 < d1) by (subst d1; lia).
  assert (Hd2 : 0 < d2) by (subst d2; lia).
  rewrite fexp64.
  replace (d1 + 0 - (d2 + 0)) with (d1 - d2) by lia.
  set (e' := Z.min (Z.max (d1 - d2 - 53) (-1074)) (0 - 0)).
  assert (He' : -1074 <= e' <= 0) by (subst e'; lia).
  assert (Hm' : match 0 - 0 - e' with
                | 0 => Zpos n
                | Zpos _ => Z.shiftl (Zpos n) (0 - 0 - e')
                | Zneg _ => 0
                end = Zpos n * 2 ^ (- e')).
  { replace (0 - 0 - e') with (- e') by lia.
    destruct (- e') as [|s|s] eqn:Es; try lia.
    rewrite Z.shiftl_mul_pow2 by lia. reflexivity. }
  rewrite Hm'.
  pose proof (Z_div_mod (Zpos n * 2 ^ (- e')) (Zpos q) ltac:(lia)) as Hdiv.
  destruct (Z.div_eucl (Zpos n * 2 ^ (- e')) (Zpos q)) as [qq r].
  destruct Hdiv as [Hdiv Hr].
  set (k := d1 - 1 - e' - d2).
  assert (Hk : 0 <= k) by (subst k e'; lia).
  assert (Hqq : 2 ^ k <= qq).
  { assert (Hp : 2 ^ (d1 - 1) * 2 ^ (- e') = 2 ^ k * 2 ^ d2).
    { rewrite <- !Z.pow_add_r by lia. f_equal. subst k. lia. }
    assert (0 < 2 ^ k) by (apply pow2_pos; lia).
    assert (0 < 2 ^ (- e')) by (apply pow2_pos; lia).
    destruct (Z_le_gt_dec (2 ^ k) qq); [assumption|]. nia. }
  assert (Hqq0 : 0 < qq) by (pose proof (pow2_pos k Hk); lia).
  assert (HW : 0 < Zpos q) by lia.
  assert (HeC : 1 - C <= e') by (unfold C; lia).
  set (t := 2 ^ (e' - 1 + C)).
  assert (Ht : 0 < t) by (apply pow2_pos; unfold C; lia).
  assert (HX : Zpos n * 2 ^ C = 2 * qq * (Zpos q * t) + 2 * r * t).
  { assert (E : 2 ^ C = 2 ^ (- e') * (2 ^ 1 * 2 ^ (e' - 1 + C))).
    { rewrite <- !Z.pow_add_r by (unfold C; lia). f_equal. lia. }
    change (2 ^ 1) with 2 in E. fold t in E. rewrite E. nia. }
  right. split; [pose proof (pow2_pos C ltac:(unfold C; lia)); lia|].
  apply binary_round_aux_spec; try assumption.
  - pose proof (new_location_inbetween (Zpos q) r t qq HW Hr Ht) as Hloc.
    cbv zeta in Hloc. unfold inbetween, hu. fold t. rewrite HX.
    destruct (new_location (Zpos q) r) as [|[]]; exact Hloc.
  - destruct qq as [|pq|pq]; try lia. cbn [Zdigits2]. rewrite fexp64.
    pose proof (digits_lower pq k Hqq). subst k e'. lia.
Qed.

(** *** Bounds by numbers of the format *)

Lemma sval_scale (W : Z) (f : spec_float) : sval W f = W * sval 1 f.
Proof. destruct f as [s|s| |[] m e]; cbn [sval]; unfold hu; ring. Qed.

Lemma sval_nonneg (f : spec_float) : nnf f -> 0 <= sval 1 f.
Proof.
  destruct f as [s|s| |[] m e]; cbn [sval nnf]; intros H; try lia.
  apply bounded_spec in H as (He & _).
  pose proof (hu_pos 1 e ltac:(lia) ltac:(unfold C; lia)). nia.
Qed.

Lemma SFleb_infinity_nnf (g : spec_float) :
  nnf g -> SFleb (S754_infinity false) g = false.
Proof. destruct g as [s|s| |[] m e]; cbn; intros H; try contradiction; reflexivity. Qed.

Lemma rounded_upper (W X : Z) (f g : spec_float) :
  0 < W -> rounded W X f -> nnf g -> X <= sval W g ->
  nnf f /\ sval 1 f <= sval 1 g.
Proof.
  intros HW Hf Hg HX.
  pose proof (rounded_leb W X (sval W g) f g HW HX Hf (rounded_self W g HW Hg)) as Hle.
  destruct (rounded_cases W X f HW Hf) as [->|Hn].
  - rewrite SFleb_infinity_nnf in Hle by assumption. discriminate.
  - split; [exact Hn|]. apply (nnf_leb 1); [lia|assumption..].
Qed.

Lemma rounded_lower (W X : Z) (f g : spec_float) :
  0 < W -> rounded W X f -> nnf g -> sval W g <= X -> nnf f ->
  sval 1 g <= sval 1 f.
Proof.
  intros HW Hf Hg HX Hn.
  pose proof (rounded_leb W (sval W g) X g f HW HX (rounded_self W g HW Hg) Hf) as Hle.
  apply (nnf_leb 1); [lia|assumption..].
Qed.

(** A rounding stays at or below a multiple of a unit no finer than its own. *)
Lemma rounds_to_below_grid (W X m e a g : Z) :
  0 < W -> 0 <= X -> rounds_to W X m e ->
  e <= g -> X <= 2 * a * hu W g ->
  m * hu W e <= a * hu W g.
Proof.
  intros HW HX Hrt Hg Ha.
  pose proof (rounds_to_range W X m e HW HX Hrt) as (Hm & Hn & HeC & Hh).
  destruct Hrt as (He & Hup & Hlo & Hr & Ht).
  rewrite <- (hu_le W e g HW ltac:(lia)) in *.
  assert (0 < 2 ^ (g - e)) by (apply pow2_pos; lia).
  assert (2 * m - 1 <= 2 * (a * 2 ^ (g - e))) by nia.
  assert (m <= a * 2 ^ (g - e)) by lia. nia.
Qed.

(** Every value of the format is a multiple of the least unit. *)
Lemma sval_multiple (f : spec_float) :
  nnf f -> exists k, sval 1 f = 2 * k * hu 1 (-1074).
Proof.
  destruct f as [s|s| |[] m e]; cbn [sval nnf]; intros H; try contradiction;
    try (exists 0; ring).
  apply bounded_spec in H as (He & _).
  exists (Zpos m * 2 ^ (e + 1074)).
  rewrite <- (hu_le 1 (-1074) e) by (unfold C; lia).
  replace (e - -1074) with (e + 1074) by lia. ring.
Qed.

Lemma ratio_arith (m sr T h : Z) :
  0 < T -> 0 < h -> 0 <= sr -> 100 * sr <= 79 * T -> 5 <= m ->
  2 * m * h * sr <= 2 * (m - 1) * (T * h).
Proof.
  intros HT Hh Hsr H79 Hm.
  assert (H1 : m * sr <= (m - 1) * T) by nia.
  assert (H2 : (m * sr) * (2 * h) <= ((m - 1) * T) * (2 * h))
    by (apply Z.mul_le_mono_nonneg_r; lia).
  lia.
Qed.

Lemma binade_arith (K P H X m : Z) :
  0 < K -> 0 < H -> 2 <= P -> m <= K ->
  K * (P * H) <= X -> X <= 2 * (m - 1) * H -> False.
Proof.
  intros HK HH HP Hm H1 H2.
  assert (H3 : K * 2 <= K * P) by (apply Z.mul_le_mono_nonneg_l; lia).
  assert (H4 : (K * P) * H <= (2 * (m - 1)) * H) by lia.
  apply Z.mul_le_mono_pos_r in H4; [|assumption]. lia.
Qed.

(** The product of a computed difference by a ratio of at most 0.79 does not
    exceed the exact difference. *)
Lemma ratio_of_difference (a b r : spec_float) :
  nnf a -> nnf b -> sval 1 b <= sval 1 a ->
  nnf r -> 100 * sval 1 r <= 79 * 2 ^ C ->
  let d := SFsub prec emax a b in
  let y := SFmul prec emax d r in
  nnf d /\ sval 1 d <= sval 1 a /\
  nnf y /\ sval 1 y <= sval 1 d /\ sval 1 y <= sval 1 a - sval 1 b.
Proof.
  intros Ha Hb Hab Hr Hr79 d y.
  assert (HC : 0 < 2 ^ C) by (apply pow2_pos; unfold C; lia).
  pose proof (sval_nonneg b Hb) as Hb0. pose proof (sval_nonneg r Hr) as Hr0.
  pose proof (SFsub_spec a b Ha Hb Hab) as Hd. fold d in Hd.
  destruct (rounded_upper 1 _ d a ltac:(lia) Hd Ha ltac:(lia)) as [Hnd Hda].
  pose proof (sval_nonneg d Hnd) as Hd0.
  pose proof (SFmul_spec d r Hnd Hr) as Hy. fold y in Hy.
  assert (Hhs : forall e, hu (2 ^ C) e = 2 ^ C * hu 1 e) by (intros; unfold hu; ring).
  pose proof (sval_scale (2 ^ C)) as Hscale.
  set (T := 2 ^ C) in *. clearbody T.
  assert (Hr1 : sval 1 r <= T) by lia.
  assert (Hyle : sval 1 d * sval 1 r <= sval T d).
  { rewrite Hscale, (Z.mul_comm T).
    apply Z.mul_le_mono_nonneg_l; assumption. }
  destruct (rounded_upper T _ y d HC Hy Hnd Hyle) as [Hny Hyd].
  repeat (split; [assumption|]).
  destruct (Z_le_gt_dec (sval 1 d) (sval 1 a - sval 1 b)) as [Hle|Hgt]; [lia|].
  (* the difference was rounded up: it is not a number of the format *)
  destruct Hd as [[E [s Es]]|(HX & m & e & Hrt & Ed)].
  { rewrite Es in Hgt. cbn [sval] in Hgt. lia. }
  destruct (finish_spec 1 (sval 1 a - sval 1 b) m e ltac:(lia) ltac:(lia) Hrt)
    as [Ei|[_ Hsd]].
  { rewrite <- Ed in Ei. rewrite Ei in Hnd. contradiction. }
  rewrite <- Ed in Hsd.
  pose proof (rounds_to_range 1 (sval 1 a - sval 1 b) m e ltac:(lia) ltac:(lia) Hrt)
    as (Hm & Hn & HeC & Hh).
  pose proof Hrt as (He & _ & _ & [Hrr _] & _).
  assert (Hnorm : -1074 < e).
  { destruct (Z.eq_dec e (-1074)) as [->|]; [exfalso|lia].
    destruct (sval_multiple a Ha) as [ka Eka].
    destruct (sval_multiple b Hb) as [kb Ekb].
    rewrite Eka, Ekb in Hrr, Hgt. rewrite Hsd in Hgt.
    clear - Hrr Hgt Hh.
    assert (H1 : (2 * m - 1) * hu 1 (-1074) <= (2 * (ka - kb)) * hu 1 (-1074)) by lia.
    apply Z.mul_le_mono_pos_r in H1; [|assumption].
    assert (H2 : (ka - kb) * hu 1 (-1074) < m * hu 1 (-1074)) by lia.
    apply Z.mul_lt_mono_pos_r in H2; [|assumption]. lia. }
  specialize (Hn Hnorm).
  assert (Hm5 : 5 <= m) by (change (2 ^ 52) with 4503599627370496 in Hn; lia).
  destruct Hy as [[_ [s Es]]|(HXy & my & ey & Hrty & Ey)].
  { rewrite Es. cbn [sval]. lia. }
  destruct (finish_spec T (sval 1 d * sval 1 r) my ey HC ltac:(lia) Hrty)
    as [Ei|[_ Hsy]].
  { rewrite <- Ey in Ei. rewrite Ei in Hny. contradiction. }
  rewrite <- Ey, Hscale, Hhs in Hsy.
  pose proof (rounds_to_range T (sval 1 d * sval 1 r) my ey HC ltac:(lia) Hrty)
    as (Hmy & _ & HeyC & _).
  pose proof (hu_pos 1 ey ltac:(lia) HeyC) as Hhy.
  assert (HXle : sval 1 d * sval 1 r <= 2 * (m - 1) * hu T e).
  { rewrite Hsd, Hhs. apply ratio_arith; assumption. }
  assert (Hey : ey <= e).
  { destruct (Z_le_gt_dec ey e) as [|Hgt']; [assumption|exfalso].
    destruct Hrty as (_ & _ & Hloy & _). specialize (Hloy ltac:(lia)).
    rewrite <- (hu_le T e ey HC ltac:(lia)) in Hloy.
    assert (HP : 2 ^ 1 <= 2 ^ (ey - e)) by (apply pow2_le; lia).
    change (2 ^ 1) with 2 in HP.
    pose proof (hu_pos T e HC HeC) as HhT.
    apply (binade_arith (2 ^ 53) (2 ^ (ey - e)) (hu T e) (sval 1 d * sval 1 r) m);
      try assumption; try lia; reflexivity. }
  pose proof (rounds_to_below_grid T (sval 1 d * sval 1 r) my ey (m - 1) e
                HC ltac:(lia) Hrty Hey HXle) as Hgrid.
  rewrite !Hhs in Hgrid.
  assert (Hg1 : T * (my * hu 1 ey) <= T * ((m - 1) * hu 1 e)) by lia.
  apply Z.mul_le_mono_pos_l in Hg1; [|assumption].
  assert (Hs1 : T * sval 1 y = T * (2 * my * hu 1 ey)) by lia.
  apply Z.mul_cancel_l in Hs1; [|lia].
  lia.
Qed.

End Binary64.

(** ** Rounding of the level prices *)

Module RoundingFacts.

Import JS Notations Order Fib LevelFacts.
Local Open Scope string_scope.
Local Open Scope float_scope.

(** The exact value of a finite number. *)
Definition valueQ (x : number) : option Q :=
  match Prim2SF x with
  | S754_zero _ => Some 0%Q
  | S754_finite s m e =>
      Some (if s then (- magnitude m e)%Q else magnitude m e)
  | _ => None
  end.

(** The retracement formula in exact arithmetic. *)
Definition exactLevel (high low : Q) (trend : TrendDirection) (r : Q) : Q :=
  match trend with
  | uptrend => (high - (high - low) * r)%Q
  | downtrend => (low + (high - low) * r)%Q
  end.

(** The number written as the decimal numeral [n / 10^f]. *)
Definition decimalNumber (n : Z) (f : nat) : number :=
  parseFloat (StrFixed (n <? 0)%Z (Z.abs n) f).

(** The level price in the words of the claim: the exact value of the
    formula on the given numbers, rounded half-up to two decimal places. *)
Definition halfUpPrice (high low : number) (trend : TrendDirection)
    (r : number) : option number :=
  match valueQ high, valueQ low, valueQ r with
  | Some h, Some l, Some q =>
      Some (decimalNumber (roundHalfUp (exactLevel h l trend q) 2) 2)
  | _, _, _ => None
  end.

Lemma roundHalfUp_spec (q : Q) (f : nat) :
  (q * inject_Z (10 ^ Z.of_nat f) - (1 # 2) < inject_Z (roundHalfUp q f) /\
   inject_Z (roundHalfUp q f) <= q * inject_Z (10 ^ Z.of_nat f) + (1 # 2))%Q.
Proof.
  unfold roundHalfUp.
  set (y := (q * inject_Z (10 ^ Z.of_nat f) + (1 # 2))%Q).
  pose proof (Qfloor_le y) as H1. pose proof (Qlt_floor y) as H2.
  rewrite inject_Z_plus in H2. change (inject_Z 1) with 1%Q in H2.
  subst y. split; lra.
Qed.

Lemma toFixed_finite (x : number) (f : nat) (sg : bool) (m : positive) (e : Z) :
  Prim2SF x = S754_finite sg m e -> (1e21 <=? abs x) = false ->
  toFixed x f = StrFixed sg (roundHalfUp (magnitude m e) f) f.
Proof. intros H1 H2. unfold toFixed. now rewrite H1, H2. Qed.

(** With the sign [sg]. *)
Definition signed (sg : bool) (x : number) : number := if sg then - x else x.

(** Where claim C7 fails: between 1.00 and 1.01 in a downtrend, the exact
    halfway value is just above 1.005 and rounds half-up to 1.01, but its
    binary64 evaluation falls just below 1.005 and the code returns 1.00. *)
Lemma level_price_differs_from_exact_rounding :
  map price (calculateFibLevels 1.01 1 downtrend) = [1; 1; 1; 1.01; 1.01] /\
  map (halfUpPrice 1.01 1 downtrend) [0.236; 0.382; 0.5; 0.618; 0.786] =
    [Some 1; Some 1; Some 1.01; Some 1.01; Some 1.01] /\
  (1 =? 1.01) = false.
Proof. vm_compute. repeat split; reflexivity. Qed.

(** Where claim C6 fails, with the high above the low. Between 100.001 and
    100.004 every level is 100.00, below [low], and the five prices are
    equal. Between 10.00 and 10.07, two prices in whole cents, the levels of
    ratio 0.382 and 0.5 are both 10.04 in an uptrend, and those of ratio 0.5
    and 0.618 in a downtrend: not strictly decreasing, not strictly
    increasing. *)
Lemma level_prices_leave_range :
  (100.001 <? 100.004) = true /\
  map price (calculateFibLevels 100.004 100.001 uptrend) =
    [100; 100; 100; 100; 100] /\
  (100 <? 100.001) = true /\ (100 <? 100) = false /\
  (10 <? 10.07) = true /\
  map price (calculateFibLevels 10.07 10 uptrend) =
    [10.05; 10.04; 10.04; 10.03; 10.01] /\
  map price (calculateFibLevels 10.07 10 downtrend) =
    [10.02; 10.03; 10.04; 10.04; 10.06] /\
  (10.04 <? 10.04) = false.
Proof. vm_compute. repeat split; reflexivity. Qed.

End RoundingFacts.

(** ** Level prices stay in range *)

Module LevelBounds.

Import JS Notations Order Fib LevelFacts Binary64.
Local Open Scope Z_scope.

(** A number that is zero or positive and finite. *)
Definition nn (x : number) : Prop := nnf (Prim2SF x).

(** Its value on the scale [2^C]. *)
Definition fval (x : number) : Z := sval 1 (Prim2SF x).

Lemma nn_intro (x : number) :
  finite x -> (0 <=? x)%float = true -> nn x.
Proof.
  intros Hfin Hle. unfold nn.
  pose proof (Prim2SF_valid x) as Hv.
  apply finite_key in Hfin as [_ Hk]. unfold key in Hk.
  rewrite leb_spec in Hle. change (Prim2SF 0) with (S754_zero false) in Hle.
  destruct (Prim2SF x) as [s|s| |s m e].
  - exact I.
  - destruct s; cbn in Hk; lia.
  - discriminate.
  - destruct s; [discriminate|]. exact Hv.
Qed.

Lemma leb_fval (x y : number) :
  nn x -> nn y -> (x <=? y)%float = true <-> fval x <= fval y.
Proof. intros Hx Hy. rewrite leb_spec. apply nnf_leb; [lia|assumption..]. Qed.

Lemma ltb_fval (x y : number) :
  nn x -> nn y -> (x <? y)%float = true <-> fval x < fval y.
Proof. intros Hx Hy. rewrite ltb_spec. apply nnf_ltb; [lia|assumption..]. Qed.

Lemma fval_nonneg (x : number) : nn x -> 0 <= fval x.
Proof. apply sval_nonneg. Qed.

Lemma sub_rounded (a b : number) :
  nn a -> nn b -> fval b <= fval a ->
  rounded 1 (fval a - fval b) (Prim2SF (a - b)).
Proof. intros. rewrite sub_spec. now apply SFsub_spec. Qed.

Lemma add_rounded (a b : number) :
  nn a -> nn b -> rounded 1 (fval a + fval b) (Prim2SF (a + b)).
Proof. intros. rewrite add_spec. now apply SFadd_spec. Qed.

Lemma mul_rounded (a b : number) :
  nn a -> nn b -> rounded (2 ^ C) (fval a * fval b) (Prim2SF (a * b)).
Proof. intros. rewrite mul_spec. now apply SFmul_spec. Qed.

(** A ratio of at most 0.79. *)
Definition smallRatio (r : number) : Prop :=
  nn r /\ 100 * fval r <= 79 * 2 ^ C.

(** The retracement [(high - low) * r], as computed. *)
Lemma retracement_facts (high low r : number) :
  nn high -> nn low -> fval low <= fval high -> smallRatio r ->
  nn (high - low)%float /\
  nn ((high - low) * r)%float /\
  fval ((high - low) * r)%float <= fval high - fval low.
Proof.
  intros Hh Hl Hle [Hr Hr79].
  destruct (ratio_of_difference (Prim2SF high) (Prim2SF low) (Prim2SF r)
              Hh Hl Hle Hr Hr79) as (Hd & _ & Hy & _ & Hyd).
  unfold nn, fval. rewrite mul_spec, sub_spec. auto.
Qed.

Lemma retracement_mono (high low r1 r2 : number) :
  nn high -> nn low -> fval low <= fval high ->
  smallRatio r1 -> smallRatio r2 -> fval r1 <= fval r2 ->
  fval ((high - low) * r1)%float <= fval ((high - low) * r2)%float.
Proof.
  intros Hh Hl Hle H1 H2 H12.
  destruct (retracement_facts high low r1 Hh Hl Hle H1) as (Hd & Hy1 & _).
  destruct (retracement_facts high low r2 Hh Hl Hle H2) as (_ & Hy2 & _).
  destruct H1 as [Hr1 _], H2 as [Hr2 _].
  assert (HT : 0 < 2 ^ C) by (apply pow2_pos; unfold C; lia).
  apply leb_fval; [assumption..|]. rewrite leb_spec.
  apply (rounded_leb (2 ^ C) (fval (high - low)%float * fval r1)
           (fval (high - low)%float * fval r2)); [assumption| |now apply mul_rounded..].
  apply Z.mul_le_mono_nonneg_l; [now apply fval_nonneg|assumption].
Qed.

(** The unrounded level lies between [low] and [high]. *)
Lemma rawLevel_bounds (high low r : number) (trend : TrendDirection) :
  nn high -> nn low -> fval low <= fval high -> smallRatio r ->
  nn (rawLevel high low trend r) /\
  fval low <= fval (rawLevel high low trend r) <= fval high.
Proof.
  intros Hh Hl Hle Hr.
  destruct (retracement_facts high low r Hh Hl Hle Hr) as (_ & Hy & Hyd).
  pose proof (fval_nonneg _ Hy) as Hy0. pose proof (fval_nonneg _ Hl) as Hl0.
  unfold rawLevel. cbv zeta. destruct trend.
  - pose proof (sub_rounded high _ Hh Hy ltac:(lia)) as Hraw.
    destruct (rounded_upper 1 _ _ (Prim2SF high) ltac:(lia) Hraw Hh
                ltac:(unfold fval in *; lia)) as [Hn Hup].
    split; [exact Hn|]. split; [|exact Hup].
    apply (rounded_lower 1 _ _ (Prim2SF low) ltac:(lia) Hraw Hl); [|exact Hn].
    unfold fval in *. lia.
  - pose proof (add_rounded low _ Hl Hy) as Hraw.
    destruct (rounded_upper 1 _ _ (Prim2SF high) ltac:(lia) Hraw Hh
                ltac:(unfold fval in *; lia)) as [Hn Hup].
    split; [exact Hn|]. split; [|exact Hup].
    apply (rounded_lower 1 _ _ (Prim2SF low) ltac:(lia) Hraw Hl); [|exact Hn].
    unfold fval in *. lia.
Qed.

(** As the ratio grows, the unrounded level moves down in an uptrend and up
    in a downtrend, weakly. *)
Lemma rawLevel_mono (high low r1 r2 : number) (trend : TrendDirection) :
  nn high -> nn low -> fval low <= fval high ->
  smallRatio r1 -> smallRatio r2 -> fval r1 <= fval r2 ->
  match trend with
  | uptrend => fval (rawLevel high low trend r2) <= fval (rawLevel high low trend r1)
  | downtrend => fval (rawLevel high low trend r1) <= fval (rawLevel high low trend r2)
  end.
Proof.
  intros Hh Hl Hle H1 H2 H12.
  pose proof (retracement_mono high low r1 r2 Hh Hl Hle H1 H2 H12) as Hm.
  destruct (retracement_facts high low r1 Hh Hl Hle H1) as (_ & Hy1 & Hyd1).
  destruct (retracement_facts high low r2 Hh Hl Hle H2) as (_ & Hy2 & Hyd2).
  destruct (rawLevel_bounds high low r1 trend Hh Hl Hle H1) as [Hn1 _].
  destruct (rawLevel_bounds high low r2 trend Hh Hl Hle H2) as [Hn2 _].
  pose proof (fval_nonneg _ Hl) as Hl0.
  unfold rawLevel in *. cbv zeta in *. destruct trend.
  - apply leb_fval; [assumption..|]. rewrite leb_spec.
    apply (rounded_leb 1 (fval high - fval ((high - low) * r2)%float)
             (fval high - fval ((high - low) * r1)%float)); [lia|lia| |].
    + apply sub_rounded; [assumption..|lia].
    + apply sub_rounded; [assumption..|lia].
  - apply leb_fval; [assumption..|]. rewrite leb_spec.
    apply (rounded_leb 1 (fval low + fval ((high - low) * r1)%float)
             (fval low + fval ((high - low) * r2)%float)); [lia|lia| |].
    + now apply add_rounded.
    + now apply add_rounded.
Qed.

(** *** Rounding to cents *)

(** [x.toFixed(2)] read back by [parseFloat]. *)
Definition round2 (x : number) : number := parseFloat (toFixed x 2).

(** The integer nearest to [100 * x], the larger on a tie, for the real [x]
    of scaled value [F]. *)
Definition cents (F : Z) : Z := (200 * F + 2 ^ C) / (2 * 2 ^ C).

Lemma roundHalfUp_cents (m : positive) (e : Z) :
  1 - C <= e ->
  roundHalfUp (magnitude m e) 2 = cents (sval 1 (S754_finite false m e)).
Proof.
  intros He. unfold roundHalfUp, magnitude, cents. cbn [sval]. unfold hu.
  change (10 ^ Z.of_nat 2) with 100.
  replace (2 * Zpos m * (1 * 2 ^ (e - 1 + C))) with (Zpos m * 2 ^ (e + C)).
  2:{ replace (e + C) with (1 + (e - 1 + C)) by lia.
      rewrite Z.pow_add_r by lia. change (2 ^ 1) with 2. ring. }
  rewrite Zdiv_Qdiv. apply Qfloor_comp.
  rewrite !inject_Z_plus, !inject_Z_mult.
  rewrite !Zpower_Qpower by (unfold C in *; lia).
  change (inject_Z 2) with 2%Q.
  assert (E : (2 ^ (e + C) == 2 ^ e * 2 ^ C)%Q) by (apply Qpower_plus; discriminate).
  rewrite E.
  assert (HT : ~ (2 ^ C == 0)%Q).
  { intros H. pose proof (Qpower_0_lt 2 C ltac:(reflexivity)) as P.
    rewrite H in P. discriminate. }
  change (inject_Z 200) with 200%Q.
  change (inject_Z 100) with 100%Q.
  field. exact HT.
Qed.

Lemma cents_mono (F1 F2 : Z) : F1 <= F2 -> cents F1 <= cents F2.
Proof.
  intros H. unfold cents.
  assert (0 < 2 ^ C) by (apply pow2_pos; unfold C; lia).
  apply Z.div_le_mono; lia.
Qed.

Lemma cents_nonneg (F : Z) : 0 <= F -> 0 <= cents F.
Proof.
  intros H. unfold cents.
  assert (0 < 2 ^ C) by (apply pow2_pos; unfold C; lia).
  apply Z.div_pos; lia.
Qed.

Lemma cents_0 : cents 0 = 0.
Proof.
  unfold cents. assert (0 < 2 ^ C) by (apply pow2_pos; unfold C; lia).
  apply Z.div_small. lia.
Qed.

(** Below [10^21] the cents are at most [10^23]. *)
Lemma cents_below (F : Z) : F < 10 ^ 21 * 2 ^ C -> cents F <= 10 ^ 23.
Proof.
  intros H. unfold cents.
  assert (HT : 0 < 2 ^ C) by (apply pow2_pos; unfold C; lia).
  set (T := 2 ^ C) in *. clearbody T.
  transitivity ((10 ^ 23 * (2 * T) + T) / (2 * T)).
  - apply Z.div_le_mono; [lia|].
    change (10 ^ 23) with (100 * 10 ^ 21). lia.
  - rewrite Z.div_add_l by lia. rewrite Z.div_small by lia. lia.
Qed.

Lemma fval_1e21 : fval 1e21%float = 10 ^ 21 * 2 ^ C.
Proof. vm_compute. reflexivity. Qed.

Lemma nn_1e21 : nn 1e21%float.
Proof. vm_compute. reflexivity. Qed.

Lemma rounded_valid (W X : Z) (f : spec_float) :
  0 < W -> rounded W X f -> valid_binary f = true.
Proof.
  intros HW H. destruct (rounded_cases W X f HW H) as [->|Hn]; [reflexivity|].
  destruct f as [s|s| |[] m e]; cbn [nnf] in Hn; try contradiction;
    [reflexivity|exact Hn].
Qed.

Lemma nearestDecimal_rounded (n : Z) :
  0 <= n -> rounded 100 (n * 2 ^ C) (nearestDecimal n 2).
Proof.
  intros Hn. unfold nearestDecimal.
  change (10 ^ Z.of_nat 2) with (Zpos 100).
  destruct n as [|p|p]; try lia.
  - left. split; [reflexivity|]. exists false. reflexivity.
  - apply (SFdiv_int_spec p 100). vm_compute. discriminate.
Qed.

(** What [round2] does to a number that is zero or positive and finite. *)
Lemma round2_cases (x : number) :
  nn x ->
  (fval 1e21%float <= fval x /\ round2 x = x) \/
  (fval x < fval 1e21%float /\
   rounded 100 (cents (fval x) * 2 ^ C) (Prim2SF (round2 x))).
Proof.
  intros Hx. unfold round2, toFixed.
  pose proof (fval_nonneg x Hx) as Hx0.
  pose proof Hx as Hx'. unfold nn in Hx'. unfold fval in *.
  destruct (Prim2SF x) as [s|s| |[] m e] eqn:Ex; cbn [nnf] in Hx';
    try contradiction.
  - right. split; [rewrite fval_1e21 || (vm_compute; reflexivity)|].
    cbn [parseFloat sval]. rewrite cents_0.
    pose proof (nearestDecimal_rounded 0 ltac:(lia)) as H.
    rewrite Prim2SF_SF2Prim by (apply (rounded_valid 100 _ _ ltac:(lia) H)).
    exact H.
  - assert (Eabs : abs x = x).
    { apply Prim2SF_inj. rewrite abs_spec, Ex. reflexivity. }
    rewrite Eabs.
    destruct (1e21 <=? x)%float eqn:Ebig.
    + left. split; [|reflexivity].
      rewrite <- Ex. apply (leb_fval 1e21%float x nn_1e21 Hx). exact Ebig.
    + right. split.
      * rewrite <- Ex.
        destruct (Z_lt_le_dec (sval 1 (Prim2SF x)) (sval 1 (Prim2SF 1e21%float)))
          as [|Hge]; [assumption|].
        apply (leb_fval 1e21%float x nn_1e21 Hx) in Hge. congruence.
      * cbn [parseFloat].
        pose proof Hx' as Hb. apply bounded_spec in Hb as (He & _).
        rewrite roundHalfUp_cents by (unfold C; lia).
        pose proof (nearestDecimal_rounded _ (cents_nonneg _ Hx0)) as H.
        rewrite Prim2SF_SF2Prim by (apply (rounded_valid 100 _ _ ltac:(lia) H)).
        exact H.
Qed.

(** Rounding to cents is monotone. *)
Lemma round2_mono (x y : number) :
  nn x -> nn y -> fval x <= fval y -> (round2 x <=? round2 y)%float = true.
Proof.
  intros Hx Hy Hxy.
  assert (HT : 0 < 2 ^ C) by (apply pow2_pos; unfold C; lia).
  destruct (round2_cases x Hx) as [[Bx Ex]|[Sx Rx]];
    destruct (round2_cases y Hy) as [[By Ey]|[Sy Ry]].
  - rewrite Ex, Ey. now apply leb_fval.
  - lia.
  - rewrite Ey, leb_spec.
    apply (rounded_leb 100 (cents (fval x) * 2 ^ C) (sval 100 (Prim2SF y)));
      [lia| |exact Rx|apply rounded_self; [lia|exact Hy]].
    rewrite (sval_scale 100). fold (fval y).
    rewrite fval_1e21 in Sx, By.
    pose proof (cents_below _ Sx) as Hc.
    set (T := 2 ^ C) in *. clearbody T.
    assert (cents (fval x) * T <= 10 ^ 23 * T)
      by (apply Z.mul_le_mono_nonneg_r; lia).
    change (10 ^ 23) with (100 * 10 ^ 21) in *. lia.
  - rewrite leb_spec.
    apply (rounded_leb 100 (cents (fval x) * 2 ^ C) (cents (fval y) * 2 ^ C));
      [lia| |exact Rx|exact Ry].
    apply Z.mul_le_mono_nonneg_r; [lia|now apply cents_mono].
Qed.

(** *** The five levels *)

Lemma smallRatio_intro (r : number) :
  nnf (Prim2SF r) -> (100 * fval r <=? 79 * 2 ^ C) = true -> smallRatio r.
Proof. intros H1 H2. split; [exact H1|now apply Z.leb_le]. Qed.

Lemma smallRatio_table : Forall smallRatio (map fr_ratio FIB_RATIOS).
Proof.
  repeat constructor; apply smallRatio_intro; vm_compute; reflexivity.
Qed.

Lemma ratio_table_ascending :
  StronglySorted (fun r1 r2 => fval r1 <= fval r2) (map fr_ratio FIB_RATIOS).
Proof.
  repeat constructor; apply Z.leb_le; vm_compute; reflexivity.
Qed.

(** The order of two level prices follows the order of their ratios. *)
Definition priceOrder (trend : TrendDirection) (p1 p2 : number) : Prop :=
  match trend with
  | uptrend => (p2 <=? p1)%float = true
  | downtrend => (p1 <=? p2)%float = true
  end.

Lemma level_pair (high low r1 r2 : number) (trend : TrendDirection) :
  nn high -> nn low -> fval low <= fval high ->
  smallRatio r1 -> smallRatio r2 -> fval r1 <= fval r2 ->
  priceOrder trend (round2 (rawLevel high low trend r1))
                   (round2 (rawLevel high low trend r2)).
Proof.
  intros Hh Hl Hle H1 H2 H12.
  pose proof (rawLevel_mono high low r1 r2 trend Hh Hl Hle H1 H2 H12) as Hm.
  destruct (rawLevel_bounds high low r1 trend Hh Hl Hle H1) as [Hn1 _].
  destruct (rawLevel_bounds high low r2 trend Hh Hl Hle H2) as [Hn2 _].
  destruct trend; cbn [priceOrder]; apply round2_mono; assumption.
Qed.

Lemma level_in_range (high low r : number) (trend : TrendDirection) :
  nn high -> nn low -> fval low <= fval high -> smallRatio r ->
  let p := round2 (rawLevel high low trend r) in
  (round2 low <=? p)%float = true /\ (p <=? round2 high)%float = true.
Proof.
  intros Hh Hl Hle Hr.
  destruct (rawLevel_bounds high low r trend Hh Hl Hle Hr) as [Hn [H1 H2]].
  split; apply round2_mono; assumption.
Qed.

(** For finite prices [0 <= low <= high] and either trend, each of the five
    level prices lies between [low] and [high] rounded to two decimals, and
    as the ratio increases the five prices never increase in an uptrend and
    never decrease in a downtrend. *)
Lemma levels_weakly_ordered (high low : number)
    (trend : TrendDirection) :
  finite high -> finite low ->
  (0 <=? low)%float = true -> (low <=? high)%float = true ->
  let ps := map price (calculateFibLevels high low trend) in
  Forall (fun p => (round2 low <=? p)%float = true /\
                   (p <=? round2 high)%float = true) ps /\
  StronglySorted (priceOrder trend) ps.
Proof.
  intros Fh Fl H0 Hlh.
  assert (Hl : nn low) by (apply nn_intro; assumption).
  assert (Hh : nn high).
  { apply nn_intro; [assumption|]. exact (leb_trans _ _ _ H0 Hlh). }
  assert (Hle : fval low <= fval high) by (apply leb_fval; assumption).
  pose proof smallRatio_table as Hs. pose proof ratio_table_ascending as Ha.
  cbv zeta.
  change (map price (calculateFibLevels high low trend))
    with (map (fun r => round2 (rawLevel high low trend r))
              (map fr_ratio FIB_RATIOS)).
  set (rs := map fr_ratio FIB_RATIOS) in *. clearbody rs.
  induction Ha as [|r rs' Hsorted IH Hall]; cbn [map].
  - split; constructor.
  - inversion Hs as [|? ? Hr Hs']; subst.
    destruct (IH Hs') as [IH1 IH2].
    split.
    + constructor; [|exact IH1].
      apply (level_in_range high low r trend); assumption.
    + constructor; [exact IH2|].
      apply Forall_forall. intros p Hp. apply in_map_iff in Hp as (r' & <- & Hr').
      rewrite Forall_forall in Hall, Hs'.
      apply level_pair; auto.
Qed.

End LevelBounds.

(** ** Swing detection: the two modes compared *)

Module SwingModes.

Import JS Notations Order Fib SwingFacts.
Local Open Scope string_scope.
Local Open Scope float_scope.

Lemma candidateHigh_zero (prices : list HistoricalPrice) (i : nat)
    (bar : HistoricalPrice) :
  Forall finiteBar prices -> nth_error prices i = Some bar ->
  candidateHigh prices 0 i bar.
Proof.
  intros Hfin E.
  assert (Hi : (i < List.length prices)%nat) by (apply nth_error_Some; congruence).
  repeat split; [lia|lia|exact E|].
  intros k b Hk Eb. assert (k = i) as -> by lia.
  assert (b = bar) as -> by congruence.
  apply leb_refl, finite_ordered.
  rewrite Forall_forall in Hfin. apply (Hfin bar). eapply nth_error_In, E.
Qed.

Lemma candidateLow_zero (prices : list HistoricalPrice) (i : nat)
    (bar : HistoricalPrice) :
  Forall finiteBar prices -> nth_error prices i = Some bar ->
  candidateLow prices 0 i bar.
Proof.
  intros Hfin E.
  assert (Hi : (i < List.length prices)%nat) by (apply nth_error_Some; congruence).
  repeat split; [lia|lia|exact E|].
  intros k b Hk Eb. assert (k = i) as -> by lia.
  assert (b = bar) as -> by congruence.
  apply leb_refl, finite_ordered.
  rewrite Forall_forall in Hfin. apply (Hfin bar). eapply nth_error_In, E.
Qed.

(** What the two modes return on the same series, side by side. *)
Lemma both_modes (prices : list HistoricalPrice) (L : nat) :
  prices <> [] -> Forall finiteBar prices ->
  exists sh sl ig hg jg lg,
    detectSwingPoints prices (Some L) = Ok {| swingHigh := sh; swingLow := sl |} /\
    detectSwingPoints prices None =
      Ok {| swingHigh := pointHigh hg; swingLow := pointLow lg |} /\
    firstMaxHigh prices ig hg /\ firstMinLow prices jg lg /\
    ((exists i hi, bestCandidateHigh prices L i hi /\ sh = pointHigh hi) \/
     ((forall i bar, ~ candidateHigh prices L i bar) /\ sh = pointHigh hg)) /\
    ((exists j lo, bestCandidateLow prices L j lo /\ sl = pointLow lo) \/
     ((forall j bar, ~ candidateLow prices L j bar) /\ sl = pointLow lg)).
Proof.
  intros Hne Hfin.
  destruct (rolling_result prices L Hne Hfin) as (sh & sl & E & Hh & Hl).
  destruct (scan_extrema prices Hne Hfin) as (ig & hg & jg & lg & Eg & Hhg & Hlg).
  exists sh, sl, ig, hg, jg, lg.
  split; [destruct prices; [congruence|exact E]|].
  split; [destruct prices; [congruence|cbn [detectSwingPoints]; now rewrite Eg]|].
  split; [exact Hhg|]. split; [exact Hlg|]. split.
  - destruct Hh as [Hh|[Hno (i & hi & Hm & ->)]]; [left; exact Hh|right].
    split; [exact Hno|].
    now destruct (firstMaxHigh_unique _ _ _ _ _ Hm Hhg) as [_ ->].
  - destruct Hl as [Hl|[Hno (j & lo & Hm & ->)]]; [left; exact Hl|right].
    split; [exact Hno|].
    now destruct (firstMinLow_unique _ _ _ _ _ Hm Hlg) as [_ ->].
Qed.

(** Property X1. The empty check comes before the choice of mode: with no
    lookback or with a lookback that is a number of bars (0, 1, 2, ...),
    [detectSwingPoints] throws the empty-data error on an empty series and on
    no other; for every such lookback the rolling loop never reads outside
    the array and the fallback never reduces an empty array, whatever the
    prices (NaN included). *)
Theorem detectSwingPoints_throws_iff_empty (prices : list HistoricalPrice)
    (lookback : option nat) :
  (prices = [] /\ detectSwingPoints prices lookback = Throw EmptyPriceData) \/
  (prices <> [] /\ exists sw, detectSwingPoints prices lookback = Ok sw).
Proof.
  destruct prices as [|b rest]; [left; split; reflexivity|right].
  split; [discriminate|]. destruct lookback as [L|].
  - apply detectSwingPoints_rolling_total. discriminate.
  - eexists. reflexivity.
Qed.

(** Property X2. With a lookback of zero every bar is its own window, and
    the rolling mode returns what the global mode returns. *)
Theorem detectSwingPoints_lookback_zero (prices : list HistoricalPrice) :
  Forall finiteBar prices ->
  detectSwingPoints prices (Some 0%nat) = detectSwingPoints prices None.
Proof.
  intros Hfin. destruct prices as [|b0 rest] eqn:Ep; [reflexivity|].
  rewrite <- Ep in *.
  assert (Hne : prices <> []) by (rewrite Ep; discriminate).
  destruct (both_modes prices 0 Hne Hfin)
    as (sh & sl & ig & hg & jg & lg & E & Eg & Hhg & Hlg & Hh & Hl).
  rewrite E, Eg. f_equal.
  assert (Eh : sh = pointHigh hg).
  { destruct Hh as [(i & hi & [Hc Hbest] & ->)|[_ ->]]; [|reflexivity].
    assert (Hm : firstMaxHigh prices i hi).
    { destruct Hc as (_ & _ & Ei & _). split; [exact Ei|]. split.
      - intros k b Ek. apply (Hbest k b). now apply candidateHigh_zero.
      - intros k b Hk Ek. apply (Hbest k b); [now apply candidateHigh_zero|exact Hk]. }
    now destruct (firstMaxHigh_unique _ _ _ _ _ Hm Hhg) as [_ ->]. }
  assert (El : sl = pointLow lg).
  { destruct Hl as [(j & lo & [Hc Hbest] & ->)|[_ ->]]; [|reflexivity].
    assert (Hm : firstMinLow prices j lo).
    { destruct Hc as (_ & _ & Ej & _). split; [exact Ej|]. split.
      - intros k b Ek. apply (Hbest k b). now apply candidateLow_zero.
      - intros k b Hk Ek. apply (Hbest k b); [now apply candidateLow_zero|exact Hk]. }
    now destruct (firstMinLow_unique _ _ _ _ _ Hm Hlg) as [_ ->]. }
  now rewrite Eh, El.
Qed.

Lemma detectSwingPoints_lookback_zero_witness :
  detectSwingPoints tiedBars (Some 0%nat) = detectSwingPoints tiedBars None.
Proof.
  apply (detectSwingPoints_lookback_zero tiedBars). exact finiteBar_tiedBars.
Defined.

(** Property X3. When the lookback is at least half the length of the series
    there is no interior bar, both extrema fall back, and the rolling mode
    returns what the global mode returns. *)
Theorem detectSwingPoints_lookback_too_large (prices : list HistoricalPrice)
    (L : nat) :
  Forall finiteBar prices -> (List.length prices <= 2 * L)%nat ->
  detectSwingPoints prices (Some L) = detectSwingPoints prices None.
Proof.
  intros Hfin HL. destruct prices as [|b0 rest] eqn:Ep; [reflexivity|].
  rewrite <- Ep in *.
  assert (Hne : prices <> []) by (rewrite Ep; discriminate).
  destruct (both_modes prices L Hne Hfin)
    as (sh & sl & ig & hg & jg & lg & E & Eg & Hhg & Hlg & Hh & Hl).
  rewrite E, Eg. f_equal.
  destruct Hh as [(i & hi & [(H1 & H2 & _) _] & _)|[_ ->]]; [lia|].
  destruct Hl as [(j & lo & [(H1 & H2 & _) _] & _)|[_ ->]]; [lia|].
  reflexivity.
Qed.

Lemma detectSwingPoints_lookback_too_large_witness :
  detectSwingPoints tiedBars (Some 2%nat) = detectSwingPoints tiedBars None.
Proof.
  apply (detectSwingPoints_lookback_too_large tiedBars 2).
  - exact finiteBar_tiedBars.
  - cbn. lia.
Defined.

(** Property X4. The rolling mode never reaches beyond the global mode: for
    a lookback that is a number of bars (0, 1, 2, ...), its swing high is the
    high and the date of one bar of the series and is at most the global
    swing high; its swing low is the low and the date of one bar and is at
    least the global swing low. *)
Theorem detectSwingPoints_rolling_within_global (prices : list HistoricalPrice)
    (L : nat) :
  prices <> [] -> Forall finiteBar prices ->
  exists sw g i hi j lo,
    detectSwingPoints prices (Some L) = Ok sw /\
    detectSwingPoints prices None = Ok g /\
    nth_error prices i = Some hi /\ swingHigh sw = pointHigh hi /\
    nth_error prices j = Some lo /\ swingLow sw = pointLow lo /\
    (sp_price (swingHigh sw) <=? sp_price (swingHigh g)) = true /\
    (sp_price (swingLow g) <=? sp_price (swingLow sw)) = true.
Proof.
  intros Hne Hfin.
  destruct (both_modes prices L Hne Hfin)
    as (sh & sl & ig & hg & jg & lg & E & Eg & Hhg & Hlg & Hh & Hl).
  assert (Hi : exists i hi, nth_error prices i = Some hi /\ sh = pointHigh hi).
  { destruct Hh as [(i & hi & [(_ & _ & Ei & _) _] & ->)|[_ ->]]; [eauto|].
    destruct Hhg as (Ei & _). eauto. }
  assert (Hj : exists j lo, nth_error prices j = Some lo /\ sl = pointLow lo).
  { destruct Hl as [(j & lo & [(_ & _ & Ej & _) _] & ->)|[_ ->]]; [eauto|].
    destruct Hlg as (Ej & _). eauto. }
  destruct Hi as (i & hi & Ei & ->), Hj as (j & lo & Ej & ->).
  eexists _, _, i, hi, j, lo.
  split; [exact E|]. split; [exact Eg|].
  cbn [swingHigh swingLow pointHigh pointLow sp_price].
  split; [exact Ei|]. split; [reflexivity|].
  split; [exact Ej|]. split; [reflexivity|].
  split; [apply (proj1 (proj2 Hhg) i hi Ei)|apply (proj1 (proj2 Hlg) j lo Ej)].
Qed.

Lemma detectSwingPoints_rolling_within_global_witness :
  exists sw g i hi j lo,
    detectSwingPoints tiedBars (Some 1%nat) = Ok sw /\
    detectSwingPoints tiedBars None = Ok g /\
    nth_error tiedBars i = Some hi /\ swingHigh sw = pointHigh hi /\
    nth_error tiedBars j = Some lo /\ swingLow sw = pointLow lo /\
    (sp_price (swingHigh sw) <=? sp_price (swingHigh g)) = true /\
    (sp_price (swingLow g) <=? sp_price (swingLow sw)) = true.
Proof.
  apply (detectSwingPoints_rolling_within_global tiedBars 1).
  - discriminate.
  - exact finiteBar_tiedBars.
Defined.

End SwingModes.

(** ** The analysis as a whole *)

Module AnalysisFacts.

Import JS Notations Order Fib SwingFacts LevelFacts LevelBounds.
Local Open Scope string_scope.
Local Open Scope float_scope.

(** Dates in strictly ascending order, oldest bar first. *)
Definition datesAscending (prices : list HistoricalPrice) : Prop :=
  StronglySorted (fun a b => String.ltb (date a) (date b) = true) prices.

(** A bar of finite prices with [0 <= low <= high]. *)
Definition wellFormedBar (b : HistoricalPrice) : Prop :=
  finite (high b) /\ finite (low b) /\
  (0 <=? low b) = true /\ (low b <=? high b) = true.

(** The signals from worst to best. *)
Definition signalRank (s : ThemeStatus) : nat :=
  match s with danger => 0 | warning => 1 | success => 2 end.

Lemma string_ltb_irrefl (s : string) : String.ltb s s = false.
Proof.
  unfold String.ltb. pose proof (String.compare_antisym s s) as H.
  revert H. destruct (String.compare s s); cbn; intros H;
    try reflexivity; discriminate H.
Qed.

Lemma string_ltb_asym (s t : string) :
  String.ltb s t = true -> String.ltb t s = false.
Proof.
  unfold String.ltb. rewrite (String.compare_antisym t s).
  destruct (String.compare s t); cbn; intros H; try reflexivity; discriminate H.
Qed.

Lemma sorted_nth {A} (R : A -> A -> Prop) (l : list A) :
  StronglySorted R l ->
  forall i j a b, (i < j)%nat ->
    nth_error l i = Some a -> nth_error l j = Some b -> R a b.
Proof.
  induction 1 as [|x l Hs IH Hall]; intros i j a b Hij Ei Ej.
  - destruct i; discriminate.
  - destruct j as [|j]; [lia|]. cbn [nth_error] in Ej.
    destruct i as [|i]; cbn [nth_error] in Ei.
    + injection Ei as <-. rewrite Forall_forall in Hall.
      apply Hall. eapply nth_error_In, Ej.
    + apply (IH i j); [lia|assumption..].
Qed.

Lemma wellFormed_finite (prices : list HistoricalPrice) :
  Forall wellFormedBar prices -> Forall finiteBar prices.
Proof. apply Forall_impl. intros b (H1 & H2 & _). now split. Qed.

(** The analysis of a non-empty series of finite bars, opened up. *)
Lemma analyzeTicker_unfold (prices : list HistoricalPrice) (cp : number) :
  prices <> [] -> Forall finiteBar prices ->
  exists i hi j lo,
    firstMaxHigh prices i hi /\ firstMinLow prices j lo /\
    let t := detectTrend {| swingHigh := pointHigh hi; swingLow := pointLow lo |} in
    let shallow := round2 (rawLevel (high hi) (low lo) t 0.236) in
    let golden := round2 (rawLevel (high hi) (low lo) t 0.618) in
    exists reason,
    analyzeTicker prices cp =
      Ok {| trend := t;
            trendFriendly :=
              match t with uptrend => "Growth Era" | downtrend => "Cooling Off" end;
            fl_high := pointHigh hi;
            fl_low := pointLow lo;
            range := round2 (high hi - low lo);
            levels := calculateFibLevels (high hi) (low lo) t;
            currentPrice := cp;
            signal := signalRule t shallow golden cp;
            signalReason := reason |}.
Proof.
  intros Hne Hfin.
  destruct (scan_extrema prices Hne Hfin) as (i & hi & j & lo & E & Hhi & Hlo).
  exists i, hi, j, lo. split; [exact Hhi|]. split; [exact Hlo|]. cbv zeta.
  unfold analyzeTicker. destruct prices as [|b0 rest]; [congruence|].
  cbn [detectSwingPoints bind]. rewrite E.
  cbn [swingHigh swingLow pointHigh pointLow sp_price].
  set (t := detectTrend _).
  pose proof (determineSignal_rule (high hi) (low lo) t t cp) as Hs.
  cbv zeta in Hs. unfold signalAt in Hs.
  destruct (determineSignal cp (calculateFibLevels (high hi) (low lo) t) t)
    as [[s reason]|e]; [|discriminate].
  cbn [bind fst snd] in *. injection Hs as ->.
  exists reason. reflexivity.
Qed.

(** Property X5. On a series whose dates ascend, the trend is an uptrend
    exactly when the floor (the first bar of lowest low) comes before the
    peak (the first bar of highest high), and a downtrend otherwise, the
    case of one bar being both included. *)
Theorem analyzeTicker_trend (prices : list HistoricalPrice) (cp : number) :
  prices <> [] -> Forall finiteBar prices -> datesAscending prices ->
  exists r i hi j lo,
    analyzeTicker prices cp = Ok r /\
    firstMaxHigh prices i hi /\ firstMinLow prices j lo /\
    fl_high r = pointHigh hi /\ fl_low r = pointLow lo /\
    (trend r = uptrend <-> (j < i)%nat) /\
    (trend r = downtrend <-> (i <= j)%nat).
Proof.
  intros Hne Hfin Hasc.
  destruct (analyzeTicker_unfold prices cp Hne Hfin)
    as (i & hi & j & lo & Hhi & Hlo & reason & E).
  eexists _, i, hi, j, lo. split; [exact E|].
  split; [exact Hhi|]. split; [exact Hlo|].
  cbn [fl_high fl_low trend]. split; [reflexivity|]. split; [reflexivity|].
  unfold detectTrend. cbn [swingHigh swingLow pointHigh pointLow sp_date].
  destruct Hhi as (Ei & _), Hlo as (Ej & _).
  destruct (Nat.lt_trichotomy j i) as [Hlt|[->|Hgt]].
  - rewrite (sorted_nth _ _ Hasc j i lo hi Hlt Ej Ei). split; split; intros; try lia; congruence.
  - assert (hi = lo) as -> by congruence. rewrite string_ltb_irrefl.
    split; split; intros; try lia; congruence.
  - rewrite (string_ltb_asym _ _ (sorted_nth _ _ Hasc i j hi lo Hgt Ei Ej)).
    split; split; intros; try lia; congruence.
Qed.

Fixpoint datesAscendingb (prices : list HistoricalPrice) : bool :=
  match prices with
  | [] => true
  | b :: rest =>
      forallb (fun b' => String.ltb (date b) (date b')) rest
      && datesAscendingb rest
  end.

Lemma datesAscendingb_sound (prices : list HistoricalPrice) :
  datesAscendingb prices = true -> datesAscending prices.
Proof.
  induction prices as [|b rest IH]; intros H; constructor.
  - apply IH. cbn [datesAscendingb] in H. now apply andb_true_iff in H.
  - cbn [datesAscendingb] in H. apply andb_true_iff in H as [H _].
    rewrite forallb_forall in H. apply Forall_forall. exact H.
Qed.

Lemma datesAscending_tiedBars : datesAscending tiedBars.
Proof. apply datesAscendingb_sound. reflexivity. Qed.

Lemma analyzeTicker_trend_witness :
  exists r i hi j lo,
    analyzeTicker tiedBars 10 = Ok r /\
    firstMaxHigh tiedBars i hi /\ firstMinLow tiedBars j lo /\
    fl_high r = pointHigh hi /\ fl_low r = pointLow lo /\
    (trend r = uptrend <-> (j < i)%nat) /\
    (trend r = downtrend <-> (i <= j)%nat).
Proof.
  apply (analyzeTicker_trend tiedBars 10).
  - discriminate.
  - exact finiteBar_tiedBars.
  - exact datesAscending_tiedBars.
Defined.

(** The five levels of finite swing prices [0 <= low <= high]. *)
Lemma levels_between (high low : number) (trend : TrendDirection) :
  nn high -> nn low -> (fval low <= fval high)%Z ->
  let ps := map price (calculateFibLevels high low trend) in
  Forall (fun p => (round2 low <=? p) = true /\ (p <=? round2 high) = true) ps /\
  StronglySorted (priceOrder trend) ps.
Proof.
  intros Hh Hl Hle.
  pose proof smallRatio_table as Hs. pose proof ratio_table_ascending as Ha.
  cbv zeta.
  change (map price (calculateFibLevels high low trend))
    with (map (fun r => round2 (rawLevel high low trend r))
              (map fr_ratio FIB_RATIOS)).
  set (rs := map fr_ratio FIB_RATIOS) in *. clearbody rs.
  induction Ha as [|r rs' Hsorted IH Hall]; cbn [map].
  - split; constructor.
  - inversion Hs as [|? ? Hr Hs']; subst.
    destruct (IH Hs') as [IH1 IH2].
    split.
    + constructor; [|exact IH1].
      apply (level_in_range high low r trend); assumption.
    + constructor; [exact IH2|].
      apply Forall_forall. intros p Hp. apply in_map_iff in Hp as (r' & <- & Hr').
      rewrite Forall_forall in Hall, Hs'.
      apply level_pair; auto.
Qed.

(** The floor and the peak of a series of well-formed bars. *)
Lemma extrema_wellFormed (prices : list HistoricalPrice) (i j : nat)
    (hi lo : HistoricalPrice) :
  Forall wellFormedBar prices ->
  firstMaxHigh prices i hi -> firstMinLow prices j lo ->
  nn (high hi) /\ nn (low lo) /\ (fval (low lo) <= fval (high hi))%Z.
Proof.
  intros Hwf (Ei & Hmax & _) (Ej & Hmin & _).
  rewrite Forall_forall in Hwf.
  destruct (Hwf hi (nth_error_In _ _ Ei)) as (Fh & _ & H0 & Hlh).
  destruct (Hwf lo (nth_error_In _ _ Ej)) as (_ & Fl & H0' & _).
  assert (Hl : nn (low lo)) by (apply nn_intro; assumption).
  assert (Hh : nn (high hi)).
  { apply nn_intro; [assumption|]. exact (leb_trans _ _ _ H0 Hlh). }
  split; [exact Hh|]. split; [exact Hl|].
  apply leb_fval; [assumption..|].
  exact (leb_trans _ _ _ (Hmin i hi Ei) Hlh).
Qed.

(** Property X6. For a series of well-formed bars, every level of the
    analysis lies between the floor and the peak, both rounded to cents, the
    level prices follow the ratios (downward from the peak in an uptrend,
    upward from the floor in a downtrend), and the reported range is not
    negative. *)
Theorem analyzeTicker_levels_between_floor_and_peak
    (prices : list HistoricalPrice) (cp : number) :
  prices <> [] -> Forall wellFormedBar prices ->
  exists r,
    analyzeTicker prices cp = Ok r /\
    Forall (fun l =>
              (round2 (sp_price (fl_low r)) <=? price l) = true /\
              (price l <=? round2 (sp_price (fl_high r))) = true) (levels r) /\
    StronglySorted (priceOrder (trend r)) (map price (levels r)) /\
    (0 <=? range r) = true.
Proof.
  intros Hne Hwf.
  destruct (analyzeTicker_unfold prices cp Hne (wellFormed_finite _ Hwf))
    as (i & hi & j & lo & Hhi & Hlo & reason & E).
  destruct (extrema_wellFormed prices i j hi lo Hwf Hhi Hlo) as (Hh & Hl & Hle).
  eexists. split; [exact E|].
  cbn [fl_high fl_low trend levels range pointHigh pointLow sp_price].
  set (t := detectTrend _).
  destruct (levels_between (high hi) (low lo) t Hh Hl Hle) as [H1 H2].
  split; [|split; [exact H2|]].
  - rewrite Forall_map in H1. exact H1.
  - destruct (retracement_facts (high hi) (low lo) 0.5) as (Hd & _);
      [assumption..|apply smallRatio_intro; vm_compute; reflexivity|].
    change 0 with (round2 0).
    apply round2_mono; [exact I|exact Hd|]. now apply fval_nonneg.
Qed.

Lemma wellFormedBar_tiedBars : Forall wellFormedBar tiedBars.
Proof. repeat constructor. Qed.

Lemma analyzeTicker_levels_between_floor_and_peak_witness :
  exists r,
    analyzeTicker tiedBars 10 = Ok r /\
    Forall (fun l =>
              (round2 (sp_price (fl_low r)) <=? price l) = true /\
              (price l <=? round2 (sp_price (fl_high r))) = true) (levels r) /\
    StronglySorted (priceOrder (trend r)) (map price (levels r)) /\
    (0 <=? range r) = true.
Proof.
  apply (analyzeTicker_levels_between_floor_and_peak tiedBars 10).
  - discriminate.
  - exact wellFormedBar_tiedBars.
Defined.

Lemma ltb_leb_false (x y : number) : (x <? y) = true -> (y <=? x) = false.
Proof. order. Qed.

(** Property X7. Beyond the range the signal does not depend on the trend: a
    current price above the peak (rounded to cents) is favorable, one below
    the floor (rounded to cents) is unfavorable. *)
Theorem analyzeTicker_signal_outside_range (prices : list HistoricalPrice)
    (cp : number) :
  prices <> [] -> Forall wellFormedBar prices ->
  exists r,
    analyzeTicker prices cp = Ok r /\
    ((round2 (sp_price (fl_high r)) <? cp) = true -> signal r = success) /\
    ((cp <? round2 (sp_price (fl_low r))) = true -> signal r = danger).
Proof.
  intros Hne Hwf.
  destruct (analyzeTicker_unfold prices cp Hne (wellFormed_finite _ Hwf))
    as (i & hi & j & lo & Hhi & Hlo & reason & E).
  destruct (extrema_wellFormed prices i j hi lo Hwf Hhi Hlo) as (Hh & Hl & Hle).
  eexists. split; [exact E|].
  cbn [fl_high fl_low signal pointHigh pointLow sp_price].
  set (t := detectTrend _).
  destruct (level_in_range (high hi) (low lo) 0.236 t Hh Hl Hle) as [S1 S2];
    [apply smallRatio_intro; vm_compute; reflexivity|].
  destruct (level_in_range (high hi) (low lo) 0.618 t Hh Hl Hle) as [G1 G2];
    [apply smallRatio_intro; vm_compute; reflexivity|].
  set (shallow := round2 (rawLevel (high hi) (low lo) t 0.236)) in *.
  set (golden := round2 (rawLevel (high hi) (low lo) t 0.618)) in *.
  set (top := round2 (high hi)) in *. set (bottom := round2 (low lo)) in *.
  clearbody shallow golden top bottom.
  unfold signalRule, geb. split; intros Hcp; destruct t.
  - rewrite (leb_trans _ _ _ S2 (ltb_leb _ _ Hcp)). reflexivity.
  - rewrite (ltb_leb_false _ _ (leb_ltb_trans _ _ _ S2 Hcp)).
    rewrite (ltb_leb_false _ _ (leb_ltb_trans _ _ _ G2 Hcp)). reflexivity.
  - rewrite (ltb_leb_false _ _ (ltb_leb_trans _ _ _ Hcp S1)).
    rewrite (ltb_leb_false _ _ (ltb_leb_trans _ _ _ Hcp G1)). reflexivity.
  - rewrite (leb_trans _ _ _ (ltb_leb _ _ Hcp) S1). reflexivity.
Qed.

Lemma analyzeTicker_signal_outside_range_witness :
  exists r,
    analyzeTicker tiedBars 13 = Ok r /\
    ((round2 (sp_price (fl_high r)) <? 13) = true -> signal r = success) /\
    ((13 <? round2 (sp_price (fl_low r))) = true -> signal r = danger).
Proof.
  apply (analyzeTicker_signal_outside_range tiedBars 13).
  - discriminate.
  - exact wellFormedBar_tiedBars.
Defined.

Lemma signalRule_monotone (trend : TrendDirection) (shallow golden a b : number) :
  (a <=? b) = true ->
  (signalRank (signalRule trend shallow golden a) <=
   signalRank (signalRule trend shallow golden b))%nat.
Proof.
  intros Hab. unfold signalRule, geb. destruct trend.
  - assert (M1 : (shallow <=? a) = true -> (shallow <=? b) = true)
      by (intros H; exact (leb_trans _ _ _ H Hab)).
    assert (M2 : (golden <=? a) = true -> (golden <=? b) = true)
      by (intros H; exact (leb_trans _ _ _ H Hab)).
    destruct (shallow <=? a), (golden <=? a), (shallow <=? b), (golden <=? b);
      cbn; try lia; try discriminate (M1 eq_refl); discriminate (M2 eq_refl).
  - assert (M1 : (b <=? shallow) = true -> (a <=? shallow) = true)
      by (intros H; exact (leb_trans _ _ _ Hab H)).
    assert (M2 : (b <=? golden) = true -> (a <=? golden) = true)
      by (intros H; exact (leb_trans _ _ _ Hab H)).
    destruct (a <=? shallow), (a <=? golden), (b <=? shallow), (b <=? golden);
      cbn; try lia; try discriminate (M1 eq_refl); discriminate (M2 eq_refl).
Qed.

(** Property X8. For one and the same series, a higher current price never
    gives a worse signal: the levels and the trend do not depend on the
    current price, and the signal goes from unfavorable over caution to
    favorable as the price rises. No assumption on the numbers of the
    series. *)
Theorem analyzeTicker_signal_monotone (prices : list HistoricalPrice)
    (a b : number) :
  prices <> [] -> (a <=? b) = true ->
  exists ra rb,
    analyzeTicker prices a = Ok ra /\ analyzeTicker prices b = Ok rb /\
    trend ra = trend rb /\ levels ra = levels rb /\
    (signalRank (signal ra) <= signalRank (signal rb))%nat.
Proof.
  intros Hne Hab. unfold analyzeTicker.
  destruct prices as [|b0 rest]; [congruence|].
  cbn [detectSwingPoints bind].
  set (swing := fold_left scanBar (b0 :: rest) noSwing).
  set (t := detectTrend swing).
  pose proof (determineSignal_rule (sp_price (swingHigh swing))
                (sp_price (swingLow swing)) t t) as Hs.
  cbv zeta in Hs. unfold signalAt in Hs.
  pose proof (Hs a) as Ha. pose proof (Hs b) as Hb.
  destruct (determineSignal a _ t) as [[sa ra]|e]; [|discriminate].
  destruct (determineSignal b _ t) as [[sb rb]|e]; [|discriminate].
  cbn [bind fst snd] in *. injection Ha as ->. injection Hb as ->.
  eexists _, _. split; [reflexivity|]. split; [reflexivity|].
  cbn [trend levels signal]. split; [reflexivity|]. split; [reflexivity|].
  now apply signalRule_monotone.
Qed.

Lemma analyzeTicker_signal_monotone_witness :
  exists ra rb,
    analyzeTicker tiedBars 9 = Ok ra /\ analyzeTicker tiedBars 11 = Ok rb /\
    trend ra = trend rb /\ levels ra = levels rb /\
    (signalRank (signal ra) <= signalRank (signal rb))%nat.
Proof.
  apply (analyzeTicker_signal_monotone tiedBars 9 11).
  - discriminate.
  - reflexivity.
Defined.

End AnalysisFacts.

(** ** The walk of the backtest, touch by touch *)

Module WalkFacts.

Import JS Notations Order Fib Backtest BacktestFacts.
Local Open Scope string_scope.
Local Open Scope float_scope.

(** The touch that the loop records at index [i], when it records one. *)
Definition touchAt (prices : list HistoricalPrice) (i : nat) (t : GoldenTouch)
    : Prop :=
  exists bar futureBar swing,
    nth_error prices i = Some bar /\
    nth_error prices (i + OUTCOME_HORIZON) = Some futureBar /\
    detectSwingPoints (slice (i - SWING_WINDOW) i prices) (Some SWING_LOOKBACK)
      = Ok swing /\
    let trend := detectTrend swing in
    let golden :=
      parseFloat (toFixed (rawLevel (sp_price (swingHigh swing))
                             (sp_price (swingLow swing)) trend 0.618) 2) in
    let range := sp_price (swingHigh swing) - sp_price (swingLow swing) in
    let pctChange := ((close futureBar - close bar) / close bar) * 100 in
    (range <=? 0) = false /\
    gtb (abs (close bar - golden)) (range * TOUCH_TOLERANCE) = false /\
    t = {| gt_date := date bar;
           touchPrice := close bar;
           goldenLevelPrice := golden;
           gt_trend := trend;
           priceAfter30 := close futureBar;
           percentChange := parseFloat (toFixed pctChange 2);
           outcome :=
             match trend with
             | uptrend => if gtb pctChange 0 then touchSuccess else touchFail
             | downtrend => if pctChange <? 0 then touchSuccess else touchFail
             end |}.

(** Every logged touch was recorded inside the range walked. *)
Definition logged (prices : list HistoricalPrice) (st : WalkState) : Prop :=
  forall i t, In (i, t) (touchLog st) ->
    (SWING_WINDOW <= i)%nat /\
    (i + OUTCOME_HORIZON < List.length prices)%nat /\
    touchAt prices i t.

(** One turn of the loop, with the touch it records. *)
Lemma walkBar_touch (prices : list HistoricalPrice) (st : WalkState) (i : nat) :
  (SWING_WINDOW <= i)%nat -> (i + OUTCOME_HORIZON < List.length prices)%nat ->
  exists st', walkBar prices (Ok st) i = Ok st' /\
    (st' = st \/
     (inCooldown i (lastTouchIndex st) = false /\
      exists t, touchAt prices i t /\
                st' = {| touchLog := touchLog st ++ [(i, t)];
                         lastTouchIndex := Some i |})).
Proof.
  intros H1 H2. unfold walkBar. cbn [bind].
  destruct (inCooldown i (lastTouchIndex st)) eqn:Hcool;
    [exists st; split; [reflexivity|now left]|].
  destruct (SwingFacts.detectSwingPoints_rolling_total
              (slice (i - SWING_WINDOW) i prices) SWING_LOOKBACK)
    as [swing Esw]; [apply slice_window_nonempty; lia|].
  rewrite Esw. cbn [bind].
  destruct (LevelFacts.calculateFibLevels_golden
              (sp_price (swingHigh swing)) (sp_price (swingLow swing))
              (detectTrend swing)) as (g & -> & _ & _ & Eg).
  destruct (nth_error prices i) as [bar|] eqn:Ei;
    [|apply nth_error_None in Ei; lia].
  destruct (nth_error prices (i + OUTCOME_HORIZON)) as [futureBar|] eqn:Ef;
    [|apply nth_error_None in Ef; lia].
  unfold index. rewrite Ei, Ef. cbn [bind].
  destruct (_ <=? 0) eqn:Er; [exists st; split; [reflexivity|now left]|].
  destruct (gtb _ _) eqn:Ed; [exists st; split; [reflexivity|now left]|].
  eexists. split; [reflexivity|]. right. split; [reflexivity|].
  eexists. split; [|reflexivity].
  exists bar, futureBar, swing. cbv zeta. rewrite <- Eg.
  repeat split; assumption.
Qed.

Lemma logged_push (prices : list HistoricalPrice) (st : WalkState) (i : nat)
    (t : GoldenTouch) :
  logged prices st ->
  (SWING_WINDOW <= i)%nat -> (i + OUTCOME_HORIZON < List.length prices)%nat ->
  touchAt prices i t ->
  logged prices {| touchLog := touchLog st ++ [(i, t)]; lastTouchIndex := Some i |}.
Proof.
  intros Hl H1 H2 Ht k tk Hin. cbn [touchLog] in Hin.
  apply in_app_or in Hin as [Hin|[E|[]]]; [now apply Hl|].
  injection E as <- <-. auto.
Qed.

(** The loop over indices of the range walked: it does not throw, it keeps
    the spacing of the log, what it logs are touches, and it only appends. *)
Lemma walk_fold_logged (prices : list HistoricalPrice) (idxs : list nat) :
  (forall i, In i idxs ->
     (SWING_WINDOW <= i)%nat /\ (i + OUTCOME_HORIZON < List.length prices)%nat) ->
  forall st, walkInv st -> logged prices st ->
  exists st' later,
    fold_left (walkBar prices) idxs (Ok st) = Ok st' /\
    walkInv st' /\ logged prices st' /\
    touchLog st' = (touchLog st ++ later)%list.
Proof.
  induction idxs as [|i idxs IH]; intros Hin st Hinv Hlog.
  - exists st, []. rewrite app_nil_r. auto.
  - cbn [fold_left].
    destruct (Hin i (or_introl eq_refl)) as [H1 H2].
    destruct (walkBar_touch prices st i H1 H2) as (st1 & -> & Hst1).
    assert (Hin' : forall k, In k idxs ->
              (SWING_WINDOW <= k)%nat /\ (k + OUTCOME_HORIZON < List.length prices)%nat)
      by (intros k Hk; apply Hin; now right).
    destruct Hst1 as [->|(Hcool & t & Ht & ->)]; [now apply IH|].
    destruct (IH Hin' _ (walkInv_push st i t Hinv Hcool)
                (logged_push prices st i t Hlog H1 H2 Ht))
      as (st' & later & E & Hinv' & Hlog' & Elog).
    exists st', ((i, t) :: later). split; [exact E|]. split; [exact Hinv'|].
    split; [exact Hlog'|]. rewrite Elog. cbn [touchLog].
    now rewrite <- app_assoc.
Qed.

Lemma walkRange_bounds (n i : nat) :
  In i (walkRange n) ->
  (SWING_WINDOW <= i)%nat /\ (i + OUTCOME_HORIZON < n)%nat.
Proof.
  unfold walkRange. intros Hi. apply in_seq in Hi.
  unfold SWING_WINDOW, OUTCOME_HORIZON in *. lia.
Qed.

Lemma logged_init (prices : list HistoricalPrice) :
  logged prices {| touchLog := []; lastTouchIndex := None |}.
Proof. intros i t []. Qed.

Lemma walk_logged (prices : list HistoricalPrice) :
  exists st, walk prices = Ok st /\ walkInv st /\ logged prices st.
Proof.
  destruct (walk_fold_logged prices (walkRange (List.length prices))
              (walkRange_bounds _) _ walkInv_init (logged_init prices))
    as (st & later & E & Hinv & Hlog & _).
  exists st. auto.
Qed.

(** The result of the backtest, in terms of the log of the walk. *)
Lemma backtest_log (prices : list HistoricalPrice) :
  exists st r,
    walk prices = Ok st /\ backtestGoldenZone prices = Ok r /\
    touches r = map snd (touchLog st) /\ walkInv st /\ logged prices st.
Proof.
  destruct (walk_logged prices) as (st & E & Hinv & Hlog).
  exists st. eexists. split; [exact E|].
  unfold backtestGoldenZone. rewrite E. cbn [bind].
  split; [reflexivity|]. split; [reflexivity|]. auto.
Qed.

(** Property X9. Every recorded touch belongs to a bar that has 120 bars
    before it and 30 bars after it: its date and touch price are those of
    that bar, and its 30-day price is the close of the bar 30 places later. *)
Theorem backtest_touch_provenance (prices : list HistoricalPrice) :
  exists st r,
    walk prices = Ok st /\ backtestGoldenZone prices = Ok r /\
    touches r = map snd (touchLog st) /\
    forall i t, In (i, t) (touchLog st) ->
      (SWING_WINDOW <= i)%nat /\
      (i + OUTCOME_HORIZON < List.length prices)%nat /\
      exists bar futureBar,
        nth_error prices i = Some bar /\
        nth_error prices (i + OUTCOME_HORIZON) = Some futureBar /\
        gt_date t = date bar /\ touchPrice t = close bar /\
        priceAfter30 t = close futureBar.
Proof.
  destruct (backtest_log prices) as (st & r & E & Er & Et & _ & Hlog).
  exists st, r. split; [exact E|]. split; [exact Er|]. split; [exact Et|].
  intros i t Hin. destruct (Hlog i t Hin) as (H1 & H2 & Ht).
  split; [exact H1|]. split; [exact H2|].
  destruct Ht as (bar & futureBar & swing & Ei & Ef & _ & _ & _ & ->).
  exists bar, futureBar. repeat split; assumption.
Qed.

(** Property X10. Every recorded touch is a touch: the swing points of the
    120 bars before its bar, found with a lookback of 10, have a range that
    is not zero or negative; the touch carries their trend and their 61.8 %
    level; and the close of its bar is not farther from that level than 1.5
    % of the range. The bar itself and the bars after it play no part in the
    level. *)
Theorem backtest_touch_condition (prices : list HistoricalPrice) :
  exists st r,
    walk prices = Ok st /\ backtestGoldenZone prices = Ok r /\
    touches r = map snd (touchLog st) /\
    forall i t, In (i, t) (touchLog st) ->
      exists swing,
        detectSwingPoints (slice (i - SWING_WINDOW) i prices)
          (Some SWING_LOOKBACK) = Ok swing /\
        let range := sp_price (swingHigh swing) - sp_price (swingLow swing) in
        gt_trend t = detectTrend swing /\
        goldenLevelPrice t =
          parseFloat (toFixed (rawLevel (sp_price (swingHigh swing))
                                 (sp_price (swingLow swing)) (gt_trend t) 0.618) 2) /\
        (range <=? 0) = false /\
        (range * TOUCH_TOLERANCE <? abs (touchPrice t - goldenLevelPrice t)) = false.
Proof.
  destruct (backtest_log prices) as (st & r & E & Er & Et & _ & Hlog).
  exists st, r. split; [exact E|]. split; [exact Er|]. split; [exact Et|].
  intros i t Hin. destruct (Hlog i t Hin) as (_ & _ & Ht).
  destruct Ht as (bar & futureBar & swing & _ & _ & Esw & Hr & Hd & ->).
  exists swing. split; [exact Esw|]. cbv zeta.
  cbn [gt_trend goldenLevelPrice touchPrice].
  repeat split; assumption.
Qed.

(** Property X11. Every recorded touch is consistent in itself: its percent
    change is the change from the touch price to the 30-day price, in
    percent and rounded to 2 decimals, and its outcome is a success exactly
    when that change (before rounding) is positive in an uptrend, negative
    in a downtrend. *)
Theorem backtest_touch_outcome (prices : list HistoricalPrice) :
  exists r,
    backtestGoldenZone prices = Ok r /\
    forall t, In t (touches r) ->
      let pctChange := ((priceAfter30 t - touchPrice t) / touchPrice t) * 100 in
      percentChange t = parseFloat (toFixed pctChange 2) /\
      outcome t =
        match gt_trend t with
        | uptrend => if 0 <? pctChange then touchSuccess else touchFail
        | downtrend => if pctChange <? 0 then touchSuccess else touchFail
        end.
Proof.
  destruct (backtest_log prices) as (st & r & E & Er & Et & _ & Hlog).
  exists r. split; [exact Er|].
  intros t Hin. rewrite Et in Hin. apply in_map_iff in Hin as ([i t'] & <- & Hin).
  destruct (Hlog i t' Hin) as (_ & _ & Ht).
  destruct Ht as (bar & futureBar & swing & _ & _ & _ & _ & _ & ->).
  cbn [snd priceAfter30 touchPrice percentChange outcome gt_trend].
  split; reflexivity.
Qed.

(** A touch is never earlier in the log than ten bars per touch before it. *)
Lemma spaced_index (log : list (nat * GoldenTouch)) :
  spaced log ->
  (forall i t, In (i, t) log -> (SWING_WINDOW <= i)%nat) ->
  forall p i t, nth_error log p = Some (i, t) ->
    (SWING_WINDOW + COOLDOWN_BARS * p <= i)%nat.
Proof.
  intros Hsp Hlo. induction p as [|p IH]; intros i t Hp.
  - pose proof (Hlo i t (nth_error_In _ _ Hp)). lia.
  - destruct (nth_error log p) as [[j tj]|] eqn:Ej.
    + pose proof (IH j tj eq_refl).
      pose proof (Hsp p (S p) j i tj t ltac:(lia) Ej Hp). lia.
    + apply nth_error_None in Ej.
      assert (S p < List.length log)%nat by (apply nth_error_Some; congruence).
      lia.
Qed.

Lemma log_count (prices : list HistoricalPrice) (st : WalkState) :
  walkInv st -> logged prices st ->
  (COOLDOWN_BARS * List.length (touchLog st) <= List.length prices - 141)%nat.
Proof.
  intros [Hsp _] Hlog.
  destruct (List.length (touchLog st)) as [|p] eqn:Elen; [lia|].
  destruct (nth_error (touchLog st) p) as [[i t]|] eqn:Ep;
    [|apply nth_error_None in Ep; lia].
  pose proof (spaced_index _ Hsp (fun i t H => proj1 (Hlog i t H)) p i t Ep).
  destruct (Hlog i t (nth_error_In _ _ Ep)) as (_ & H2 & _).
  unfold SWING_WINDOW, COOLDOWN_BARS, OUTCOME_HORIZON in *. lia.
Qed.

(** Property X12. There is at most one touch per ten bars of the range
    walked: the number of touches, times ten, is at most the length of the
    series minus 141. *)
Theorem backtest_touch_count (prices : list HistoricalPrice) :
  exists r,
    backtestGoldenZone prices = Ok r /\
    (COOLDOWN_BARS * List.length (touches r) <= List.length prices - 141)%nat.
Proof.
  destruct (backtest_log prices) as (st & r & E & Er & Et & Hinv & Hlog).
  exists r. split; [exact Er|]. rewrite Et, length_map.
  now apply log_count.
Qed.

Lemma slice_app_within {A} (s e : nat) (l more : list A) :
  (e <= List.length l)%nat -> slice s e (l ++ more) = slice s e l.
Proof.
  intros He. unfold slice.
  destruct (Nat.le_gt_cases s e) as [Hse|Hse].
  - rewrite skipn_app.
    replace (s - List.length l)%nat with 0%nat by lia. cbn [skipn].
    rewrite firstn_app, length_skipn.
    replace (e - s - (List.length l - s))%nat with 0%nat by lia.
    cbn [firstn]. apply app_nil_r.
  - replace (e - s)%nat with 0%nat by lia. reflexivity.
Qed.

(** A turn of the loop reads no bar beyond index [i + 30]. *)
Lemma walkBar_app (prices more : list HistoricalPrice)
    (st : result WalkState) (i : nat) :
  (i + OUTCOME_HORIZON < List.length prices)%nat ->
  walkBar (prices ++ more) st i = walkBar prices st i.
Proof.
  intros Hi. unfold walkBar, index.
  rewrite slice_app_within by lia.
  rewrite !nth_error_app1 by lia. reflexivity.
Qed.

Lemma touchAt_app (prices more : list HistoricalPrice) (i : nat)
    (t : GoldenTouch) :
  (i + OUTCOME_HORIZON < List.length prices)%nat ->
  touchAt prices i t -> touchAt (prices ++ more) i t.
Proof.
  intros Hi (bar & futureBar & swing & Ei & Ef & Esw & H).
  exists bar, futureBar, swing.
  rewrite slice_app_within by lia. rewrite !nth_error_app1 by lia. auto.
Qed.

Lemma fold_left_ext_in {A B} (f g : A -> B -> A) (l : list B) :
  (forall a b, In b l -> f a b = g a b) ->
  forall a, fold_left f l a = fold_left g l a.
Proof.
  induction l as [|b l IH]; intros H a; [reflexivity|].
  cbn [fold_left]. rewrite (H a b (or_introl eq_refl)).
  apply IH. intros a' b' Hb'. apply H. now right.
Qed.

Lemma walkRange_app (n k : nat) :
  exists tail, walkRange (n + k) = (walkRange n ++ tail)%list /\
    forall i, In i tail ->
      (SWING_WINDOW <= i)%nat /\ (i + OUTCOME_HORIZON < n + k)%nat.
Proof.
  unfold walkRange.
  set (a := (n - OUTCOME_HORIZON - SWING_WINDOW)%nat).
  set (c := (n + k - OUTCOME_HORIZON - SWING_WINDOW)%nat).
  exists (seq (SWING_WINDOW + a) (c - a)). split.
  - rewrite <- seq_app. f_equal. subst a c. lia.
  - intros i Hi. apply in_seq in Hi.
    subst a c. unfold SWING_WINDOW, OUTCOME_HORIZON in *. lia.
Qed.

(** Property X13. New bars never rewrite history: the touches of a series
    are the first touches of every series that continues it. *)
Theorem backtest_append_stable (prices more : list HistoricalPrice) :
  exists r r' later,
    backtestGoldenZone prices = Ok r /\
    backtestGoldenZone (prices ++ more) = Ok r' /\
    touches r' = (touches r ++ later)%list.
Proof.
  destruct (backtest_log prices) as (st & r & E & Er & Et & Hinv & Hlog).
  destruct (walkRange_app (List.length prices) (List.length more))
    as (tail & Erange & Htail).
  assert (Hlog' : logged (prices ++ more) st).
  { intros i t Hin. destruct (Hlog i t Hin) as (H1 & H2 & Ht).
    rewrite length_app. split; [exact H1|]. split; [lia|].
    now apply touchAt_app. }
  destruct (walk_fold_logged (prices ++ more) tail) with (st := st)
    as (st' & later & E' & _ & _ & Elog); [|exact Hinv|exact Hlog'|].
  { intros i Hi. rewrite length_app. now apply Htail. }
  assert (Ew : walk (prices ++ more) = Ok st').
  { unfold walk. rewrite length_app, Erange, fold_left_app.
    rewrite (fold_left_ext_in (walkBar (prices ++ more)) (walkBar prices)
               (walkRange (List.length prices))).
    - fold (walk prices). rewrite E. exact E'.
    - intros a i Hi. apply walkBar_app. now apply walkRange_bounds. }
  exists r. eexists. exists (map snd later). split; [exact Er|].
  unfold backtestGoldenZone at 1. rewrite Ew. cbn [bind].
  split; [reflexivity|]. cbn [touches].
  now rewrite Elog, map_app, Et.
Qed.

Lemma finite_sub_self (c : number) : finite c -> (c - c <=? 0) = true.
Proof.
  intros Hc. rewrite leb_spec, sub_spec.
  change (Prim2SF 0) with (S754_zero false).
  apply finite_key in Hc as [Ho Hk]. apply ordered_spec in Ho.
  unfold key in Hk.
  destruct (Prim2SF c) as [sg|sg| |sg m e];
    [|destruct sg; cbn in Hk; lia|congruence|].
  - destruct sg; reflexivity.
  - unfold SF64sub, SFsub. cbv zeta.
    match goal with
    | |- context [binary_normalize _ _ ?d _ _] =>
        replace d with 0%Z by (symmetry; apply Z.sub_diag)
    end.
    reflexivity.
Qed.

(** The swing points of a window of bars that all have the same high and
    the same low. *)
Lemma rolling_constant (window : list HistoricalPrice) (L : nat) (c : number)
    (swing : SwingPoints) :
  finite c -> Forall (fun b => high b = c /\ low b = c) window ->
  detectSwingPoints window (Some L) = Ok swing ->
  sp_price (swingHigh swing) = c /\ sp_price (swingLow swing) = c.
Proof.
  intros Hc Hall E.
  assert (Hne : window <> []) by (intros ->; discriminate).
  assert (Hfin : Forall SwingFacts.finiteBar window).
  { eapply Forall_impl; [|exact Hall]. intros b [E1 E2].
    split; [rewrite E1|rewrite E2]; exact Hc. }
  destruct (SwingFacts.rolling_result window L Hne Hfin)
    as (sh & sl & E' & Hh & Hl).
  destruct window as [|b0 rest]; [congruence|].
  cbn [detectSwingPoints] in E. rewrite E' in E. injection E as <-.
  cbn [swingHigh swingLow]. rewrite Forall_forall in Hall. split.
  - destruct Hh as [(i & hi & [(_ & _ & Ei & _) _] & ->)
                   |[_ (i & hi & (Ei & _) & ->)]];
      apply (Hall hi (nth_error_In _ _ Ei)).
  - destruct Hl as [(j & lo & [(_ & _ & Ej & _) _] & ->)
                   |[_ (j & lo & (Ej & _) & ->)]];
      apply (Hall lo (nth_error_In _ _ Ej)).
Qed.

(** Property X14. A series that never moves has no touch: when every bar has
    one and the same finite price as its high and as its low, the range of
    every window is zero, the loop skips every bar, and no division by the
    range takes place. The closes play no part. *)
Theorem backtest_flat_series_no_touch (prices : list HistoricalPrice)
    (c : number) :
  finite c -> Forall (fun b => high b = c /\ low b = c) prices ->
  backtestGoldenZone prices =
    Ok {| totalBars := List.length prices; touches := [];
          successes := 0; failures := 0; winRate := 0 |}.
Proof.
  intros Hc Hall.
  destruct (walk_logged prices) as (st & E & _ & Hlog).
  assert (Elog : touchLog st = []).
  { destruct (touchLog st) as [|[i t] rest] eqn:El; [reflexivity|exfalso].
    destruct (Hlog i t) as (H1 & H2 & Ht); [rewrite El; now left|].
    destruct Ht as (bar & futureBar & swing & _ & _ & Esw & Hr & _).
    destruct (rolling_constant (slice (i - SWING_WINDOW) i prices)
                SWING_LOOKBACK c swing Hc) as [Eh El']; [|exact Esw|].
    - rewrite Forall_forall in Hall |- *. intros b Hb.
      apply SwingFacts.In_slice in Hb as (k & _ & Hb).
      apply (Hall b (nth_error_In _ _ Hb)).
    - rewrite Eh, El', (finite_sub_self c Hc) in Hr. discriminate. }
  unfold backtestGoldenZone. rewrite E. cbn [bind]. rewrite Elog. reflexivity.
Qed.

(** 200 days at 50.00, high and low. *)
Definition stillBars : list HistoricalPrice :=
  map (fun k => SwingFacts.mkBar (Samples.dayDate k) 50 50 50) (seq 0 200).

Lemma backtest_flat_series_no_touch_witness :
  backtestGoldenZone stillBars =
    Ok {| totalBars := List.length stillBars; touches := [];
          successes := 0; failures := 0; winRate := 0 |}.
Proof.
  apply (backtest_flat_series_no_touch stillBars 50).
  - reflexivity.
  - apply Forall_map, Forall_forall. intros k _. split; reflexivity.
Defined.

(** The loop passes index [i] without a touch: the range of the window is
    zero or negative, or the close is farther from the 61.8 % level than the
    tolerance. *)
Definition skippedAt (prices : list HistoricalPrice) (i : nat) : Prop :=
  exists bar swing,
    nth_error prices i = Some bar /\
    detectSwingPoints (slice (i - SWING_WINDOW) i prices) (Some SWING_LOOKBACK)
      = Ok swing /\
    let trend := detectTrend swing in
    let golden :=
      parseFloat (toFixed (rawLevel (sp_price (swingHigh swing))
                             (sp_price (swingLow swing)) trend 0.618) 2) in
    let range := sp_price (swingHigh swing) - sp_price (swingLow swing) in
    (range <=? 0) = true \/
    (range * TOUCH_TOLERANCE <? abs (close bar - golden)) = true.

(** What became of index [i]: logged, inside the cooldown of a logged touch,
    or passed without a touch. *)
Definition accounted (prices : list HistoricalPrice)
    (log : list (nat * GoldenTouch)) (i : nat) : Prop :=
  (exists t, In (i, t) log) \/
  (exists j t, In (j, t) log /\ (j < i < j + COOLDOWN_BARS)%nat) \/
  skippedAt prices i.

Lemma accounted_app (prices : list HistoricalPrice)
    (log later : list (nat * GoldenTouch)) (i : nat) :
  accounted prices log i -> accounted prices (log ++ later) i.
Proof.
  intros [[t H]|[(j & t & H & Hj)|H]].
  - left. exists t. apply in_or_app. now left.
  - right. left. exists j, t. split; [apply in_or_app; now left|exact Hj].
  - right. right. exact H.
Qed.

(** One turn of the loop, by cases. *)
Lemma walkBar_cases (prices : list HistoricalPrice) (st : WalkState) (i : nat) :
  (SWING_WINDOW <= i)%nat -> (i + OUTCOME_HORIZON < List.length prices)%nat ->
  exists st', walkBar prices (Ok st) i = Ok st' /\
    ((inCooldown i (lastTouchIndex st) = true /\ st' = st) \/
     (inCooldown i (lastTouchIndex st) = false /\ skippedAt prices i /\ st' = st) \/
     (inCooldown i (lastTouchIndex st) = false /\
      exists t, st' = {| touchLog := touchLog st ++ [(i, t)];
                         lastTouchIndex := Some i |})).
Proof.
  intros H1 H2. unfold walkBar. cbn [bind].
  destruct (inCooldown i (lastTouchIndex st)) eqn:Hcool;
    [exists st; split; [reflexivity|now left]|].
  destruct (SwingFacts.detectSwingPoints_rolling_total
              (slice (i - SWING_WINDOW) i prices) SWING_LOOKBACK)
    as [swing Esw]; [apply slice_window_nonempty; lia|].
  rewrite Esw. cbn [bind].
  destruct (LevelFacts.calculateFibLevels_golden
              (sp_price (swingHigh swing)) (sp_price (swingLow swing))
              (detectTrend swing)) as (g & -> & _ & _ & Eg).
  destruct (nth_error prices i) as [bar|] eqn:Ei;
    [|apply nth_error_None in Ei; lia].
  destruct (nth_error prices (i + OUTCOME_HORIZON)) as [futureBar|] eqn:Ef;
    [|apply nth_error_None in Ef; lia].
  unfold index. rewrite Ei, Ef. cbn [bind].
  destruct (_ <=? 0) eqn:Er.
  { exists st. split; [reflexivity|]. right. left. split; [reflexivity|].
    split; [|reflexivity]. exists bar, swing. cbv zeta. auto. }
  destruct (gtb _ _) eqn:Ed.
  { exists st. split; [reflexivity|]. right. left. split; [reflexivity|].
    split; [|reflexivity]. exists bar, swing. cbv zeta. rewrite <- Eg. auto. }
  eexists. split; [reflexivity|]. right. right. split; [reflexivity|].
  eexists. reflexivity.
Qed.

(** The log holds indices already walked, the last of them in
    [lastTouchIndex]. *)
Definition upTo (st : WalkState) (b : nat) : Prop :=
  (forall j t, In (j, t) (touchLog st) -> (j < b)%nat) /\
  (forall j, lastTouchIndex st = Some j -> exists t, In (j, t) (touchLog st)).

Lemma walk_seq_accounted (prices : list HistoricalPrice) (k : nat) :
  forall a st,
  (SWING_WINDOW <= a)%nat -> (a + k + OUTCOME_HORIZON <= List.length prices)%nat ->
  upTo st a ->
  (forall i, (SWING_WINDOW <= i < a)%nat -> accounted prices (touchLog st) i) ->
  exists st',
    fold_left (walkBar prices) (seq a k) (Ok st) = Ok st' /\
    forall i, (SWING_WINDOW <= i < a + k)%nat -> accounted prices (touchLog st') i.
Proof.
  induction k as [|k IH]; intros a st Ha Hk Hup Hacc.
  - exists st. split; [reflexivity|]. intros i Hi. apply Hacc. lia.
  - cbn [seq fold_left].
    destruct (walkBar_cases prices st a Ha ltac:(lia)) as (st1 & -> & Hst1).
    destruct Hup as [Hlt Hlast].
    assert (Hnext : upTo st1 (S a) /\
              forall i, (SWING_WINDOW <= i < S a)%nat ->
                accounted prices (touchLog st1) i).
    { destruct Hst1 as [[Hcool ->]|[(Hcool & Hskip & ->)|(Hcool & t & ->)]].
      - split; [split; [intros j t Hj; pose proof (Hlt j t Hj); lia|exact Hlast]|].
        intros i Hi. destruct (Nat.eq_dec i a) as [->|Hne]; [|apply Hacc; lia].
        right. left. unfold inCooldown in Hcool.
        destruct (lastTouchIndex st) as [j|] eqn:Ej; [|discriminate].
        destruct (Hlast j eq_refl) as [t Ht].
        exists j, t. split; [exact Ht|]. pose proof (Hlt j t Ht).
        apply Z.ltb_lt in Hcool. unfold COOLDOWN_BARS in *. lia.
      - split; [split; [intros j t Hj; pose proof (Hlt j t Hj); lia|exact Hlast]|].
        intros i Hi. destruct (Nat.eq_dec i a) as [->|Hne]; [|apply Hacc; lia].
        right. right. exact Hskip.
      - cbn [touchLog lastTouchIndex]. split; [split|].
        + intros j tj Hj. apply in_app_or in Hj as [Hj|[E|[]]].
          * pose proof (Hlt j tj Hj). lia.
          * injection E as <- <-. lia.
        + intros j E. injection E as <-. exists t.
          apply in_or_app. right. now left.
        + intros i Hi. destruct (Nat.eq_dec i a) as [->|Hne].
          * left. exists t. apply in_or_app. right. now left.
          * apply accounted_app, Hacc. lia. }
    destruct Hnext as [Hup1 Hacc1].
    destruct (IH (S a) st1 ltac:(lia) ltac:(lia) Hup1 Hacc1) as (st' & E & H).
    exists st'. split; [exact E|]. intros i Hi. apply H. lia.
Qed.

(** Property X15. No touch is missed: every bar with 120 bars before it and
    30 after it is either recorded as a touch, or lies less than ten bars
    after a recorded touch, or fails the test of a touch (the range of its
    window is zero or negative, or its close is farther from the 61.8 %
    level than 1.5 % of the range). *)
Theorem backtest_no_missed_touch (prices : list HistoricalPrice) :
  exists st r,
    walk prices = Ok st /\ backtestGoldenZone prices = Ok r /\
    touches r = map snd (touchLog st) /\
    forall i,
      (SWING_WINDOW <= i)%nat -> (i + OUTCOME_HORIZON < List.length prices)%nat ->
      (exists t, In (i, t) (touchLog st)) \/
      (exists j t, In (j, t) (touchLog st) /\ (j < i < j + COOLDOWN_BARS)%nat) \/
      (exists bar swing,
         nth_error prices i = Some bar /\
         detectSwingPoints (slice (i - SWING_WINDOW) i prices)
           (Some SWING_LOOKBACK) = Ok swing /\
         let trend := detectTrend swing in
         let golden :=
           parseFloat (toFixed (rawLevel (sp_price (swingHigh swing))
                                  (sp_price (swingLow swing)) trend 0.618) 2) in
         let range := sp_price (swingHigh swing) - sp_price (swingLow swing) in
         (range <=? 0) = true \/
         (range * TOUCH_TOLERANCE <? abs (close bar - golden)) = true).
Proof.
  destruct (backtest_log prices) as (st & r & E & Er & Et & _ & _).
  exists st, r. split; [exact E|]. split; [exact Er|]. split; [exact Et|].
  intros i H1 H2.
  destruct (Nat.le_gt_cases (List.length prices) (SWING_WINDOW + OUTCOME_HORIZON))
    as [Hshort|Hlong]; [unfold SWING_WINDOW, OUTCOME_HORIZON in *; lia|].
  destruct (walk_seq_accounted prices
              (List.length prices - OUTCOME_HORIZON - SWING_WINDOW)
              SWING_WINDOW {| touchLog := []; lastTouchIndex := None |})
    as (st' & E' & Hacc).
  - lia.
  - unfold SWING_WINDOW, OUTCOME_HORIZON in *. lia.
  - split; [intros j t []|intros j Hj; discriminate].
  - intros k Hk. lia.
  - unfold walk, walkRange in E. rewrite E' in E. injection E as ->.
    apply Hacc. unfold SWING_WINDOW, OUTCOME_HORIZON in *. lia.
Qed.

Lemma nth_sorted {A} (R : A -> A -> Prop) (l : list A) :
  (forall i j a b, (i < j)%nat ->
     nth_error l i = Some a -> nth_error l j = Some b -> R a b) ->
  StronglySorted R l.
Proof.
  induction l as [|x l IH]; intros H; constructor.
  - apply IH. intros i j a b Hij Ei Ej. apply (H (S i) (S j)); [lia|assumption..].
  - apply Forall_forall. intros b Hb. apply In_nth_error in Hb as [j Ej].
    apply (H 0%nat (S j)); [lia|reflexivity|exact Ej].
Qed.

(** Property X16. On a series whose dates ascend, the touches come in the
    order of their dates and no two touches share a date: the date of a
    touch identifies it, as the list of touch rows assumes when it uses the
    date as key. *)
Theorem backtest_touch_dates_ascending (prices : list HistoricalPrice) :
  AnalysisFacts.datesAscending prices ->
  exists r,
    backtestGoldenZone prices = Ok r /\
    StronglySorted (fun a b => String.ltb (gt_date a) (gt_date b) = true)
      (touches r) /\
    NoDup (map gt_date (touches r)).
Proof.
  intros Hasc.
  destruct (backtest_log prices) as (st & r & E & Er & Et & [Hsp _] & Hlog).
  exists r. split; [exact Er|].
  assert (Hsorted : StronglySorted
            (fun a b => String.ltb (gt_date a) (gt_date b) = true) (touches r)).
  { rewrite Et. apply nth_sorted. intros p q a b Hpq Ep Eq.
    rewrite nth_error_map in Ep, Eq.
    destruct (nth_error (touchLog st) p) as [[i a']|] eqn:Ep'; [|discriminate].
    destruct (nth_error (touchLog st) q) as [[j b']|] eqn:Eq'; [|discriminate].
    cbn in Ep, Eq. injection Ep as ->. injection Eq as ->.
    pose proof (Hsp p q i j a b Hpq Ep' Eq') as Hij.
    destruct (Hlog i a (nth_error_In _ _ Ep'))
      as (_ & _ & bi & fi & si & Ei & _ & _ & _ & _ & ->).
    destruct (Hlog j b (nth_error_In _ _ Eq'))
      as (_ & _ & bj & fj & sj & Ej & _ & _ & _ & _ & ->).
    cbn [gt_date].
    apply (AnalysisFacts.sorted_nth _ _ Hasc i j bi bj); [|assumption..].
    unfold COOLDOWN_BARS in Hij. lia. }
  split; [exact Hsorted|].
  clear -Hsorted. induction Hsorted as [|t ts Hs IH Hall]; cbn [map]; constructor.
  - intros Hin. apply in_map_iff in Hin as (t' & Ed & Hin).
    rewrite Forall_forall in Hall. specialize (Hall t' Hin).
    rewrite Ed, AnalysisFacts.string_ltb_irrefl in Hall. discriminate.
  - exact IH.
Qed.

Lemma backtest_touch_dates_ascending_witness :
  exists r,
    backtestGoldenZone (Samples.flatBars 200) = Ok r /\
    StronglySorted (fun a b => String.ltb (gt_date a) (gt_date b) = true)
      (touches r) /\
    NoDup (map gt_date (touches r)).
Proof.
  apply (backtest_touch_dates_ascending (Samples.flatBars 200)).
  apply AnalysisFacts.datesAscendingb_sound. vm_compute. reflexivity.
Defined.

End WalkFacts.

(** ** The price service *)

Module ServiceFacts.

Import JS Fib Service AnalysisFacts.
Local Open Scope string_scope.
Local Open Scope float_scope.

Lemma sorted_app_last {A} (R : A -> A -> Prop) (l : list A) (a : A) :
  StronglySorted R l -> Forall (fun x => R x a) l ->
  StronglySorted R (l ++ [a]).
Proof.
  induction 1 as [|x l Hs IH Hall]; intros Ha; cbn [app].
  - repeat constructor.
  - inversion Ha as [|? ? Hxa Hla]; subst.
    constructor; [now apply IH|].
    apply Forall_app. split; [exact Hall|]. now constructor.
Qed.

Lemma sorted_rev {A} (R : A -> A -> Prop) (l : list A) :
  StronglySorted R l -> StronglySorted (fun a b => R b a) (rev l).
Proof.
  induction 1 as [|x l Hs IH Hall]; cbn [rev]; [constructor|].
  apply sorted_app_last; [exact IH|].
  apply Forall_rev. exact Hall.
Qed.

Lemma sorted_map {A B} (f : A -> B) (R : B -> B -> Prop) (l : list A) :
  StronglySorted (fun a b => R (f a) (f b)) l -> StronglySorted R (map f l).
Proof.
  induction 1 as [|x l Hs IH Hall]; cbn [map]; constructor; [exact IH|].
  apply Forall_map. exact Hall.
Qed.

(** Property X17. The service hands the bars over oldest first: of a
    response that lists the days newest first, with strictly descending
    dates, it makes a series of as many bars with strictly ascending dates,
    the bar at place [k] being the entry at place [k] from the end. *)
Theorem reversedBars_oldest_first (json : list FMPHistoricalEntry) :
  StronglySorted (fun a b => String.ltb (e_date b) (e_date a) = true) json ->
  let prices := reversedBars json in
  datesAscending prices /\
  List.length prices = List.length json /\
  forall k bar, nth_error prices k = Some bar ->
    exists entry,
      nth_error json (List.length json - 1 - k) = Some entry /\
      (k < List.length json)%nat /\
      date bar = e_date entry /\ close bar = e_close entry /\
      high bar = e_high entry /\ low bar = e_low entry.
Proof.
  intros Hdesc. cbv zeta. unfold reversedBars, datesAscending.
  split; [|split].
  - apply (sorted_rev (fun a b => String.ltb (date b) (date a) = true)).
    apply sorted_map. exact Hdesc.
  - now rewrite length_rev, length_map.
  - intros k bar Hk.
    assert (Hlt : nth_error (reversedBars json) k <> None)
      by (unfold reversedBars; congruence).
    apply nth_error_Some in Hlt. unfold reversedBars in Hlt.
    rewrite length_rev, length_map in Hlt.
    rewrite nth_error_rev, length_map in Hk.
    destruct (Nat.ltb_spec k (List.length json)) as [_|]; [|lia].
    rewrite nth_error_map in Hk.
    replace (List.length json - S k)%nat with (List.length json - 1 - k)%nat
      in Hk by lia.
    destruct (nth_error json _) as [entry|]; [|discriminate].
    injection Hk as <-. exists entry. repeat split; assumption.
Qed.

(** A response of three days, newest first. *)
Definition sampleResponse : list FMPHistoricalEntry :=
  [ {| e_date := "2024-01-04"; e_open := 11; e_high := 12; e_low := 10;
       e_close := 11.5; e_volume := 1000 |};
    {| e_date := "2024-01-03"; e_open := 10; e_high := 11; e_low := 9;
       e_close := 10.5; e_volume := 1000 |};
    {| e_date := "2024-01-02"; e_open := 9; e_high := 10; e_low := 8;
       e_close := 9.5; e_volume := 1000 |} ].

Lemma reversedBars_oldest_first_witness :
  let prices := reversedBars sampleResponse in
  datesAscending prices /\
  List.length prices = List.length sampleResponse /\
  forall k bar, nth_error prices k = Some bar ->
    exists entry,
      nth_error sampleResponse (List.length sampleResponse - 1 - k) = Some entry /\
      (k < List.length sampleResponse)%nat /\
      date bar = e_date entry /\ close bar = e_close entry /\
      high bar = e_high entry /\ low bar = e_low entry.
Proof.
  apply (reversedBars_oldest_first sampleResponse). repeat constructor.
Defined.

End ServiceFacts.

(** ** The chart and the dashboard *)

Module ChartFacts.

Import JS Notations Order Fib LevelFacts Chart Dashboard.
Local Open Scope string_scope.
Local Open Scope float_scope.

(** Property X18. Chart and table agree on colours: for every level that
    [calculateFibLevels] produces, the line that [fibColor] draws has the
    colour the levels table shows for it, gold for the Golden Zone and the
    traffic-light colour otherwise; the fallback colour of the [switch] is
    never used. *)
Theorem fibColor_matches_table (high low : number) (trend : TrendDirection) :
  Forall (fun level => fibColor level = tableColor level /\
                       fibColor level <> TEXT)
    (calculateFibLevels high low trend).
Proof.
  rewrite calculateFibLevels_unfold.
  repeat constructor; try reflexivity; discriminate.
Qed.

Lemma nth_error_sliceLast {A} (n : nat) (a : list A) (k : nat) :
  nth_error (sliceLast n a) k = nth_error a (List.length a - n + k).
Proof. unfold sliceLast. apply nth_error_skipn. Qed.

Lemma mathMin_le_mathMax (x y : number) :
  ordered x -> ordered y -> (mathMin x y <=? mathMax x y) = true.
Proof.
  intros Hx Hy. unfold mathMin, mathMax.
  unfold ordered in Hx, Hy. rewrite Hx, Hy. cbn [orb].
  destruct (x <? y) eqn:E1, (y <? x) eqn:E2.
  - exfalso. clear Hx Hy. order.
  - now apply ltb_leb.
  - now apply ltb_leb.
  - assert (Hxy : (x <=? y) = true).
    { rewrite leb_not_ltb by assumption. now rewrite E2. }
    assert (Hyx : (y <=? x) = true).
    { rewrite leb_not_ltb by assumption. now rewrite E1. }
    destruct (get_sign x); [exact Hxy|exact Hyx].
Qed.

Lemma mathMin_mathMax_cases (x y : number) :
  ordered x -> ordered y ->
  (mathMin x y = x /\ mathMax x y = y) \/ (mathMin x y = y /\ mathMax x y = x).
Proof.
  intros Hx Hy. unfold mathMin, mathMax.
  unfold ordered in Hx, Hy. rewrite Hx, Hy. cbn [orb].
  destruct (x <? y) eqn:E1, (y <? x) eqn:E2; [|auto..|destruct (get_sign x); auto].
  exfalso. clear Hx Hy. order.
Qed.

(** Property X19. The chart shows the last 120 bars, all of them when there
    are fewer, oldest first; the wick of a row runs from the low to the high
    of its bar and, when open and close are numbers, the body from the lower
    to the higher of the two. *)
Theorem prepareData_last_bars (prices : list HistoricalPrice) :
  let rows := prepareData prices in
  let n := List.length prices in
  List.length rows = Nat.min n VISIBLE_BARS /\
  forall k row, nth_error rows k = Some row ->
    exists p, nth_error prices (n - VISIBLE_BARS + k) = Some p /\
      cr_date row = date p /\ wick row = (low p, high p) /\
      (ordered (open p) -> ordered (close p) ->
       (fst (body row) <=? snd (body row)) = true /\
       (body row = (open p, close p) \/ body row = (close p, open p))).
Proof.
  cbv zeta. unfold prepareData. split.
  - rewrite length_map. unfold sliceLast. rewrite length_skipn. lia.
  - intros k row Hk. rewrite nth_error_map, nth_error_sliceLast in Hk.
    destruct (nth_error prices _) as [p|]; [|discriminate].
    injection Hk as <-. exists p. cbn [cr_date wick body fst snd].
    repeat split; [now apply mathMin_le_mathMax|].
    destruct (mathMin_mathMax_cases (open p) (close p)) as [[-> ->]|[-> ->]]; auto.
Qed.

(** Property X20. The dashboard reads the close of the last bar before it
    calls [analyzeTicker]: on an empty series that read fails (a
    [TypeError], caught by the handler) and the empty-data error of
    [analyzeTicker] is never seen; on every other series the analysis is
    returned, with the close of the last bar as the current price. *)
Theorem analyzeLatest_uses_last_close (priceData : list HistoricalPrice) :
  (priceData = [] /\ analyzeLatest priceData = Throw TypeError) \/
  (exists r lastBar,
     analyzeLatest priceData = Ok r /\
     analyzeTicker priceData (close lastBar) = Ok r /\
     nth_error priceData (List.length priceData - 1) = Some lastBar /\
     priceData = (removelast priceData ++ [lastBar])%list /\
     currentPrice r = close lastBar).
Proof.
  destruct priceData as [|b rest] eqn:Ep; [left; split; reflexivity|right].
  rewrite <- Ep.
  assert (Hne : priceData <> []) by (rewrite Ep; discriminate).
  destruct (exists_last Hne) as (front & lastBar & Efront).
  assert (Elast : nth_error priceData (List.length priceData - 1) = Some lastBar).
  { rewrite Efront, length_app, nth_error_app2 by (cbn; lia).
    cbn [List.length].
    replace (List.length front + 1 - 1 - List.length front)%nat with 0%nat by lia.
    reflexivity. }
  unfold analyzeLatest, index. rewrite Elast. cbn [bind].
  assert (Hr : exists r, analyzeTicker priceData (close lastBar) = Ok r).
  { unfold analyzeTicker. rewrite Ep. cbn [detectSwingPoints bind].
    set (swing := fold_left scanBar (b :: rest) noSwing).
    destruct (determineSignal_total (sp_price (swingHigh swing))
                (sp_price (swingLow swing)) (detectTrend swing)
                (detectTrend swing) (close lastBar)) as [sr ->].
    cbn [bind]. eexists. reflexivity. }
  destruct Hr as [r Er].
  exists r, lastBar. split; [exact Er|]. split; [exact Er|].
  split; [reflexivity|]. split.
  - rewrite Efront at 1. now rewrite Efront, removelast_last.
  - unfold analyzeTicker in Er.
    destruct (detectSwingPoints priceData None) as [sw|]; [|discriminate].
    cbn [bind] in Er.
    destruct (determineSignal _ _ _) as [sr|]; [|discriminate].
    cbn [bind] in Er. injection Er as <-. reflexivity.
Qed.

End ChartFacts.

(** ** Binary64 division *)

Module Quotient.

Import Binary64.
Local Open Scope Z_scope.

Lemma pow2_lt_inv (a b : Z) : 0 <= a -> 0 <= b -> 2 ^ a < 2 ^ b -> a < b.
Proof.
  intros Ha Hb H. destruct (Z_lt_le_dec a b) as [|Hge]; [assumption|].
  pose proof (pow2_le b a ltac:(lia)). lia.
Qed.

(** The quotient of two positive numbers of the format, when it is not
    below the least positive number. *)
Lemma SFdiv_spec (ma mb : positive) (ea eb : Z) :
  bounded prec emax ma ea = true -> bounded prec emax mb eb = true ->
  sval 1 (S754_finite false mb eb) <= 2 ^ 1000 * sval 1 (S754_finite false ma ea) ->
  rounded (sval 1 (S754_finite false mb eb))
    (sval 1 (S754_finite false ma ea) * 2 ^ C)
    (SFdiv prec emax (S754_finite false ma ea) (S754_finite false mb eb)).
Proof.
  intros Ha Hb Hq. cbn [SFdiv xorb]. unfold SFdiv_core_binary. cbn [Zdigits2].
  apply bounded_spec in Ha as (Hea & Hma & _).
  apply bounded_spec in Hb as (Heb & Hmb & _).
  pose proof (digits2_pos_bounds ma) as [Hn1 Hn2].
  pose proof (digits2_pos_bounds mb) as [Hq1 Hq2].
  set (d1 := Zpos (digits2_pos ma)) in *. set (d2 := Zpos (digits2_pos mb)) in *.
  assert (Hd1 : 0 < d1) by (subst d1; lia).
  assert (Hd2 : 0 < d2) by (subst d2; lia).
  cbn [sval] in *. unfold hu in *. rewrite !Z.mul_1_l in *.
  (* the quotient is not tiny *)
  assert (HD : -1001 <= d1 + ea - (d2 + eb)).
  { assert (Hpa : 0 < 2 ^ (ea - 1 + C)) by (apply pow2_pos; unfold C; lia).
    assert (Hpb : 0 < 2 ^ (eb - 1 + C)) by (apply pow2_pos; unfold C; lia).
    assert (H1 : 2 ^ (d2 - 1) * 2 ^ (eb - 1 + C) <= Zpos mb * 2 ^ (eb - 1 + C))
      by (apply Z.mul_le_mono_nonneg_r; lia).
    assert (H2 : Zpos ma * 2 ^ (ea - 1 + C) < 2 ^ d1 * 2 ^ (ea - 1 + C))
      by (apply Z.mul_lt_mono_pos_r; lia).
    assert (H3 : 2 ^ 1000 * (Zpos ma * 2 ^ (ea - 1 + C))
                 < 2 ^ 1000 * (2 ^ d1 * 2 ^ (ea - 1 + C)))
      by (apply Z.mul_lt_mono_pos_l; [apply pow2_pos; lia|exact H2]).
    rewrite <- Z.pow_add_r in H1 by (unfold C; lia).
    rewrite <- (Z.pow_add_r 2 d1) in H3 by (unfold C; lia).
    rewrite <- (Z.pow_add_r 2 1000) in H3 by (unfold C; lia).
    replace (2 * Zpos mb * 2 ^ (eb - 1 + C))
      with (2 * (Zpos mb * 2 ^ (eb - 1 + C))) in Hq by ring.
    replace (2 ^ 1000 * (2 * Zpos ma * 2 ^ (ea - 1 + C)))
      with (2 * (2 ^ 1000 * (Zpos ma * 2 ^ (ea - 1 + C)))) in Hq by ring.
    set (U := Zpos mb * 2 ^ (eb - 1 + C)) in *.
    set (V := 2 ^ 1000 * (Zpos ma * 2 ^ (ea - 1 + C))) in *.
    assert (H4 : 2 ^ (d2 - 1 + (eb - 1 + C)) < 2 ^ (1000 + (d1 + (ea - 1 + C))))
      by (clearbody U V; lia).
    apply pow2_lt_inv in H4; unfold C in *; lia. }
  rewrite fexp64.
  set (e' := Z.min (Z.max (d1 + ea - (d2 + eb) - 53) (-1074)) (ea - eb)).
  assert (He' : -2045 <= e' <= ea - eb) by (subst e'; lia).
  set (s := ea - eb - e').
  assert (Hs : 0 <= s) by (subst s; lia).
  assert (Hm' : match s with
                | 0 => Zpos ma
                | Zpos _ => Z.shiftl (Zpos ma) s
                | Zneg _ => 0
                end = Zpos ma * 2 ^ s).
  { destruct s as [|p|p] eqn:Es; try lia.
    rewrite Z.shiftl_mul_pow2 by lia. reflexivity. }
  rewrite Hm'.
  pose proof (Z_div_mod (Zpos ma * 2 ^ s) (Zpos mb) ltac:(lia)) as Hdiv.
  destruct (Z.div_eucl (Zpos ma * 2 ^ s) (Zpos mb)) as [qq r].
  destruct Hdiv as [Hdiv Hr].
  set (k := d1 - 1 + s - d2).
  assert (Hk : 0 <= k) by (subst k s e'; lia).
  assert (Hqq : 2 ^ k <= qq).
  { assert (Hp : 2 ^ (d1 - 1) * 2 ^ s = 2 ^ k * 2 ^ d2).
    { rewrite <- !Z.pow_add_r by lia. f_equal. subst k. lia. }
    assert (0 < 2 ^ k) by (apply pow2_pos; lia).
    assert (0 < 2 ^ s) by (apply pow2_pos; lia).
    destruct (Z_le_gt_dec (2 ^ k) qq); [assumption|]. nia. }
  assert (Hqq0 : 0 < qq) by (pose proof (pow2_pos k Hk); lia).
  set (W := 2 * Zpos mb * 2 ^ (eb - 1 + C)).
  assert (HW : 0 < W).
  { subst W. apply Z.mul_pos_pos; [lia|apply pow2_pos; unfold C; lia]. }
  assert (HeC : 1 - C <= e') by (unfold C; lia).
  set (t := 2 ^ (eb + e' + 2 * C - 1)).
  assert (Ht : 0 < t) by (apply pow2_pos; unfold C; lia).
  assert (Hh : W * 2 ^ (e' - 1 + C) = Zpos mb * t).
  { subst W t.
    replace (eb + e' + 2 * C - 1) with (1 + (eb - 1 + C) + (e' - 1 + C)) by lia.
    rewrite (Z.pow_add_r 2 (1 + (eb - 1 + C)) (e' - 1 + C)) by (unfold C; lia).
    rewrite (Z.pow_add_r 2 1 (eb - 1 + C)) by (unfold C; lia).
    change (2 ^ 1) with 2. ring. }
  assert (HX : 2 * Zpos ma * 2 ^ (ea - 1 + C) * 2 ^ C
               = 2 * qq * (Zpos mb * t) + 2 * r * t).
  { assert (E : 2 * 2 ^ (ea - 1 + C) * 2 ^ C = 2 * (2 ^ s * t)).
    { subst t. rewrite <- (Z.pow_add_r 2 s) by (unfold C; lia).
      replace (s + (eb + e' + 2 * C - 1)) with ((ea - 1 + C) + C) by (subst s; lia).
      rewrite (Z.pow_add_r 2 (ea - 1 + C) C) by (unfold C; lia). ring. }
    replace (2 * Zpos ma * 2 ^ (ea - 1 + C) * 2 ^ C)
      with (Zpos ma * (2 * 2 ^ (ea - 1 + C) * 2 ^ C)) by ring.
    rewrite E.
    replace (Zpos ma * (2 * (2 ^ s * t))) with (2 * (Zpos ma * 2 ^ s) * t) by ring.
    rewrite Hdiv. ring. }
  right. split.
  { assert (0 < 2 ^ (ea - 1 + C)) by (apply pow2_pos; unfold C; lia).
    assert (0 < 2 ^ C) by (apply pow2_pos; unfold C; lia).
    apply Z.mul_pos_pos; [|assumption]. lia. }
  apply binary_round_aux_spec; try assumption.
  - pose proof (new_location_inbetween (Zpos mb) r t qq ltac:(lia) Hr Ht) as Hloc.
    cbv zeta in Hloc. unfold inbetween, hu. rewrite Hh, HX.
    destruct (new_location (Zpos mb) r) as [|[]]; exact Hloc.
  - destruct qq as [|pq|pq]; try lia. cbn [Zdigits2]. rewrite fexp64.
    pose proof (digits_lower pq k Hqq). subst k s e'. lia.
Qed.

End Quotient.

(** ** Percentages with one decimal *)

Module WinRate.

Import JS Notations Order Fib Backtest Binary64 LevelBounds Quotient.
Local Open Scope Z_scope.

(** [x.toFixed(1)] read back as a number. *)
Definition round1 (x : number) : number := parseFloat (toFixed x 1).

(** The integer nearest to [10 * x], the larger on a tie, for the real [x]
    of scaled value [F]. *)
Definition tenths (F : Z) : Z := (20 * F + 2 ^ C) / (2 * 2 ^ C).

Lemma roundHalfUp_tenths (m : positive) (e : Z) :
  1 - C <= e ->
  roundHalfUp (magnitude m e) 1 = tenths (sval 1 (S754_finite false m e)).
Proof.
  intros He. unfold roundHalfUp, magnitude, tenths. cbn [sval]. unfold hu.
  change (10 ^ Z.of_nat 1) with 10.
  replace (2 * Zpos m * (1 * 2 ^ (e - 1 + C))) with (Zpos m * 2 ^ (e + C)).
  2:{ replace (e + C) with (1 + (e - 1 + C)) by lia.
      rewrite Z.pow_add_r by lia. change (2 ^ 1) with 2. ring. }
  rewrite Zdiv_Qdiv. apply Qfloor_comp.
  rewrite !inject_Z_plus, !inject_Z_mult.
  rewrite !Zpower_Qpower by (unfold C in *; lia).
  change (inject_Z 2) with 2%Q.
  assert (E : (2 ^ (e + C) == 2 ^ e * 2 ^ C)%Q) by (apply Qpower_plus; discriminate).
  rewrite E.
  assert (HT : ~ (2 ^ C == 0)%Q).
  { intros H. pose proof (Qpower_0_lt 2 C ltac:(reflexivity)) as P.
    rewrite H in P. discriminate. }
  change (inject_Z 20) with 20%Q.
  change (inject_Z 10) with 10%Q.
  field. exact HT.
Qed.

Lemma tenths_mono (F1 F2 : Z) : F1 <= F2 -> tenths F1 <= tenths F2.
Proof.
  intros H. unfold tenths.
  assert (0 < 2 ^ C) by (apply pow2_pos; unfold C; lia).
  apply Z.div_le_mono; lia.
Qed.

Lemma tenths_nonneg (F : Z) : 0 <= F -> 0 <= tenths F.
Proof.
  intros H. unfold tenths.
  assert (0 < 2 ^ C) by (apply pow2_pos; unfold C; lia).
  apply Z.div_pos; lia.
Qed.

Lemma tenths_100 : tenths (100 * 2 ^ C) = 1000.
Proof.
  unfold tenths. assert (HT : 0 < 2 ^ C) by (apply pow2_pos; unfold C; lia).
  set (T := 2 ^ C) in *. clearbody T.
  replace (20 * (100 * T) + T) with (1000 * (2 * T) + T) by ring.
  rewrite Z.div_add_l by lia. rewrite Z.div_small by lia. lia.
Qed.

Lemma fval_1 : fval 1%float = 2 ^ C.
Proof. vm_compute. reflexivity. Qed.

Lemma fval_100 : fval 100%float = 100 * 2 ^ C.
Proof. vm_compute. reflexivity. Qed.

Lemma fval_2p32 : fval 4294967296%float = 2 ^ 32 * 2 ^ C.
Proof. vm_compute. reflexivity. Qed.

Lemma nearestTenth_rounded (n : Z) :
  0 <= n -> rounded 10 (n * 2 ^ C) (nearestDecimal n 1).
Proof.
  intros Hn. unfold nearestDecimal.
  change (10 ^ Z.of_nat 1) with (Zpos 10).
  destruct n as [|p|p]; try lia.
  - left. split; [reflexivity|]. exists false. reflexivity.
  - apply (SFdiv_int_spec p 10). vm_compute. discriminate.
Qed.

(** Rounding to one decimal keeps a number between 0 and 100 there. *)
Lemma round1_percent (x : number) :
  nn x -> fval x <= fval 100%float ->
  nn (round1 x) /\ fval (round1 x) <= fval 100%float.
Proof.
  intros Hx Hle. unfold round1, toFixed.
  pose proof (fval_nonneg x Hx) as Hx0.
  assert (HT : 0 < 2 ^ C) by (apply pow2_pos; unfold C; lia).
  assert (Hr : forall n, 0 <= n <= 1000 ->
            nn (SF2Prim (nearestDecimal n 1)) /\
            fval (SF2Prim (nearestDecimal n 1)) <= fval 100%float).
  { intros n Hn. pose proof (nearestTenth_rounded n ltac:(lia)) as H.
    unfold nn, fval.
    rewrite Prim2SF_SF2Prim by (apply (rounded_valid 10 _ _ ltac:(lia) H)).
    apply (rounded_upper 10 (n * 2 ^ C)); [lia|exact H|vm_compute; reflexivity|].
    rewrite (sval_scale 10). fold (fval 100%float). rewrite fval_100.
    set (T := 2 ^ C) in *. clearbody T.
    assert (n * T <= 1000 * T) by (apply Z.mul_le_mono_nonneg_r; lia). lia. }
  pose proof Hx as Hx'. unfold nn in Hx'. unfold fval in Hle, Hx0.
  destruct (Prim2SF x) as [s|s| |[] m e] eqn:Ex; cbn [nnf] in Hx';
    try contradiction.
  - cbn [parseFloat]. apply Hr. lia.
  - assert (Eabs : abs x = x).
    { apply Prim2SF_inj. rewrite abs_spec, Ex. reflexivity. }
    rewrite Eabs.
    assert (Ebig : (1e21 <=? x)%float = false).
    { apply not_true_iff_false. intros Hbig.
      apply (leb_fval 1e21%float x nn_1e21 Hx) in Hbig.
      rewrite fval_1e21 in Hbig. unfold fval in Hbig. rewrite Ex in Hbig.
      fold (fval 100%float) in Hle. rewrite fval_100 in Hle.
      set (T := 2 ^ C) in *. clearbody T.
      assert (100 * T < 10 ^ 21 * T) by (apply Z.mul_lt_mono_pos_r; lia). lia. }
    rewrite Ebig. cbn [parseFloat].
    pose proof Hx' as Hb. apply bounded_spec in Hb as (He & _).
    rewrite roundHalfUp_tenths by (unfold C; lia).
    apply Hr. split; [now apply tenths_nonneg|].
    rewrite <- tenths_100. apply tenths_mono.
    fold (fval 100%float) in Hle. now rewrite fval_100 in Hle.
Qed.

Lemma ofZ_rounded (z : Z) : 0 <= z -> rounded 1 (z * 2 ^ C) (Prim2SF (ofZ z)).
Proof.
  intros Hz. unfold ofZ.
  pose proof (binary_normalize_spec 1 z 0 ltac:(lia) ltac:(lia) Hz) as H.
  replace (2 * z * hu 1 0) with (z * 2 ^ C) in H.
  2:{ unfold hu. replace C with (1 + (0 - 1 + C)) at 1 by lia.
      rewrite Z.pow_add_r by (unfold C; lia). change (2 ^ 1) with 2. ring. }
  rewrite Prim2SF_SF2Prim by (apply (rounded_valid 1 _ _ ltac:(lia) H)).
  exact H.
Qed.

(** A count below [2^32], as a number. *)
Lemma ofZ_count (z : Z) :
  0 <= z <= 2 ^ 32 ->
  nn (ofZ z) /\ fval (ofZ z) <= 2 ^ 32 * 2 ^ C /\ (1 <= z -> 2 ^ C <= fval (ofZ z)).
Proof.
  intros Hz. pose proof (ofZ_rounded z ltac:(lia)) as H.
  assert (HT : 0 < 2 ^ C) by (apply pow2_pos; unfold C; lia).
  destruct (rounded_upper 1 _ _ (Prim2SF 4294967296%float) ltac:(lia) H)
    as [Hn Hu]; [vm_compute; reflexivity| |].
  { fold (fval 4294967296%float). rewrite fval_2p32.
    apply Z.mul_le_mono_nonneg_r; lia. }
  split; [exact Hn|]. split.
  - fold (fval 4294967296%float) in Hu. now rewrite fval_2p32 in Hu.
  - intros H1. rewrite <- fval_1.
    assert (Hn1 : nnf (Prim2SF 1%float)) by (vm_compute; reflexivity).
    apply (rounded_lower 1 (z * 2 ^ C) (Prim2SF (ofZ z)) (Prim2SF 1%float)
             ltac:(lia) H Hn1); [|exact Hn].
    fold (fval 1%float). rewrite fval_1.
    set (T := 2 ^ C) in *. clearbody T.
    assert (1 * T <= z * T) by (apply Z.mul_le_mono_nonneg_r; lia). lia.
Qed.

Lemma ofZ_mono (y z : Z) :
  0 <= y <= z -> z <= 2 ^ 32 -> fval (ofZ y) <= fval (ofZ z).
Proof.
  intros Hy Hz.
  destruct (ofZ_count y ltac:(lia)) as (Hny & _).
  destruct (ofZ_count z ltac:(lia)) as (Hnz & _).
  apply (nnf_leb 1); [lia|assumption..|].
  apply (rounded_leb 1 (y * 2 ^ C) (z * 2 ^ C)); [lia| |apply ofZ_rounded; lia..].
  apply Z.mul_le_mono_nonneg_r; [|lia].
  pose proof (pow2_pos C ltac:(unfold C; lia)). lia.
Qed.

(** The quotient of a number that is zero or positive by a positive one. *)
Lemma div_rounded (a b : number) :
  nn a -> nn b -> 0 < fval b ->
  fval a = 0 \/ fval b <= 2 ^ 1000 * fval a ->
  rounded (fval b) (fval a * 2 ^ C) (Prim2SF (a / b)).
Proof.
  intros Ha Hb Hb0 Hq. rewrite div_spec. unfold SF64div.
  unfold nn, fval in *.
  destruct (Prim2SF b) as [sb|sb| |[] mb eb]; cbn [nnf] in Hb; try contradiction;
    [cbn [sval] in Hb0; lia|].
  destruct (Prim2SF a) as [sa|sa| |[] ma ea]; cbn [nnf] in Ha; try contradiction.
  - left. split; [reflexivity|]. cbn [SFdiv]. eauto.
  - destruct Hq as [Hq|Hq].
    + exfalso. apply bounded_spec in Ha as (He & _).
      cbn [sval] in Hq.
      pose proof (hu_pos 1 ea ltac:(lia) ltac:(unfold C; lia)). nia.
    + now apply SFdiv_spec.
Qed.

(** Successes out of touches, in percent with one decimal. *)
Lemma percent_bounds (s n : Z) :
  0 <= s <= n -> 1 <= n <= 2 ^ 32 ->
  let w := round1 ((ofZ s / ofZ n) * 100)%float in
  (0 <=? w)%float = true /\ (w <=? 100)%float = true.
Proof.
  intros Hs Hn.
  assert (HT : 0 < 2 ^ C) by (apply pow2_pos; unfold C; lia).
  destruct (ofZ_count s ltac:(lia)) as (Hna & Hua & Hla).
  destruct (ofZ_count n ltac:(lia)) as (Hnb & Hub & Hlb).
  specialize (Hlb ltac:(lia)).
  pose proof (ofZ_mono s n Hs ltac:(lia)) as Hab.
  assert (Hq : rounded (fval (ofZ n)) (fval (ofZ s) * 2 ^ C)
                 (Prim2SF (ofZ s / ofZ n))).
  { apply div_rounded; try assumption; [lia|].
    destruct (Z.eq_dec s 0) as [->|Hs0].
    - left. vm_compute. reflexivity.
    - right. specialize (Hla ltac:(lia)).
      set (T := 2 ^ C) in *. clearbody T.
      set (A := fval (ofZ s)) in *. set (B := fval (ofZ n)) in *.
      clearbody A B.
      assert (2 ^ 32 * T <= 2 ^ 1000 * T)
        by (apply Z.mul_le_mono_nonneg_r; [lia|apply pow2_le; lia]).
      assert (2 ^ 1000 * T <= 2 ^ 1000 * A)
        by (apply Z.mul_le_mono_nonneg_l; [apply Z.pow_nonneg|]; lia).
      lia. }
  destruct (rounded_upper (fval (ofZ n)) _ _ (Prim2SF 1%float) ltac:(lia) Hq)
    as [Hnq Huq];
    [vm_compute; reflexivity| |].
  { rewrite (sval_scale (fval (ofZ n))). fold (fval 1%float). rewrite fval_1.
    apply Z.mul_le_mono_nonneg_r; lia. }
  fold (fval 1%float) in Huq. rewrite fval_1 in Huq.
  fold (fval (ofZ s / ofZ n)%float) in Huq.
  assert (Hn100 : nn 100%float) by (vm_compute; reflexivity).
  pose proof (mul_rounded (ofZ s / ofZ n)%float 100%float Hnq Hn100) as Hp.
  destruct (rounded_upper (2 ^ C) _ _ (Prim2SF 100%float) ltac:(lia) Hp)
    as [Hnp Hup];
    [vm_compute; reflexivity| |].
  { rewrite (sval_scale (2 ^ C)). fold (fval 100%float).
    apply Z.mul_le_mono_nonneg_r; [rewrite fval_100|]; lia. }
  destruct (round1_percent _ Hnp Hup) as [Hnw Huw].
  cbv zeta. split.
  - apply (leb_fval 0%float); [exact I|exact Hnw|].
    change (fval 0%float) with 0. now apply fval_nonneg.
  - apply leb_fval; assumption.
Qed.

End WinRate.

(** ** The tally of the backtest *)

Module TallyFacts.

Import JS Notations Order Fib Backtest BacktestFacts WalkFacts WinRate.
Local Open Scope string_scope.
Local Open Scope float_scope.

(** Property X21. The tally of the backtest adds up, and the win rate is a
    percentage: successes and failures together are the touches, the
    successes are the touches whose outcome is a success, and the win rate
    lies between 0 and 100. The series is as long as an array can be. *)
Theorem backtest_win_rate_percent (prices : list HistoricalPrice) :
  (Z.of_nat (List.length prices) < 2 ^ 32)%Z ->
  exists r,
    backtestGoldenZone prices = Ok r /\
    (successes r + failures r = List.length (touches r))%nat /\
    successes r = List.length (filter isSuccess (touches r)) /\
    (0 <=? winRate r) = true /\ (winRate r <=? 100) = true.
Proof.
  intros Hlen.
  destruct (walk_logged prices) as (st & E & Hinv & Hlog).
  pose proof (log_count prices st Hinv Hlog) as Hcount.
  unfold backtestGoldenZone. rewrite E. cbn [bind].
  eexists. split; [reflexivity|].
  cbn [successes failures touches winRate].
  set (ts := map snd (touchLog st)).
  assert (Hts : List.length ts = List.length (touchLog st))
    by (subst ts; apply length_map).
  pose proof (filter_length_le isSuccess ts) as Hs.
  split; [lia|]. split; [reflexivity|].
  destruct (Nat.ltb_spec 0 (List.length ts)) as [Hpos|Hzero].
  - apply (percent_bounds (Z.of_nat (List.length (filter isSuccess ts)))
             (Z.of_nat (List.length ts))).
    + lia.
    + unfold COOLDOWN_BARS in Hcount. lia.
  - split; reflexivity.
Qed.

Lemma backtest_win_rate_percent_witness :
  exists r,
    backtestGoldenZone (Samples.flatBars 200) = Ok r /\
    (successes r + failures r = List.length (touches r))%nat /\
    successes r = List.length (filter isSuccess (touches r)) /\
    (0 <=? winRate r) = true /\ (winRate r <=? 100) = true.
Proof.
  apply (backtest_win_rate_percent (Samples.flatBars 200)).
  vm_compute. reflexivity.
Defined.

End TallyFacts.

(** ** Prices as they are displayed *)

Module DisplayFacts.

Import JS Notations Order Fib LevelFacts Binary64 LevelBounds.
Local Open Scope Z_scope.

Lemma fval_1e13 : fval 1e13%float = 10 ^ 13 * 2 ^ C.
Proof. vm_compute. reflexivity. Qed.

Lemma nn_1e13 : nn 1e13%float.
Proof. vm_compute. reflexivity. Qed.

(** [toFixed(2)] of a number that is zero or positive, below [10^21]. *)
Lemma toFixed2_nn (x : number) :
  nn x -> fval x < fval 1e21%float ->
  toFixed x 2 = StrFixed false (cents (fval x)) 2.
Proof.
  intros Hx Hlt. unfold toFixed.
  pose proof Hx as Hx'. unfold nn in Hx'. unfold fval in *.
  destruct (Prim2SF x) as [s|s| |[] m e] eqn:Ex; cbn [nnf] in Hx';
    try contradiction.
  - cbn [sval]. now rewrite cents_0.
  - assert (Eabs : abs x = x).
    { apply Prim2SF_inj. rewrite abs_spec, Ex. reflexivity. }
    rewrite Eabs.
    assert (Ebig : (1e21 <=? x)%float = false).
    { apply not_true_iff_false. intros Hbig.
      apply (leb_fval 1e21%float x nn_1e21 Hx) in Hbig.
      unfold fval in Hbig. rewrite Ex in Hbig. lia. }
    rewrite Ebig.
    pose proof Hx' as Hb. apply bounded_spec in Hb as (He & _).
    now rewrite roundHalfUp_cents by (unfold C; lia).
Qed.

Lemma cents_1e13 (F : Z) : F <= 10 ^ 13 * 2 ^ C -> cents F <= 10 ^ 15.
Proof.
  intros H. unfold cents.
  assert (HT : 0 < 2 ^ C) by (apply pow2_pos; unfold C; lia).
  set (T := 2 ^ C) in *. clearbody T.
  transitivity ((10 ^ 15 * (2 * T) + T) / (2 * T)).
  - apply Z.div_le_mono; [lia|].
    change (10 ^ 15) with (100 * 10 ^ 13). lia.
  - rewrite Z.div_add_l by lia. rewrite Z.div_small by lia. lia.
Qed.

Lemma cents_arith (n m K P : Z) :
  0 < P -> 200 < K ->
  (2 * m - 1) * 100 <= n * K <= (2 * m + 1) * 100 ->
  (200 * (2 * m * P) + K * P) / (2 * (K * P)) = n.
Proof.
  intros HP HK H. symmetry.
  apply (Z.div_unique _ _ n ((400 * m + K - 2 * K * n) * P)).
  - left. split.
    + apply Z.mul_nonneg_nonneg; lia.
    + replace (2 * (K * P)) with ((2 * K) * P) by ring.
      apply Z.mul_lt_mono_pos_r; lia.
  - ring.
Qed.

(** Below [10^13], the number nearest to [n / 100] shows the cents [n]. *)
Lemma nearest_cents_back (n : Z) :
  0 <= n <= 10 ^ 15 ->
  let v := SF2Prim (nearestDecimal n 2) in
  nn v /\ cents (fval v) = n /\ fval v < fval 1e21%float.
Proof.
  intros Hn. cbv zeta.
  assert (HT : 0 < 2 ^ C) by (apply pow2_pos; unfold C; lia).
  pose proof (nearestDecimal_rounded n ltac:(lia)) as H.
  unfold nn, fval.
  rewrite Prim2SF_SF2Prim by (apply (rounded_valid 100 _ _ ltac:(lia) H)).
  destruct (rounded_upper 100 _ _ (Prim2SF 1e13%float) ltac:(lia) H nn_1e13)
    as [Hnf Hup].
  { rewrite (sval_scale 100). fold (fval 1e13%float). rewrite fval_1e13.
    set (T := 2 ^ C) in *. clearbody T.
    assert (n * T <= 10 ^ 15 * T) by (apply Z.mul_le_mono_nonneg_r; lia).
    change (10 ^ 15) with (100 * 10 ^ 13) in *. lia. }
  fold (fval 1e13%float) in Hup. rewrite fval_1e13 in Hup.
  split; [exact Hnf|]. split.
  2:{ change (sval 1 (Prim2SF 1e21%float)) with (fval 1e21%float).
      rewrite fval_1e21.
      set (T := 2 ^ C) in *. clearbody T.
      assert (10 ^ 13 * T < 10 ^ 21 * T) by (apply Z.mul_lt_mono_pos_r; lia). lia. }
  destruct H as [[E [s ->]]|(HX & m & e & Hrt & Ef)].
  - cbn [sval]. rewrite cents_0.
    destruct (Z.eq_dec n 0) as [->|]; [reflexivity|].
    apply Z.mul_eq_0 in E. lia.
  - destruct (finish_spec 100 (n * 2 ^ C) m e ltac:(lia) ltac:(lia) Hrt)
      as [Einf|[_ Hs]].
    + rewrite Ef, Einf in Hnf. contradiction.
    + rewrite <- Ef in Hs. rewrite (sval_scale 100) in Hs.
      destruct Hrt as (He & _ & Hlo & Hr & _).
      unfold hu in *.
      assert (He7 : e <= -7).
      { destruct (Z_le_gt_dec e (-7)) as [|Hgt]; [assumption|exfalso].
        specialize (Hlo ltac:(lia)).
        assert (Hp : 2 ^ (C - 7) <= 2 ^ (e - 1 + C)) by (apply pow2_le; unfold C; lia).
        assert (ET : 2 ^ C = 2 ^ 7 * 2 ^ (C - 7)).
        { rewrite <- Z.pow_add_r by (unfold C; lia). f_equal; lia. }
        assert (0 < 2 ^ (C - 7)) by (apply pow2_pos; unfold C; lia).
        set (P := 2 ^ (e - 1 + C)) in *. set (P7 := 2 ^ (C - 7)) in *.
        rewrite ET in Hlo.
        assert (n * (2 ^ 7 * P7) <= 10 ^ 15 * (2 ^ 7 * P7))
          by (apply Z.mul_le_mono_nonneg_r; lia).
        assert (2 ^ 53 * (100 * P7) <= 2 ^ 53 * (100 * P))
          by (apply Z.mul_le_mono_nonneg_l; lia).
        clearbody P P7. lia. }
      set (P := 2 ^ (e - 1 + C)) in *.
      assert (HP : 0 < P) by (apply pow2_pos; unfold C; lia).
      set (K := 2 ^ (1 - e)).
      assert (HK : 2 ^ 8 <= K) by (apply pow2_le; lia).
      assert (ET : 2 ^ C = K * P).
      { subst K P. rewrite <- Z.pow_add_r by (unfold C; lia). f_equal; lia. }
      assert (Ev : sval 1 (nearestDecimal n 2) = 2 * m * P) by lia.
      unfold cents. rewrite Ev, ET.
      apply cents_arith; [assumption|lia|].
      rewrite ET in Hr. clearbody K P.
      split.
      * apply (scaled_cancel_le _ _ P HP). lia.
      * apply (scaled_cancel_le _ _ P HP). lia.
Qed.

(** Property X22. The price a level shows is the price it has: for finite
    prices [0 <= low <= high <= 10^13], the text [price.toFixed(2)] of every
    level has the digits the rounding of the level produced, and reading it
    back with [parseFloat] gives the price again. *)
Theorem level_price_display_round_trip (high low : number)
    (trend : TrendDirection) :
  finite high -> finite low ->
  (0 <=? low)%float = true -> (low <=? high)%float = true ->
  (high <=? 1e13)%float = true ->
  Forall (fun level =>
            toFixed (price level) 2 =
              toFixed (rawLevel high low trend (ratio level)) 2 /\
            parseFloat (toFixed (price level) 2) = price level)
    (calculateFibLevels high low trend).
Proof.
  intros Fh Fl H0 Hlh Hcap.
  assert (Hl : nn low) by (apply nn_intro; assumption).
  assert (Hh : nn high).
  { apply nn_intro; [assumption|]. exact (leb_trans _ _ _ H0 Hlh). }
  assert (Hle : fval low <= fval high) by (apply leb_fval; assumption).
  assert (Hc : fval high <= 10 ^ 13 * 2 ^ C).
  { rewrite <- fval_1e13. apply leb_fval; [assumption|exact nn_1e13|assumption]. }
  assert (HT : 0 < 2 ^ C) by (apply pow2_pos; unfold C; lia).
  rewrite calculateFibLevels_unfold. apply Forall_map.
  pose proof smallRatio_table as Hs. rewrite Forall_map in Hs.
  eapply Forall_impl; [|exact Hs].
  intros r Hr. cbn [levelOf price ratio].
  destruct (rawLevel_bounds high low (fr_ratio r) trend Hh Hl Hle Hr)
    as [Hn [Hlo Hhi]].
  set (x := rawLevel high low trend (fr_ratio r)) in *.
  assert (Hx21 : fval x < fval 1e21%float).
  { rewrite fval_1e21. set (T := 2 ^ C) in *. clearbody T.
    assert (10 ^ 13 * T < 10 ^ 21 * T) by (apply Z.mul_lt_mono_pos_r; lia). lia. }
  rewrite (toFixed2_nn x Hn Hx21). cbn [parseFloat].
  destruct (nearest_cents_back (cents (fval x))) as (Hnv & Ec & Hv21).
  { split; [apply cents_nonneg, fval_nonneg, Hn|apply cents_1e13; lia]. }
  rewrite (toFixed2_nn _ Hnv Hv21), Ec. cbn [parseFloat]. split; reflexivity.
Qed.

Lemma level_price_display_round_trip_witness :
  Forall (fun level =>
            toFixed (price level) 2 =
              toFixed (rawLevel 200%float 100%float uptrend (ratio level)) 2 /\
            parseFloat (toFixed (price level) 2) = price level)
    (calculateFibLevels 200%float 100%float uptrend).
Proof.
  apply (level_price_display_round_trip 200%float 100%float uptrend);
    reflexivity.
Defined.

End DisplayFacts.

(** ** The global scan on any numbers *)

Module RobustScan.

Import JS Notations Order Fib SwingFacts.
Local Open Scope string_scope.
Local Open Scope float_scope.

(** A high that the scan can pick: a number, not NaN. *)
Definition numberHigh (b : HistoricalPrice) : bool := negb (is_nan (high b)).
Definition numberLow (b : HistoricalPrice) : bool := negb (is_nan (low b)).

(** The high of a bar, with a number in the place of NaN. *)
Definition highOr (b : HistoricalPrice) : number :=
  if is_nan (high b) then neg_infinity else high b.
Definition lowOr (b : HistoricalPrice) : number :=
  if is_nan (low b) then infinity else low b.

Definition pointHighOr (b : HistoricalPrice) : SwingPoint :=
  {| sp_price := highOr b; sp_date := date b |}.
Definition pointLowOr (b : HistoricalPrice) : SwingPoint :=
  {| sp_price := lowOr b; sp_date := date b |}.

Lemma nan_gtb (x y : number) : is_nan x = true -> gtb x y = false.
Proof.
  intros H. unfold gtb. apply not_true_iff_false. intros E.
  assert (ordered x) by order. unfold ordered in *. congruence.
Qed.

Lemma nan_ltb (x y : number) : is_nan x = true -> (x <? y) = false.
Proof.
  intros H. apply not_true_iff_false. intros E.
  assert (ordered x) by order. unfold ordered in *. congruence.
Qed.

Lemma keepBest_high (acc : SwingPoint) (b : HistoricalPrice) :
  keepBest _ _ gtb always high sp_price pointHigh acc b =
  keepBest _ _ gtb numberHigh highOr sp_price pointHighOr acc b.
Proof.
  unfold keepBest, always, numberHigh, highOr, pointHighOr, pointHigh, highOr.
  destruct (is_nan (high b)) eqn:E; cbn [negb andb].
  - now rewrite nan_gtb.
  - reflexivity.
Qed.

Lemma keepBest_low (acc : SwingPoint) (b : HistoricalPrice) :
  keepBest _ _ PrimFloat.ltb always low sp_price pointLow acc b =
  keepBest _ _ PrimFloat.ltb numberLow lowOr sp_price pointLowOr acc b.
Proof.
  unfold keepBest, always, numberLow, lowOr, pointLowOr, pointLow, lowOr.
  destruct (is_nan (low b)) eqn:E; cbn [negb andb].
  - now rewrite nan_ltb.
  - reflexivity.
Qed.

Lemma fold_ext {A B} (f g : A -> B -> A) (l : list B) (a : A) :
  (forall x y, f x y = g x y) -> fold_left f l a = fold_left g l a.
Proof.
  intros H. revert a. induction l as [|b l IH]; intros a; [reflexivity|].
  cbn [fold_left]. rewrite H. apply IH.
Qed.

Lemma highOr_ordered (b : HistoricalPrice) : ordered (highOr b).
Proof.
  unfold highOr, ordered. destruct (is_nan (high b)) eqn:E; [reflexivity|exact E].
Qed.

Lemma lowOr_ordered (b : HistoricalPrice) : ordered (lowOr b).
Proof.
  unfold lowOr, ordered. destruct (is_nan (low b)) eqn:E; [reflexivity|exact E].
Qed.

Lemma numberHigh_highOr (b : HistoricalPrice) :
  numberHigh b = true -> highOr b = high b /\ ordered (high b).
Proof.
  unfold numberHigh, highOr, ordered. destruct (is_nan (high b)); [discriminate|auto].
Qed.

Lemma numberLow_lowOr (b : HistoricalPrice) :
  numberLow b = true -> lowOr b = low b /\ ordered (low b).
Proof.
  unfold numberLow, lowOr, ordered. destruct (is_nan (low b)); [discriminate|auto].
Qed.

(** [bar], at index [i], has the greatest high among the highs that are
    numbers, and no earlier bar reaches it. *)
Definition firstMaxNumberHigh (prices : list HistoricalPrice) (i : nat)
    (bar : HistoricalPrice) : Prop :=
  nth_error prices i = Some bar /\ (neg_infinity <? high bar) = true /\
  (forall k b, nth_error prices k = Some b -> ordered (high b) ->
     (high b <=? high bar) = true) /\
  (forall k b, (k < i)%nat -> nth_error prices k = Some b -> ordered (high b) ->
     (high b <? high bar) = true).

Definition firstMinNumberLow (prices : list HistoricalPrice) (i : nat)
    (bar : HistoricalPrice) : Prop :=
  nth_error prices i = Some bar /\ (low bar <? infinity) = true /\
  (forall k b, nth_error prices k = Some b -> ordered (low b) ->
     (low bar <=? low b) = true) /\
  (forall k b, (k < i)%nat -> nth_error prices k = Some b -> ordered (low b) ->
     (low bar <? low b) = true).

Lemma not_gtb_leb (x y : number) :
  ordered x -> ordered y -> gtb x y = false -> (x <=? y) = true.
Proof. unfold gtb. intros Hx Hy H. rewrite leb_not_ltb by assumption. now rewrite H. Qed.

Lemma not_ltb_leb (x y : number) :
  ordered x -> ordered y -> (x <? y) = false -> (y <=? x) = true.
Proof. intros Hx Hy H. rewrite leb_not_ltb by assumption. now rewrite H. Qed.

Lemma scan_high (prices : list HistoricalPrice) :
  let r := swingHigh (fold_left scanBar prices noSwing) in
  (r = swingHigh noSwing /\
   forall b, In b prices -> (neg_infinity <? high b) = false) \/
  (exists i hi, r = pointHigh hi /\ firstMaxNumberHigh prices i hi).
Proof.
  cbv zeta. rewrite scan_swingHigh.
  rewrite (fold_ext _ _ _ _ keepBest_high).
  destruct (fold_best _ _ gtb numberHigh highOr sp_price pointHighOr
              (fun _ => eq_refl) gtb_trans gtb_cotrans prices
              (proj2 (Forall_forall _ _) (fun b _ => highOr_ordered b))
              (swingHigh noSwing) ordered_neg_infinity)
    as [[E Hno]|(l1 & hi & l2 & -> & E & Hb & Hc & H1 & H2)].
  - left. split; [exact E|]. intros b Hb.
    destruct (is_nan (high b)) eqn:En; [now apply nan_gtb|].
    specialize (Hno b Hb). unfold numberHigh, highOr in Hno. rewrite En in Hno.
    exact (Hno eq_refl).
  - right. exists (List.length l1), hi.
    destruct (numberHigh_highOr hi Hc) as [Ehi Ohi].
    split; [rewrite E; unfold pointHighOr, pointHigh; now rewrite Ehi|].
    rewrite Ehi in *. split; [|split; [exact Hb|split]].
    + rewrite nth_error_app2, Nat.sub_diag by lia. reflexivity.
    + intros k b Ek Ob. apply nth_error_In in Ek.
      assert (Hcb : numberHigh b = true) by (unfold numberHigh; now rewrite Ob).
      destruct (numberHigh_highOr b Hcb) as [Eb _].
      apply in_app_or in Ek as [Hin|[<-|Hin]].
      * specialize (H1 b Hin Hcb). rewrite Eb in H1. now apply ltb_leb.
      * now apply leb_refl.
      * specialize (H2 b Hin Hcb). rewrite Eb in H2. now apply not_gtb_leb.
    + intros k b Hk Ek Ob.
      assert (Hcb : numberHigh b = true) by (unfold numberHigh; now rewrite Ob).
      destruct (numberHigh_highOr b Hcb) as [Eb _].
      rewrite nth_error_app1 in Ek by exact Hk. apply nth_error_In in Ek.
      specialize (H1 b Ek Hcb). now rewrite Eb in H1.
Qed.

Lemma scan_low (prices : list HistoricalPrice) :
  let r := swingLow (fold_left scanBar prices noSwing) in
  (r = swingLow noSwing /\
   forall b, In b prices -> (low b <? infinity) = false) \/
  (exists i lo, r = pointLow lo /\ firstMinNumberLow prices i lo).
Proof.
  cbv zeta. rewrite scan_swingLow.
  rewrite (fold_ext _ _ _ _ keepBest_low).
  destruct (fold_best _ _ PrimFloat.ltb numberLow lowOr sp_price pointLowOr
              (fun _ => eq_refl) ltb_trans ltb_cotrans prices
              (proj2 (Forall_forall _ _) (fun b _ => lowOr_ordered b))
              (swingLow noSwing) ordered_infinity)
    as [[E Hno]|(l1 & lo & l2 & -> & E & Hb & Hc & H1 & H2)].
  - left. split; [exact E|]. intros b Hb.
    destruct (is_nan (low b)) eqn:En; [now apply nan_ltb|].
    specialize (Hno b Hb). unfold numberLow, lowOr in Hno. rewrite En in Hno.
    exact (Hno eq_refl).
  - right. exists (List.length l1), lo.
    destruct (numberLow_lowOr lo Hc) as [Elo Olo].
    split; [rewrite E; unfold pointLowOr, pointLow; now rewrite Elo|].
    rewrite Elo in *. split; [|split; [exact Hb|split]].
    + rewrite nth_error_app2, Nat.sub_diag by lia. reflexivity.
    + intros k b Ek Ob. apply nth_error_In in Ek.
      assert (Hcb : numberLow b = true) by (unfold numberLow; now rewrite Ob).
      destruct (numberLow_lowOr b Hcb) as [Eb _].
      apply in_app_or in Ek as [Hin|[<-|Hin]].
      * specialize (H1 b Hin Hcb). rewrite Eb in H1. now apply ltb_leb.
      * now apply leb_refl.
      * specialize (H2 b Hin Hcb). rewrite Eb in H2. now apply not_ltb_leb.
    + intros k b Hk Ek Ob.
      assert (Hcb : numberLow b = true) by (unfold numberLow; now rewrite Ob).
      destruct (numberLow_lowOr b Hcb) as [Eb _].
      rewrite nth_error_app1 in Ek by exact Hk. apply nth_error_In in Ek.
      specialize (H1 b Ek Hcb). now rewrite Eb in H1.
Qed.

(** Property X23. The global scan on any numbers: a high that is NaN is
    never picked and never stands in the way. The swing high is the first
    bar of greatest high among the highs that are numbers; it stays at
    [-Infinity], with an empty date, exactly when no bar has a high above
    [-Infinity]. The swing low mirrors this, with [Infinity]. *)
Theorem detectSwingPoints_ignores_nan (prices : list HistoricalPrice) :
  prices <> [] ->
  exists sw,
    detectSwingPoints prices None = Ok sw /\
    ((swingHigh sw = {| sp_price := neg_infinity; sp_date := "" |} /\
      forall b, In b prices -> (neg_infinity <? high b) = false) \/
     (exists i hi, swingHigh sw = pointHigh hi /\
        firstMaxNumberHigh prices i hi)) /\
    ((swingLow sw = {| sp_price := infinity; sp_date := "" |} /\
      forall b, In b prices -> (low b <? infinity) = false) \/
     (exists j lo, swingLow sw = pointLow lo /\
        firstMinNumberLow prices j lo)).
Proof.
  intros Hne. destruct prices as [|b0 rest] eqn:Ep; [congruence|].
  rewrite <- Ep. exists (fold_left scanBar prices noSwing).
  split; [rewrite Ep; reflexivity|].
  split; [apply scan_high|apply scan_low].
Qed.

(** Four days, the second without a high, the third without a low. *)
Definition gappyBars : list HistoricalPrice :=
  [ mkBar "2024-01-02" 11 9 10;
    mkBar "2024-01-03" nan 8 11;
    mkBar "2024-01-04" 12 nan 9;
    mkBar "2024-01-05" 10 9 9.5 ].

Lemma detectSwingPoints_ignores_nan_witness :
  exists sw,
    detectSwingPoints gappyBars None = Ok sw /\
    ((swingHigh sw = {| sp_price := neg_infinity; sp_date := "" |} /\
      forall b, In b gappyBars -> (neg_infinity <? high b) = false) \/
     (exists i hi, swingHigh sw = pointHigh hi /\
        firstMaxNumberHigh gappyBars i hi)) /\
    ((swingLow sw = {| sp_price := infinity; sp_date := "" |} /\
      forall b, In b gappyBars -> (low b <? infinity) = false) \/
     (exists j lo, swingLow sw = pointLow lo /\
        firstMinNumberLow gappyBars j lo)).
Proof.
  apply (detectSwingPoints_ignores_nan gappyBars). discriminate.
Defined.

End RobustScan.

(** ** The signal at the edges *)

Module SignalEdges.

Import JS Notations Order Fib LevelFacts.
Local Open Scope string_scope.
Local Open Scope float_scope.

(** The first comparison of [determineSignal] succeeds: the price is on the
    near side of the first level. *)
Definition pastFirst (trend : TrendDirection) (cp : number) (first : FibLevel)
    : bool :=
  match trend with
  | uptrend => geb cp (price first)
  | downtrend => cp <=? price first
  end.

(** Property X24. On any list of levels, [determineSignal] throws (a
    [TypeError]) in two cases only: the list is empty, so that there is no
    first level to read the price of; or no level is flagged as the Golden
    Zone and the first comparison fails, so that the price of the missing
    golden level is read. With a first level and a golden level it always
    returns. *)
Theorem determineSignal_throws (cp : number) (levels : list FibLevel)
    (trend : TrendDirection) :
  match levels with
  | [] => determineSignal cp levels trend = Throw TypeError
  | first :: _ =>
      if pastFirst trend cp first
      then exists reason,
             determineSignal cp levels trend =
             Ok (match trend with uptrend => success | downtrend => danger end,
                 reason)
      else match find isGoldenZone levels with
           | None => determineSignal cp levels trend = Throw TypeError
           | Some _ => exists sr, determineSignal cp levels trend = Ok sr
           end
  end.
Proof.
  destruct levels as [|first rest].
  - destruct trend; reflexivity.
  - unfold determineSignal, pastFirst, index. cbn [nth_error bind].
    destruct trend.
    + destruct (geb cp (price first)); [eexists; reflexivity|].
      destruct (find isGoldenZone (first :: rest)) as [g|]; [|reflexivity].
      cbn [bind]. destruct (geb cp (price g)); eexists; reflexivity.
    + destruct (cp <=? price first); [eexists; reflexivity|].
      destruct (find isGoldenZone (first :: rest)) as [g|]; [|reflexivity].
      cbn [bind]. destruct (cp <=? price g); eexists; reflexivity.
Qed.

Lemma nan_leb_l (x y : number) : is_nan x = true -> (x <=? y) = false.
Proof.
  intros H. apply not_true_iff_false. intros E.
  assert (ordered x) by order. unfold ordered in *. congruence.
Qed.

Lemma nan_leb_r (x y : number) : is_nan y = true -> (x <=? y) = false.
Proof.
  intros H. apply not_true_iff_false. intros E.
  assert (ordered y) by order. unfold ordered in *. congruence.
Qed.

Lemma is_nan_spec (x : number) : is_nan x = true <-> Prim2SF x = S754_nan.
Proof.
  pose proof (ordered_spec x) as H. unfold ordered in H.
  destruct (is_nan x); split; intros E; try reflexivity; try discriminate.
  - destruct (Prim2SF x) as [s|s| |s m e]; try reflexivity;
      exfalso; assert (true = false) by (apply H; discriminate); discriminate.
  - exfalso. apply (proj1 H eq_refl). exact E.
Qed.

(** NaN goes through the level formula. *)
Lemma rawLevel_nan (high low r : number) (trend : TrendDirection) :
  is_nan high = true \/ is_nan low = true ->
  is_nan (rawLevel high low trend r) = true.
Proof.
  intros H.
  assert (Hd : Prim2SF (high - low) = S754_nan).
  { rewrite sub_spec. destruct H as [H|H]; apply is_nan_spec in H; rewrite H.
    - reflexivity.
    - destruct (Prim2SF high) as [s|s| |s m e]; reflexivity. }
  assert (Hm : Prim2SF ((high - low) * r) = S754_nan)
    by (rewrite mul_spec, Hd; reflexivity).
  apply is_nan_spec. unfold rawLevel. cbv zeta. destruct trend.
  - rewrite sub_spec, Hm. destruct (Prim2SF high) as [s|s| |s m e]; reflexivity.
  - rewrite add_spec, Hm. destruct (Prim2SF low) as [s|s| |s m e]; reflexivity.
Qed.

Lemma round_nan (x : number) (f : nat) :
  is_nan x = true -> is_nan (parseFloat (toFixed x f)) = true.
Proof.
  intros H. apply is_nan_spec in H. unfold toFixed. rewrite H. reflexivity.
Qed.

(** Property X25. A current price that is NaN fails every comparison and
    falls through to the last branch: on the levels of [calculateFibLevels]
    the signal is then unfavorable in an uptrend and favorable in a
    downtrend. The same holds, for every current price, when the high or the
    low is NaN, since every level price is then NaN. *)
Theorem determineSignal_nan (high low : number) (t trend : TrendDirection)
    (cp : number) :
  is_nan cp = true \/ is_nan high = true \/ is_nan low = true ->
  signalAt (calculateFibLevels high low t) trend cp =
  Ok (match trend with uptrend => danger | downtrend => success end).
Proof.
  intros H. rewrite determineSignal_rule. f_equal.
  unfold signalRule, geb.
  destruct H as [H|H].
  - destruct trend; now rewrite ?nan_leb_l, ?nan_leb_r by exact H.
  - pose proof (round_nan _ 2 (rawLevel_nan high low 0.236 t H)) as Hs.
    pose proof (round_nan _ 2 (rawLevel_nan high low 0.618 t H)) as Hg.
    destruct trend; now rewrite ?nan_leb_l, ?nan_leb_r by assumption.
Qed.

Lemma determineSignal_nan_witness :
  signalAt (calculateFibLevels 200 100 downtrend) downtrend nan =
  Ok (match downtrend with uptrend => danger | downtrend => success end).
Proof.
  apply (determineSignal_nan 200 100 downtrend downtrend nan).
  left. reflexivity.
Defined.

End SignalEdges.

(** ** Binary64 rounding with a sign *)

Module Signed.

Import Binary64.
Local Open Scope Z_scope.

(** Rounding does not look at the sign. *)
Lemma binary_round_aux_opp (mx ex : Z) (lx : location) :
  binary_round_aux prec emax true mx ex lx =
  SFopp (binary_round_aux prec emax false mx ex lx).
Proof.
  unfold binary_round_aux.
  destruct (shr_fexp prec emax mx ex lx) as [mrs' e'].
  destruct (shr_fexp prec emax _ e' loc_Exact) as [mrs'' e''].
  destruct (shr_m mrs'') as [|m|m]; [reflexivity| |reflexivity].
  destruct (e'' <=? emax - prec); reflexivity.
Qed.

Lemma binary_round_opp (p : positive) (e : Z) :
  binary_round prec emax true p e = SFopp (binary_round prec emax false p e).
Proof.
  unfold binary_round.
  destruct (shl_align p e _) as [mz ez]. apply binary_round_aux_opp.
Qed.

(** Zero, a negative number, or minus infinity. *)
Definition nonpos (f : spec_float) : Prop :=
  match f with
  | S754_zero _ => True
  | S754_infinity s => s = true
  | S754_nan => False
  | S754_finite s _ _ => s = true
  end.

Lemma nonpos_leb (f g : spec_float) : nonpos f -> nnf g -> SFleb f g = true.
Proof.
  destruct f as [s|s| |s m e], g as [s'|s'| |[] m' e']; cbn [nonpos nnf];
    intros Hf Hg; try contradiction; subst; reflexivity.
Qed.

Lemma opp_nonpos (g : spec_float) :
  g = S754_infinity false \/ nnf g -> nonpos (SFopp g).
Proof.
  intros [->|H]; [reflexivity|].
  destruct g as [s|s| |[] m e]; cbn [nnf] in H; try contradiction; reflexivity.
Qed.

(** Negation turns the order around. *)
Lemma opp_leb (f g : spec_float) :
  nnf f -> g = S754_infinity false \/ nnf g ->
  SFleb f g = true -> SFleb (SFopp g) (SFopp f) = true.
Proof.
  intros Hf [->|Hg] H.
  - destruct f as [s|s| |[] m e]; cbn [nnf] in Hf; try contradiction; reflexivity.
  - destruct f as [s|s| |[] m e], g as [s'|s'| |[] m' e']; cbn [nnf] in *;
      try contradiction; try reflexivity; try discriminate H.
    unfold SFleb, SFcompare in *. cbn [SFopp].
    destruct (e ?= e') eqn:Ee.
    + apply Z.compare_eq in Ee. subst e'. rewrite Z.compare_refl.
      change (Pos.compare_cont Eq m m') with (Pos.compare m m') in H.
      change (Pos.compare_cont Eq m' m) with (Pos.compare m' m).
      rewrite (Pos.compare_antisym m m').
      destruct (Pos.compare m m'); cbn; try reflexivity; discriminate H.
    + rewrite Z.compare_antisym, Ee. reflexivity.
    + discriminate H.
Qed.

(** The difference of two numbers the other way around. *)
Lemma SFsub_swap (a b : spec_float) :
  nnf a -> nnf b -> sval 1 a < sval 1 b ->
  SFsub prec emax a b = SFopp (SFsub prec emax b a).
Proof.
  intros Ha Hb Hlt.
  destruct a as [sa|sa| |[] ma ea], b as [sb|sb| |[] mb eb];
    cbn [nnf] in *; try contradiction.
  - cbn [sval] in Hlt. lia.
  - reflexivity.
  - exfalso. apply bounded_spec in Ha as (He & _).
    pose proof (hu_pos 1 ea ltac:(lia) ltac:(unfold C; lia)).
    cbn [sval] in Hlt. nia.
  - cbn [SFsub cond_Zopp].
    pose proof Ha as Ha'. pose proof Hb as Hb'.
    apply bounded_spec in Ha' as (Hea & _). apply bounded_spec in Hb' as (Heb & _).
    rewrite (Z.min_comm eb ea).
    pose proof (shl_align_spec ma ea (Z.min ea eb)) as Sa.
    pose proof (shl_align_spec mb eb (Z.min ea eb)) as Sb.
    destruct (shl_align ma ea (Z.min ea eb)) as [ma' ea'].
    destruct (shl_align mb eb (Z.min ea eb)) as [mb' eb'].
    destruct Sa as [Ea Ma], Sb as [Eb Mb]. cbn [fst].
    replace ea' with (Z.min ea eb) in Ma by lia.
    replace eb' with (Z.min ea eb) in Mb by lia.
    set (ez := Z.min ea eb) in *.
    assert (Hlt' : Zpos ma' < Zpos mb').
    { cbn [sval] in Hlt.
      rewrite (sval_finite 1 ma ea ez), (sval_finite 1 mb eb ez) in Hlt
        by (unfold C; lia).
      rewrite <- Ma, <- Mb in Hlt.
      pose proof (hu_pos 1 ez ltac:(lia) ltac:(unfold C; lia)) as Hh.
      apply (scaled_cancel_lt _ _ (hu 1 ez) Hh). lia. }
    destruct (Zpos mb' - Zpos ma') as [|p|p] eqn:Ep; try lia.
    replace (Zpos ma' - Zpos mb') with (Zneg p) by lia.
    cbn [binary_normalize]. apply binary_round_opp.
Qed.

End Signed.

(** ** The Y axis of the chart *)

Module DomainFacts.

Import JS Notations Order Fib Chart Binary64 LevelBounds Signed.
Local Open Scope Z_scope.

Lemma valid_opp (f : spec_float) :
  valid_binary (SFopp f) = valid_binary f.
Proof. destruct f; reflexivity. Qed.

(** A number with a negative exponent, on the scale. *)
Lemma fraction_scale (m : positive) (e : Z) :
  -1074 <= e < 0 ->
  sval 1 (S754_finite false m e) = Zpos m * 2 ^ (e + C) /\
  2 ^ C = 2 ^ (- e) * 2 ^ (e + C) /\ 0 < 2 ^ (e + C) /\ 0 < 2 ^ (- e).
Proof.
  intros He. cbn [sval]. unfold hu. repeat split.
  - replace (e + C) with (1 + (e - 1 + C)) by lia.
    rewrite (Z.pow_add_r 2 1 (e - 1 + C)) by (unfold C; lia).
    change (2 ^ 1) with 2. ring.
  - rewrite <- Z.pow_add_r by (unfold C; lia). f_equal; lia.
  - apply pow2_pos. unfold C. lia.
  - apply pow2_pos. lia.
Qed.

Lemma integer_scale (z : Z) : 2 * z * hu 1 0 = z * 2 ^ C.
Proof.
  unfold hu. replace (2 ^ C) with (2 ^ (1 + (0 - 1 + C))) by (f_equal; lia).
  rewrite (Z.pow_add_r 2 1 (0 - 1 + C)) by (unfold C; lia).
  change (2 ^ 1) with 2. ring.
Qed.

Lemma mathFloor_le (x : number) :
  ordered x -> (mathFloor x <=? x)%float = true.
Proof.
  intros Hx. unfold mathFloor.
  pose proof (Prim2SF_valid x) as Hv.
  destruct (Prim2SF x) as [s|s| |s m e] eqn:Ex; try (now apply leb_refl).
  destruct (Z.ltb_spec e 0) as [He|He]; [|now apply leb_refl].
  cbn [valid_binary] in Hv. pose proof Hv as Hb.
  apply bounded_spec in Hb as (He' & _).
  destruct (fraction_scale m e ltac:(lia)) as (Ey & ET & HP & HK).
  set (K := 2 ^ (- e)) in *. set (P := 2 ^ (e + C)) in *.
  assert (HT : 0 < 2 ^ C) by (apply pow2_pos; unfold C; lia).
  rewrite leb_spec, Ex.
  destruct s; cbn [cond_Zopp].
  - (* a negative number: minus the ceiling of its magnitude *)
    change (- Zpos m) with (Zneg m).
    pose proof (Z.mul_div_le (Zneg m) K HK) as Hdiv.
    assert (Hneg : Zneg m / K < 0) by (apply Z.div_lt_upper_bound; lia).
    destruct (Zneg m / K) as [|p|p] eqn:Ez; try lia.
    cbn [binary_normalize]. rewrite binary_round_opp.
    pose proof (binary_round_spec 1 p 0 ltac:(lia) ltac:(lia)) as Hr.
    rewrite integer_scale in Hr.
    rewrite Prim2SF_SF2Prim
      by (rewrite valid_opp; apply (rounded_valid 1 _ _ ltac:(lia) Hr)).
    change (S754_finite true m e) with (SFopp (S754_finite false m e)).
    apply opp_leb; [exact Hv|apply (rounded_cases 1 _ _ ltac:(lia) Hr)|].
    apply (rounded_leb 1 (sval 1 (S754_finite false m e)) (Zpos p * 2 ^ C));
      [lia| |apply rounded_self; [lia|exact Hv]|exact Hr].
    rewrite Ey, ET.
    replace (Zpos p * (K * P)) with ((Zpos p * K) * P) by ring.
    apply Z.mul_le_mono_nonneg_r; lia.
  - (* a positive number: the floor of its magnitude *)
    pose proof (Z.mul_div_le (Zpos m) K HK) as Hdiv.
    assert (Hpos : 0 <= Zpos m / K) by (apply Z.div_pos; lia).
    pose proof (binary_normalize_spec 1 (Zpos m / K) 0 ltac:(lia) ltac:(lia) Hpos)
      as Hr.
    rewrite integer_scale in Hr.
    rewrite Prim2SF_SF2Prim by (apply (rounded_valid 1 _ _ ltac:(lia) Hr)).
    destruct (rounded_upper 1 _ _ (S754_finite false m e) ltac:(lia) Hr Hv)
      as [Hn Hle].
    { rewrite Ey, ET.
      replace (Zpos m / K * (K * P)) with ((K * (Zpos m / K)) * P) by ring.
      apply Z.mul_le_mono_nonneg_r; lia. }
    apply (nnf_leb 1); [lia|assumption..].
Qed.

Lemma mathCeil_ge (x : number) :
  ordered x -> (x <=? mathCeil x)%float = true.
Proof.
  intros Hx. unfold mathCeil.
  pose proof (Prim2SF_valid x) as Hv.
  destruct (Prim2SF x) as [s|s| |s m e] eqn:Ex; try (now apply leb_refl).
  destruct (Z.ltb_spec e 0) as [He|He]; [|now apply leb_refl].
  cbn [valid_binary] in Hv. pose proof Hv as Hb.
  apply bounded_spec in Hb as (He' & _).
  destruct (fraction_scale m e ltac:(lia)) as (Ey & ET & HP & HK).
  set (K := 2 ^ (- e)) in *. set (P := 2 ^ (e + C)) in *.
  assert (HT : 0 < 2 ^ C) by (apply pow2_pos; unfold C; lia).
  rewrite leb_spec, Ex.
  destruct s; cbn [cond_Zopp].
  - (* a negative number: minus the floor of its magnitude *)
    change (- - Zpos m) with (Zpos m).
    pose proof (Z.mul_div_le (Zpos m) K HK) as Hdiv.
    assert (Hpos : 0 <= Zpos m / K) by (apply Z.div_pos; lia).
    destruct (Zpos m / K) as [|p|p] eqn:Ez; try lia.
    + cbn [Z.opp binary_normalize].
      rewrite Prim2SF_SF2Prim by reflexivity. reflexivity.
    + cbn [Z.opp binary_normalize]. rewrite binary_round_opp.
      pose proof (binary_round_spec 1 p 0 ltac:(lia) ltac:(lia)) as Hr.
      rewrite integer_scale in Hr.
      rewrite Prim2SF_SF2Prim
        by (rewrite valid_opp; apply (rounded_valid 1 _ _ ltac:(lia) Hr)).
      change (S754_finite true m e) with (SFopp (S754_finite false m e)).
      destruct (rounded_upper 1 _ _ (S754_finite false m e) ltac:(lia) Hr Hv)
        as [Hn Hle].
      { rewrite Ey, ET.
        replace (Zpos p * (K * P)) with ((K * Zpos p) * P) by ring.
        apply Z.mul_le_mono_nonneg_r; lia. }
      apply opp_leb; [exact Hn|right; exact Hv|].
      apply (nnf_leb 1); [lia|assumption..].
  - (* a positive number: the ceiling of its magnitude *)
    pose proof (Z.mul_div_le (Zneg m) K HK) as Hdiv.
    change (- Zpos m) with (Zneg m).
    assert (Hneg : Zneg m / K < 0) by (apply Z.div_lt_upper_bound; lia).
    destruct (Zneg m / K) as [|p|p] eqn:Ez; try lia.
    cbn [Z.opp binary_normalize].
    pose proof (binary_round_spec 1 p 0 ltac:(lia) ltac:(lia)) as Hr.
    rewrite integer_scale in Hr.
    rewrite Prim2SF_SF2Prim by (apply (rounded_valid 1 _ _ ltac:(lia) Hr)).
    apply (rounded_leb 1 (sval 1 (S754_finite false m e)) (Zpos p * 2 ^ C));
      [lia| |apply rounded_self; [lia|exact Hv]|exact Hr].
    rewrite Ey, ET.
    replace (Zpos p * (K * P)) with ((Zpos p * K) * P) by ring.
    apply Z.mul_le_mono_nonneg_r; lia.
Qed.


(** *** The running minimum and maximum *)

Local Open Scope float_scope.

(** [Math.floor] and [Math.ceil] on some numbers, the signs of zero
    included. *)
Example mathFloor_samples :
  map mathFloor [2.5; -2.5; 0.5; 7; -0.25; 1e300; 123456.789] =
    [2; -3; 0; 7; -1; 1e300; 123456] /\
  map mathCeil [2.5; -2.5; 0.5; 7; -0.25; 1e300; 123456.789] =
    [3; -2; 1; 7; -0; 1e300; 123457] /\
  Prim2SF (mathCeil (-0.25)) = S754_zero true /\
  Prim2SF (mathFloor 0.5) = S754_zero false.
Proof. vm_compute. repeat split; reflexivity. Qed.


Definition runMin (l : list number) (init : number) : number :=
  fold_left (fun lo x => if x <? lo then x else lo) l init.

Definition runMax (l : list number) (init : number) : number :=
  fold_left (fun hi x => if gtb x hi then x else hi) l init.

Lemma runMin_spec (l : list number) :
  Forall ordered l -> forall init, ordered init ->
  ordered (runMin l init) /\ (runMin l init <=? init) = true /\
  Forall (fun x => (runMin l init <=? x) = true) l /\
  (runMin l init = init \/ In (runMin l init) l).
Proof.
  unfold runMin.
  induction 1 as [|x l Hx Hl IH]; intros init Hinit; cbn [fold_left].
  - repeat split; [assumption|now apply leb_refl|constructor|now left].
  - destruct (x <? init) eqn:E.
    + destruct (IH x Hx) as (Ho & H1 & H2 & H3).
      repeat split; [assumption| |constructor; assumption|].
      * exact (leb_trans _ _ _ H1 (ltb_leb _ _ E)).
      * right. destruct H3 as [->|H3]; [now left|now right].
    + destruct (IH init Hinit) as (Ho & H1 & H2 & H3).
      repeat split; [assumption..| |].
      * constructor; [|assumption].
        apply (leb_trans _ _ _ H1).
        rewrite leb_not_ltb by assumption. now rewrite E.
      * destruct H3 as [->|H3]; [now left|right; now right].
Qed.

Lemma runMax_spec (l : list number) :
  Forall ordered l -> forall init, ordered init ->
  ordered (runMax l init) /\ (init <=? runMax l init) = true /\
  Forall (fun x => (x <=? runMax l init) = true) l /\
  (runMax l init = init \/ In (runMax l init) l).
Proof.
  unfold runMax, gtb.
  induction 1 as [|x l Hx Hl IH]; intros init Hinit; cbn [fold_left].
  - repeat split; [assumption|now apply leb_refl|constructor|now left].
  - destruct (init <? x) eqn:E.
    + destruct (IH x Hx) as (Ho & H1 & H2 & H3).
      repeat split; [assumption| |constructor; assumption|].
      * exact (leb_trans _ _ _ (ltb_leb _ _ E) H1).
      * right. destruct H3 as [->|H3]; [now left|now right].
    + destruct (IH init Hinit) as (Ho & H1 & H2 & H3).
      repeat split; [assumption..| |].
      * constructor; [|assumption].
        refine (leb_trans _ _ _ _ H1).
        rewrite leb_not_ltb by assumption. now rewrite E.
      * destruct H3 as [->|H3]; [now left|right; now right].
Qed.

(** The two scans of the domain, as a running minimum and maximum. *)
Lemma scanRow_fold (data : list ChartRow) (acc : number * number) :
  fold_left scanRow data acc =
  (runMin (map cr_low data) (fst acc), runMax (map cr_high data) (snd acc)).
Proof.
  revert acc. induction data as [|d data IH]; intros acc.
  - now destruct acc.
  - cbn [fold_left map]. rewrite IH. reflexivity.
Qed.

Lemma scanLevel_fold (levels : list FibLevel) (acc : number * number) :
  fold_left scanLevel levels acc =
  (runMin (map price levels) (fst acc), runMax (map price levels) (snd acc)).
Proof.
  revert acc. induction levels as [|fl levels IH]; intros acc.
  - now destruct acc.
  - cbn [fold_left map]. rewrite IH. reflexivity.
Qed.

(** *** The padding *)

Local Open Scope Z_scope.

Lemma pad_nn (lo hi : number) :
  nn lo -> nn hi -> fval lo <= fval hi -> nn ((hi - lo) * 0.04)%float.
Proof.
  intros Hl Hh Hle.
  assert (HT : 0 < 2 ^ C) by (apply pow2_pos; unfold C; lia).
  pose proof (fval_nonneg _ Hl) as Hl0.
  pose proof (sub_rounded hi lo Hh Hl Hle) as Hd.
  destruct (rounded_upper 1 _ _ (Prim2SF hi) ltac:(lia) Hd Hh) as [Hnd _];
    [fold (fval hi); lia|].
  assert (Hn4 : nn 0.04%float) by (vm_compute; reflexivity).
  assert (H4 : fval 0.04%float <= 2 ^ C) by (apply Z.leb_le; vm_compute; reflexivity).
  pose proof (mul_rounded (hi - lo)%float 0.04%float Hnd Hn4) as Hp.
  destruct (rounded_upper (2 ^ C) _ _ (Prim2SF (hi - lo)%float) HT Hp Hnd)
    as [Hnp _]; [|exact Hnp].
  rewrite (sval_scale (2 ^ C)). fold (fval (hi - lo)%float).
  rewrite Z.mul_comm. apply Z.mul_le_mono_nonneg_r; [|exact H4].
  now apply fval_nonneg.
Qed.

Lemma sub_pad_le (lo pad : number) :
  nn lo -> nn pad -> (lo - pad <=? lo)%float = true.
Proof.
  intros Hl Hp. rewrite leb_spec, sub_spec.
  pose proof (fval_nonneg _ Hp) as Hp0.
  destruct (Z_le_gt_dec (fval pad) (fval lo)) as [Hle|Hgt].
  - pose proof (SFsub_spec _ _ Hl Hp Hle) as Hr.
    destruct (rounded_upper 1 _ _ (Prim2SF lo) ltac:(lia) Hr Hl) as [Hn Hs];
      [fold (fval lo) (fval pad); lia|].
    apply (nnf_leb 1); [lia|assumption..].
  - unfold SF64sub. rewrite SFsub_swap by (assumption || (fold (fval lo) (fval pad); lia)).
    pose proof (SFsub_spec _ _ Hp Hl ltac:(fold (fval lo) (fval pad); lia)) as Hr.
    apply nonpos_leb; [|exact Hl].
    apply opp_nonpos, (rounded_cases 1 _ _ ltac:(lia) Hr).
Qed.

Lemma add_pad_ge (hi pad : number) :
  nn hi -> nn pad -> (hi <=? hi + pad)%float = true.
Proof.
  intros Hh Hp. rewrite leb_spec, add_spec.
  pose proof (fval_nonneg _ Hp) as Hp0.
  apply (rounded_leb 1 (sval 1 (Prim2SF hi)) (sval 1 (Prim2SF hi) + sval 1 (Prim2SF pad)));
    [lia|fold (fval pad); lia|apply rounded_self; [lia|exact Hh]|].
  now apply SFadd_spec.
Qed.


(** *** The domain *)

Local Open Scope float_scope.

(** A value the chart plots: a finite number, zero or positive. *)
Definition plottable (x : number) : Prop := finite x /\ (0 <=? x) = true.

Lemma plottable_nn (x : number) : plottable x -> nn x.
Proof. intros [H1 H2]. now apply nn_intro. Qed.

Lemma plottable_ordered (x : number) : plottable x -> ordered x.
Proof. intros [H1 _]. now apply finite_ordered. Qed.

Lemma leb_ordered_l (x y : number) : (x <=? y) = true -> ordered x.
Proof. order. Qed.

Lemma leb_ordered_r (x y : number) : (x <=? y) = true -> ordered y.
Proof. order. Qed.

Lemma infinity_not_below (x : number) : finite x -> (infinity <=? x) = false.
Proof. order. Qed.

Lemma neg_infinity_not_above (x : number) :
  finite x -> (x <=? neg_infinity) = false.
Proof. order. Qed.

(** The bounds before padding: below and above everything plotted, and
    plotted values themselves when there is anything to plot. *)
Lemma bounds_spec (lows highs : list number) :
  Forall plottable lows -> Forall plottable highs ->
  (exists l h, In l lows /\ In h highs /\ (l <=? h) = true) ->
  let lo := runMin lows infinity in
  let hi := runMax highs neg_infinity in
  nn lo /\ nn hi /\ (lo <=? hi) = true /\
  Forall (fun x => (lo <=? x) = true) lows /\
  Forall (fun x => (x <=? hi) = true) highs.
Proof.
  intros Hl Hh (l & h & Il & Ih & Hlh). cbv zeta.
  destruct (runMin_spec lows (Forall_impl _ plottable_ordered Hl)
              infinity ordered_infinity) as (_ & _ & L2 & L3).
  destruct (runMax_spec highs (Forall_impl _ plottable_ordered Hh)
              neg_infinity ordered_neg_infinity) as (_ & _ & H2 & H3).
  rewrite Forall_forall in Hl, Hh.
  pose proof (proj1 (Forall_forall _ _) L2 l Il) as Ll.
  pose proof (proj1 (Forall_forall _ _) H2 h Ih) as Hhh.
  assert (Nl : nn (runMin lows infinity)).
  { destruct L3 as [E|Hin]; [|apply plottable_nn, Hl, Hin].
    rewrite E in Ll. rewrite infinity_not_below in Ll by apply (Hl l Il).
    discriminate. }
  assert (Nh : nn (runMax highs neg_infinity)).
  { destruct H3 as [E|Hin]; [|apply plottable_nn, Hh, Hin].
    rewrite E in Hhh. rewrite neg_infinity_not_above in Hhh by apply (Hh h Ih).
    discriminate. }
  repeat split; try assumption.
  exact (leb_trans _ _ _ (leb_trans _ _ _ Ll Hlh) Hhh).
Qed.

Lemma runMin_app (l1 l2 : list number) (init : number) :
  runMin l2 (runMin l1 init) = runMin (l1 ++ l2) init.
Proof. unfold runMin. now rewrite fold_left_app. Qed.

Lemma runMax_app (l1 l2 : list number) (init : number) :
  runMax l2 (runMax l1 init) = runMax (l1 ++ l2) init.
Proof. unfold runMax. now rewrite fold_left_app. Qed.

(** Property X26. Nothing plotted falls outside the Y axis: when the lows
    and highs of the rows and the prices of the level lines are finite
    numbers, zero or positive, with [low <= high] in every row, then [yMin]
    is at or below every low and every level price and [yMax] is at or above
    every high and every level price. *)
Theorem yDomain_contains (data : list ChartRow) (fibLevels : list FibLevel) :
  Forall (fun d => plottable (cr_low d) /\ plottable (cr_high d) /\
                   (cr_low d <=? cr_high d) = true) data ->
  Forall (fun fl => plottable (price fl)) fibLevels ->
  let yMin := fst (yDomain data fibLevels) in
  let yMax := snd (yDomain data fibLevels) in
  Forall (fun d => (yMin <=? cr_low d) = true /\
                   (cr_high d <=? yMax) = true) data /\
  Forall (fun fl => (yMin <=? price fl) = true /\
                    (price fl <=? yMax) = true) fibLevels.
Proof.
  intros Hdata Hlevels. cbv zeta. unfold yDomain.
  rewrite scanRow_fold, scanLevel_fold. cbn [fst snd].
  rewrite runMin_app, runMax_app.
  assert (Hcases : (data = [] /\ fibLevels = []) \/
            exists l h, In l (map cr_low data ++ map price fibLevels) /\
                        In h (map cr_high data ++ map price fibLevels) /\
                        (l <=? h) = true).
  { destruct data as [|d0 data'].
    - destruct fibLevels as [|f0 levels']; [now left|right].
      exists (price f0), (price f0). cbn [map app].
      repeat split; [now left|now left|].
      apply leb_refl, plottable_ordered. now inversion Hlevels.
    - right. exists (cr_low d0), (cr_high d0). cbn [map app].
      inversion Hdata as [|? ? (_ & _ & H) _]; subst.
      repeat split; [now left|now left|exact H]. }
  destruct Hcases as [[-> ->]|Hex]; [split; constructor|].
  set (lows := (map cr_low data ++ map price fibLevels)%list) in *.
  set (highs := (map cr_high data ++ map price fibLevels)%list) in *.
  assert (Hl : Forall plottable lows).
  { subst lows. apply Forall_app. split; apply Forall_map; [|exact Hlevels].
    eapply Forall_impl; [|exact Hdata]. now intros d (H & _). }
  assert (Hh : Forall plottable highs).
  { subst highs. apply Forall_app. split; apply Forall_map; [|exact Hlevels].
    eapply Forall_impl; [|exact Hdata]. now intros d (_ & H & _). }
  destruct (bounds_spec lows highs Hl Hh Hex) as (Nl & Nh & Hle & Bl & Bh).
  set (lo := runMin lows infinity) in *.
  set (hi := runMax highs neg_infinity) in *.
  assert (Hle' : (fval lo <= fval hi)%Z) by (apply leb_fval; assumption).
  pose proof (pad_nn lo hi Nl Nh Hle') as Np.
  set (pad := (hi - lo) * 0.04) in *.
  pose proof (sub_pad_le lo pad Nl Np) as Hlo.
  pose proof (add_pad_ge hi pad Nh Np) as Hhi.
  pose proof (mathFloor_le (lo - pad) (leb_ordered_l _ _ Hlo)) as Hfl.
  pose proof (mathCeil_ge (hi + pad) (leb_ordered_r _ _ Hhi)) as Hce.
  assert (Hmin : (mathFloor (lo - pad) <=? lo) = true)
    by exact (leb_trans _ _ _ Hfl Hlo).
  assert (Hmax : (hi <=? mathCeil (hi + pad)) = true)
    by exact (leb_trans _ _ _ Hhi Hce).
  subst lows highs. apply Forall_app in Bl as [Bl1 Bl2].
  apply Forall_app in Bh as [Bh1 Bh2].
  rewrite Forall_map in Bl1, Bl2, Bh1, Bh2.
  rewrite Forall_forall in Bl1, Bl2, Bh1, Bh2.
  split; apply Forall_forall; intros x Hx; split;
    [ refine (leb_trans _ _ _ Hmin _); auto
    | refine (leb_trans _ _ _ _ Hmax); auto
    | refine (leb_trans _ _ _ Hmin _); auto
    | refine (leb_trans _ _ _ _ Hmax); auto ].
Qed.


Lemma yDomain_contains_witness :
  let data := prepareData SwingFacts.tiedBars in
  let fibLevels := calculateFibLevels 12 8 uptrend in
  let yMin := fst (yDomain data fibLevels) in
  let yMax := snd (yDomain data fibLevels) in
  Forall (fun d => (yMin <=? cr_low d) = true /\
                   (cr_high d <=? yMax) = true) data /\
  Forall (fun fl => (yMin <=? price fl) = true /\
                    (price fl <=? yMax) = true) fibLevels.
Proof.
  apply (yDomain_contains (prepareData SwingFacts.tiedBars)
           (calculateFibLevels 12 8 uptrend)).
  - repeat constructor.
  - repeat constructor.
Defined.

(** *** The chart of an analysis *)

Lemma nn_plottable (x : number) : nn x -> plottable x.
Proof.
  intros Hx. split.
  - apply finite_key. unfold nn in Hx. unfold key.
    split; [apply ordered_spec; intros E; rewrite E in Hx; exact Hx|].
    destruct (Prim2SF x) as [s|s| |[] m e]; cbn [nnf] in Hx; try contradiction;
      cbn; lia.
  - apply (leb_fval 0 x); [exact I|exact Hx|]. now apply fval_nonneg.
Qed.

Lemma round2_nn (x : number) : nn x -> nn (round2 x).
Proof.
  intros Hx. destruct (round2_cases x Hx) as [[_ ->]|[Hlt Hr]]; [exact Hx|].
  assert (HT : (0 < 2 ^ C)%Z) by (apply pow2_pos; unfold C; lia).
  destruct (rounded_upper 100 _ _ (Prim2SF 1e21) ltac:(lia) Hr nn_1e21)
    as [Hn _]; [|exact Hn].
  rewrite (sval_scale 100). fold (fval 1e21). rewrite fval_1e21 in *.
  pose proof (cents_below _ Hlt) as Hc.
  set (T := (2 ^ C)%Z) in *. clearbody T.
  assert ((cents (fval x) * T <= 10 ^ 23 * T)%Z)
    by (apply Z.mul_le_mono_nonneg_r; lia).
  change (10 ^ 23)%Z with (100 * 10 ^ 21)%Z in *. lia.
Qed.

Lemma between_plottable (a p b : number) :
  plottable a -> plottable b -> (a <=? p) = true -> (p <=? b) = true ->
  plottable p.
Proof.
  intros [Fa Ha] [Fb Hb] H1 H2. split; [|exact (leb_trans _ _ _ Ha H1)].
  clear Ha Hb. order.
Qed.

Lemma In_sliceLast {A} (n : nat) (l : list A) (x : A) :
  In x (sliceLast n l) -> In x l.
Proof.
  unfold sliceLast. intros H.
  rewrite <- (firstn_skipn (List.length l - n) l). apply in_or_app. now right.
Qed.

(** Property X27. The chart of an analysis shows all of it: for a series of
    well-formed bars, the Y axis computed from the rows of [prepareData] and
    the levels of [analyzeTicker] reaches from at or below every low and
    every level price to at or above every high and every level price. *)
Theorem yDomain_contains_analysis (prices : list HistoricalPrice)
    (cp : number) :
  prices <> [] -> Forall AnalysisFacts.wellFormedBar prices ->
  exists r,
    analyzeTicker prices cp = Ok r /\
    let rows := prepareData prices in
    let yMin := fst (yDomain rows (levels r)) in
    let yMax := snd (yDomain rows (levels r)) in
    Forall (fun row => (yMin <=? cr_low row) = true /\
                       (cr_high row <=? yMax) = true) rows /\
    Forall (fun level => (yMin <=? price level) = true /\
                         (price level <=? yMax) = true) (levels r).
Proof.
  intros Hne Hwf.
  destruct (AnalysisFacts.analyzeTicker_unfold prices cp Hne
              (AnalysisFacts.wellFormed_finite _ Hwf))
    as (i & hi & j & lo & Hhi & Hlo & reason & E).
  destruct (AnalysisFacts.extrema_wellFormed prices i j hi lo Hwf Hhi Hlo)
    as (Hh & Hl & Hle).
  eexists. split; [exact E|]. cbn [levels].
  set (t := detectTrend _).
  apply yDomain_contains.
  - unfold prepareData. apply Forall_map, Forall_forall. intros p Hp.
    apply In_sliceLast in Hp. rewrite Forall_forall in Hwf.
    destruct (Hwf p Hp) as (F1 & F2 & H0 & H1).
    cbn [cr_low cr_high]. repeat split; try assumption.
    exact (leb_trans _ _ _ H0 H1).
  - destruct (AnalysisFacts.levels_between (high hi) (low lo) t Hh Hl Hle)
      as [Hb _].
    rewrite Forall_map in Hb. eapply Forall_impl; [|exact Hb].
    intros level [H1 H2].
    apply (between_plottable (round2 (low lo)) _ (round2 (high hi)));
      try assumption; apply nn_plottable, round2_nn; assumption.
Qed.

Lemma yDomain_contains_analysis_witness :
  exists r,
    analyzeTicker SwingFacts.tiedBars 10 = Ok r /\
    let rows := prepareData SwingFacts.tiedBars in
    let yMin := fst (yDomain rows (levels r)) in
    let yMax := snd (yDomain rows (levels r)) in
    Forall (fun row => (yMin <=? cr_low row) = true /\
                       (cr_high row <=? yMax) = true) rows /\
    Forall (fun level => (yMin <=? price level) = true /\
                         (price level <=? yMax) = true) (levels r).
Proof.
  apply (yDomain_contains_analysis SwingFacts.tiedBars 10).
  - discriminate.
  - exact AnalysisFacts.wellFormedBar_tiedBars.
Defined.

End DomainFacts.

(** ** Level prices apart *)

Module Spacing.
Import JS Notations Order Fib LevelFacts Binary64 LevelBounds DisplayFacts.
Local Open Scope Z_scope.

(** The least positive normal number, [2^-1022], on the scale. *)
Definition tiny : Z := 2 ^ (C - 1022).

(** The error of a rounding is at most [2^-53] of the value, or of the least
    normal number. *)
Lemma rounded_error (W X : Z) (f : spec_float) :
  0 < W -> rounded W X f -> nnf f ->
  2 ^ 53 * (sval W f - X) <= X + W * tiny /\
  2 ^ 53 * (X - sval W f) <= X + W * tiny.
Proof.
  intros HW Hr Hn.
  assert (Ht : 0 < tiny) by (apply pow2_pos; unfold C; lia).
  assert (HWt : 0 < W * tiny) by (apply Z.mul_pos_pos; assumption).
  destruct Hr as [[-> [s ->]]|[HX (m & e & Hr & ->)]].
  - cbn [sval]. lia.
  - destruct (finish_spec W X m e HW ltac:(lia) Hr) as [E|[_ E]].
    + rewrite E in Hn. contradiction.
    + rewrite E.
      destruct (rounds_to_range W X m e HW ltac:(lia) Hr) as (_ & _ & He & Hhu).
      destruct Hr as (He1 & _ & Hnorm & Hb & _).
      assert (Hh : 2 ^ 53 * hu W e <= X + W * tiny).
      { destruct (Z.eq_dec e (-1074)) as [->|Hne].
        - unfold hu, tiny.
          replace (2 ^ 53 * (W * 2 ^ (-1074 - 1 + C)))
            with (W * (2 ^ 53 * 2 ^ (-1074 - 1 + C))) by ring.
          rewrite <- Z.pow_add_r by (unfold C; lia).
          replace (53 + (-1074 - 1 + C)) with (C - 1022) by lia. lia.
        - specialize (Hnorm ltac:(lia)). lia. }
      set (h := hu W e) in *. clearbody h.
      split; lia.
Qed.

Lemma mul_atom_le (a b c : Z) : 0 <= c -> a <= b -> c * a <= c * b.
Proof. intros. now apply Z.mul_le_mono_nonneg_l. Qed.

(** Two levels whose ratios are 0.11799 apart, on a range of at least
    0.0874 below a high of at most [10^12], are computed more than a cent
    apart: [E1 < E2] are the exact sums or differences, [F1] and [F2] their
    roundings, [P1] and [P2] the computed products. *)
Lemma gap_arith (T t D R1 R2 P1 P2 H E1 E2 F1 F2 : Z) :
  0 < T -> 0 <= t <= T ->
  874 * T <= 10000 * D -> R1 + R2 <= 2 * T ->
  11799 * T <= 100000 * (R2 - R1) ->
  H <= 10 ^ 12 * T ->
  2 ^ 53 * (T * P1 - D * R1) <= D * R1 + T * t ->
  2 ^ 53 * (D * R2 - T * P2) <= D * R2 + T * t ->
  E2 - E1 = P2 - P1 -> E1 <= H -> E2 <= H ->
  2 ^ 53 * (F1 - E1) <= E1 + t ->
  2 ^ 53 * (E2 - F2) <= E2 + t ->
  T <= 100 * (F2 - F1).
Proof.
  intros HT Ht HD HR Hgap HH Hp1 Hp2 HE HE1 HE2 Hf1 Hf2.
  assert (HD0 : 0 <= D) by lia.
  assert (A0 : 0 < T * T) by (apply Z.mul_pos_pos; lia).
  assert (A1 : 874 * (T * T) <= 10000 * (D * T)).
  { replace (874 * (T * T)) with (T * (874 * T)) by ring.
    replace (10000 * (D * T)) with (T * (10000 * D)) by ring.
    apply mul_atom_le; lia. }
  assert (A2 : 11799 * (D * T) <= 100000 * (D * R2 - D * R1)).
  { replace (11799 * (D * T)) with (D * (11799 * T)) by ring.
    replace (100000 * (D * R2 - D * R1)) with (D * (100000 * (R2 - R1))) by ring.
    apply mul_atom_le; lia. }
  assert (A3 : D * R1 + D * R2 <= 2 * (D * T)).
  { replace (D * R1 + D * R2) with (D * (R1 + R2)) by ring.
    replace (2 * (D * T)) with (D * (2 * T)) by ring.
    apply mul_atom_le; lia. }
  assert (A4 : T * H <= 10 ^ 12 * (T * T)).
  { replace (10 ^ 12 * (T * T)) with (T * (10 ^ 12 * T)) by ring.
    apply mul_atom_le; lia. }
  assert (A5 : T * t <= T * T) by (apply mul_atom_le; lia).
  assert (A6 : 2 ^ 53 * (T * F1 - T * E1) <= T * E1 + T * t).
  { replace (2 ^ 53 * (T * F1 - T * E1)) with (T * (2 ^ 53 * (F1 - E1))) by ring.
    replace (T * E1 + T * t) with (T * (E1 + t)) by ring.
    apply mul_atom_le; lia. }
  assert (A7 : 2 ^ 53 * (T * E2 - T * F2) <= T * E2 + T * t).
  { replace (2 ^ 53 * (T * E2 - T * F2)) with (T * (2 ^ 53 * (E2 - F2))) by ring.
    replace (T * E2 + T * t) with (T * (E2 + t)) by ring.
    apply mul_atom_le; lia. }
  assert (A8 : T * E1 <= T * H) by (apply mul_atom_le; lia).
  assert (A9 : T * E2 <= T * H) by (apply mul_atom_le; lia).
  assert (A10 : T * E2 - T * E1 = T * P2 - T * P1).
  { replace (T * E2 - T * E1) with (T * (E2 - E1)) by ring. rewrite HE. ring. }
  apply (Z.mul_le_mono_pos_l _ _ T HT).
  replace (T * (100 * (F2 - F1))) with (100 * (T * F2 - T * F1)) by ring.
  change (2 ^ 53) with 9007199254740992 in *.
  change (10 ^ 12) with 1000000000000 in *.
  set (TT := T * T) in *. set (DT := D * T) in *.
  set (DR1 := D * R1) in *. set (DR2 := D * R2) in *.
  set (Tt := T * t) in *. set (TH := T * H) in *.
  set (TP1 := T * P1) in *. set (TP2 := T * P2) in *.
  set (TE1 := T * E1) in *. set (TE2 := T * E2) in *.
  set (TF1 := T * F1) in *. set (TF2 := T * F2) in *.
  clearbody TT DT DR1 DR2 Tt TH TP1 TP2 TE1 TE2 TF1 TF2.
  clear - A0 A1 A2 A3 A4 A5 A6 A7 A8 A9 A10 Hp1 Hp2.
  lia.
Qed.

Lemma tiny_bounds : 0 <= tiny <= 2 ^ C.
Proof.
  unfold tiny. split.
  - apply Z.lt_le_incl, pow2_pos. unfold C. lia.
  - apply pow2_le. unfold C. lia.
Qed.

(** The computed product [(high - low) * r] against the exact one. *)
Lemma product_error (high low r : number) :
  nn high -> nn low -> fval low <= fval high -> smallRatio r ->
  let D := fval (high - low)%float in
  let P := fval ((high - low) * r)%float in
  2 ^ 53 * (2 ^ C * P - D * fval r) <= D * fval r + 2 ^ C * tiny /\
  2 ^ 53 * (D * fval r - 2 ^ C * P) <= D * fval r + 2 ^ C * tiny.
Proof.
  intros Hh Hl Hle Hr. cbv zeta.
  destruct (retracement_facts high low r Hh Hl Hle Hr) as (Hd & Hy & _).
  destruct Hr as [Hr _].
  assert (HT : 0 < 2 ^ C) by (apply pow2_pos; unfold C; lia).
  pose proof (mul_rounded (high - low)%float r Hd Hr) as M.
  destruct (rounded_error (2 ^ C) _ _ HT M Hy) as [E1 E2].
  rewrite (sval_scale (2 ^ C)) in E1, E2.
  fold (fval ((high - low) * r)%float) in E1, E2.
  split; assumption.
Qed.

(** Two unrounded levels are more than a cent apart. *)
Lemma raw_gap (high low r1 r2 : number) (trend : TrendDirection) :
  nn high -> nn low -> fval low <= fval high ->
  fval high <= 10 ^ 12 * 2 ^ C ->
  874 * 2 ^ C <= 10000 * fval (high - low)%float ->
  smallRatio r1 -> smallRatio r2 ->
  11799 * 2 ^ C <= 100000 * (fval r2 - fval r1) ->
  match trend with
  | uptrend =>
      2 ^ C <= 100 * (fval (rawLevel high low trend r1) -
                      fval (rawLevel high low trend r2))
  | downtrend =>
      2 ^ C <= 100 * (fval (rawLevel high low trend r2) -
                      fval (rawLevel high low trend r1))
  end.
Proof.
  intros Hh Hl Hle Hcap Hrange H1 H2 Hgap.
  assert (HT : 0 < 2 ^ C) by (apply pow2_pos; unfold C; lia).
  pose proof tiny_bounds as Ht.
  destruct (retracement_facts high low r1 Hh Hl Hle H1) as (Hd & Hy1 & Hyd1).
  destruct (retracement_facts high low r2 Hh Hl Hle H2) as (_ & Hy2 & Hyd2).
  destruct (product_error high low r1 Hh Hl Hle H1) as [Hp1 _].
  destruct (product_error high low r2 Hh Hl Hle H2) as [_ Hp2].
  cbv zeta in Hp1, Hp2.
  destruct (rawLevel_bounds high low r1 trend Hh Hl Hle H1) as [Hn1 _].
  destruct (rawLevel_bounds high low r2 trend Hh Hl Hle H2) as [Hn2 _].
  pose proof (fval_nonneg _ Hl) as Hl0.
  pose proof (fval_nonneg _ Hy1) as Hy10.
  pose proof (fval_nonneg _ Hy2) as Hy20.
  assert (HR : fval r1 + fval r2 <= 2 * 2 ^ C).
  { destruct H1 as [_ H1], H2 as [_ H2]. lia. }
  unfold rawLevel in *. cbv zeta in *. destruct trend.
  - pose proof (sub_rounded high _ Hh Hy1 ltac:(lia)) as S1.
    pose proof (sub_rounded high _ Hh Hy2 ltac:(lia)) as S2.
    destruct (rounded_error 1 _ _ ltac:(lia) S1 Hn1) as [_ E1].
    destruct (rounded_error 1 _ _ ltac:(lia) S2 Hn2) as [E2 _].
    fold (fval (high - (high - low) * r1)%float) in E1.
    fold (fval (high - (high - low) * r2)%float) in E2.
    apply (gap_arith (2 ^ C) tiny (fval (high - low)%float) (fval r1) (fval r2)
             (fval ((high - low) * r1)%float) (fval ((high - low) * r2)%float)
             (fval high)
             (fval high - fval ((high - low) * r2)%float)
             (fval high - fval ((high - low) * r1)%float));
      try assumption; lia.
  - pose proof (add_rounded low _ Hl Hy1) as S1.
    pose proof (add_rounded low _ Hl Hy2) as S2.
    destruct (rounded_error 1 _ _ ltac:(lia) S1 Hn1) as [E1 _].
    destruct (rounded_error 1 _ _ ltac:(lia) S2 Hn2) as [_ E2].
    fold (fval (low + (high - low) * r1)%float) in E1.
    fold (fval (low + (high - low) * r2)%float) in E2.
    apply (gap_arith (2 ^ C) tiny (fval (high - low)%float) (fval r1) (fval r2)
             (fval ((high - low) * r1)%float) (fval ((high - low) * r2)%float)
             (fval high)
             (fval low + fval ((high - low) * r1)%float)
             (fval low + fval ((high - low) * r2)%float));
      try assumption; lia.
Qed.


(** *** From the gap to the prices *)

Lemma cents_gap (F1 F2 : Z) : 2 ^ C <= 100 * (F2 - F1) -> cents F1 < cents F2.
Proof.
  intros H. unfold cents.
  assert (HT : 0 < 2 ^ C) by (apply pow2_pos; unfold C; lia).
  set (T := 2 ^ C) in *. clearbody T.
  assert (E : (200 * F1 + T) / (2 * T) + 1 = (200 * F1 + T + 1 * (2 * T)) / (2 * T))
    by (rewrite Z.div_add by lia; reflexivity).
  assert (L : (200 * F1 + T + 1 * (2 * T)) / (2 * T) <= (200 * F2 + T) / (2 * T))
    by (apply Z.div_le_mono; lia).
  lia.
Qed.

(** Below [10^13] the rounding to cents keeps the cents. *)
Lemma round2_value (x : number) :
  nn x -> fval x <= 10 ^ 13 * 2 ^ C ->
  nn (round2 x) /\ cents (fval (round2 x)) = cents (fval x).
Proof.
  intros Hx Hle.
  assert (HT : 0 < 2 ^ C) by (apply pow2_pos; unfold C; lia).
  assert (Hlt : fval x < fval 1e21%float).
  { rewrite fval_1e21. set (T := 2 ^ C) in *. clearbody T.
    assert (10 ^ 13 * T < 10 ^ 21 * T) by (apply Z.mul_lt_mono_pos_r; lia). lia. }
  unfold round2. rewrite (toFixed2_nn x Hx Hlt). cbn [parseFloat].
  destruct (nearest_cents_back (cents (fval x))) as (A & B & _).
  - split; [apply cents_nonneg, fval_nonneg, Hx|now apply cents_1e13].
  - split; assumption.
Qed.

Lemma round2_strict (x y : number) :
  nn x -> nn y -> fval y <= 10 ^ 13 * 2 ^ C ->
  cents (fval x) < cents (fval y) ->
  (round2 x <? round2 y)%float = true.
Proof.
  intros Hx Hy Hcap Hc.
  assert (Hxy : fval x <= fval y).
  { destruct (Z_le_gt_dec (fval x) (fval y)) as [|Hgt]; [assumption|].
    pose proof (cents_mono (fval y) (fval x) ltac:(lia)). lia. }
  destruct (round2_value x Hx ltac:(lia)) as [Nx Ex].
  destruct (round2_value y Hy Hcap) as [Ny Ey].
  pose proof (round2_mono x y Hx Hy Hxy) as Hle.
  apply (leb_fval _ _ Nx Ny) in Hle.
  apply (ltb_fval _ _ Nx Ny).
  destruct (Z.eq_dec (fval (round2 x)) (fval (round2 y))) as [E|]; [|lia].
  rewrite E in Ex. lia.
Qed.

(** The order of two level prices, strictly. *)
Definition strictOrder (trend : TrendDirection) (p1 p2 : number) : Prop :=
  match trend with
  | uptrend => (p2 <? p1)%float = true
  | downtrend => (p1 <? p2)%float = true
  end.

Lemma level_pair_strict (high low r1 r2 : number) (trend : TrendDirection) :
  nn high -> nn low -> fval low <= fval high ->
  fval high <= 10 ^ 12 * 2 ^ C ->
  874 * 2 ^ C <= 10000 * fval (high - low)%float ->
  smallRatio r1 -> smallRatio r2 ->
  11799 * 2 ^ C <= 100000 * (fval r2 - fval r1) ->
  strictOrder trend (round2 (rawLevel high low trend r1))
                    (round2 (rawLevel high low trend r2)).
Proof.
  intros Hh Hl Hle Hcap Hrange H1 H2 Hgap.
  assert (HT : 0 < 2 ^ C) by (apply pow2_pos; unfold C; lia).
  pose proof (raw_gap high low r1 r2 trend Hh Hl Hle Hcap Hrange H1 H2 Hgap) as G.
  destruct (rawLevel_bounds high low r1 trend Hh Hl Hle H1) as [Hn1 [_ Hu1]].
  destruct (rawLevel_bounds high low r2 trend Hh Hl Hle H2) as [Hn2 [_ Hu2]].
  assert (Hc13 : 10 ^ 12 * 2 ^ C <= 10 ^ 13 * 2 ^ C)
    by (apply Z.mul_le_mono_nonneg_r; lia).
  destruct trend; cbn [strictOrder]; apply round2_strict;
    try assumption; try lia; now apply cents_gap.
Qed.

Lemma ratio_table_spaced :
  StronglySorted (fun r1 r2 => 11799 * 2 ^ C <= 100000 * (fval r2 - fval r1))
    (map fr_ratio FIB_RATIOS).
Proof.
  repeat constructor; apply Z.leb_le; vm_compute; reflexivity.
Qed.

Lemma fval_1e12 : fval 1e12%float = 10 ^ 12 * 2 ^ C.
Proof. vm_compute. reflexivity. Qed.

Lemma nn_1e12 : nn 1e12%float.
Proof. vm_compute. reflexivity. Qed.

Lemma nn_threshold : nn 0.0875%float.
Proof. vm_compute. reflexivity. Qed.

Lemma fval_threshold : 874 * 2 ^ C <= 10000 * fval 0.0875%float.
Proof. apply Z.leb_le. vm_compute. reflexivity. Qed.

(** The two conditions of the strict order, read on the scale. *)
Lemma spaced_inputs (high low : number) :
  nn high -> nn low -> fval low <= fval high ->
  (high <=? 1e12)%float = true -> (0.0875 <=? high - low)%float = true ->
  fval high <= 10 ^ 12 * 2 ^ C /\
  874 * 2 ^ C <= 10000 * fval (high - low)%float.
Proof.
  intros Hh Hl Hle Hcap Hrange.
  apply (leb_fval _ _ Hh nn_1e12) in Hcap. rewrite fval_1e12 in Hcap.
  split; [exact Hcap|].
  assert (Hd : nn (high - low)%float).
  { unfold nn. rewrite sub_spec.
    destruct (ratio_of_difference (Prim2SF high) (Prim2SF low) (Prim2SF 0.5%float)
                Hh Hl Hle) as (Hd & _); [vm_compute; reflexivity| |exact Hd].
    apply Z.leb_le. vm_compute. reflexivity. }
  apply (leb_fval _ _ nn_threshold Hd) in Hrange.
  pose proof fval_threshold. lia.
Qed.

Lemma level_prices_strict (high low : number) (trend : TrendDirection) :
  nn high -> nn low -> fval low <= fval high ->
  (high <=? 1e12)%float = true -> (0.0875 <=? high - low)%float = true ->
  StronglySorted (strictOrder trend)
    (map price (calculateFibLevels high low trend)).
Proof.
  intros Hh Hl Hle Hcap Hrange.
  destruct (spaced_inputs high low Hh Hl Hle Hcap Hrange) as [Hc Hr].
  pose proof smallRatio_table as Hs. pose proof ratio_table_spaced as Ha.
  change (map price (calculateFibLevels high low trend))
    with (map (fun r => round2 (rawLevel high low trend r))
              (map fr_ratio FIB_RATIOS)).
  set (rs := map fr_ratio FIB_RATIOS) in *. clearbody rs.
  induction Ha as [|r rs' Hsorted IH Hall]; cbn [map]; [constructor|].
  inversion Hs as [|? ? Hr0 Hs']; subst.
  constructor; [exact (IH Hs')|].
  apply Forall_forall. intros p Hp. apply in_map_iff in Hp as (r' & <- & Hr').
  rewrite Forall_forall in Hall, Hs'.
  apply level_pair_strict; auto.
Qed.


(** Claim C6, as the code has it. For finite prices [0 <= low <= high] and
    either trend, each of the five level prices lies between [low] and
    [high] rounded to two decimals, hence within [[low, high]] when [low] and
    [high] are prices in whole cents; as the ratio increases the five prices
    never increase in an uptrend and never decrease in a downtrend; and they
    are strictly decreasing in an uptrend and strictly increasing in a
    downtrend when [high] is at most [10^12] and the computed difference
    [high - low] is at least 0.0875. *)
Theorem level_prices_ordered_within_range (high low : number)
    (trend : TrendDirection) :
  finite high -> finite low ->
  (0 <=? low)%float = true -> (low <=? high)%float = true ->
  let ps := map price (calculateFibLevels high low trend) in
  Forall (fun p => (round2 low <=? p)%float = true /\
                   (p <=? round2 high)%float = true) ps /\
  (round2 low = low -> round2 high = high ->
   Forall (fun p => (low <=? p)%float = true /\
                    (p <=? high)%float = true) ps) /\
  StronglySorted (priceOrder trend) ps /\
  ((high <=? 1e12)%float = true -> (0.0875 <=? high - low)%float = true ->
   StronglySorted (strictOrder trend) ps).
Proof.
  intros Fh Fl H0 Hlh.
  assert (Hl : nn low) by (apply nn_intro; assumption).
  assert (Hh : nn high).
  { apply nn_intro; [assumption|]. exact (leb_trans _ _ _ H0 Hlh). }
  assert (Hle : fval low <= fval high) by (apply leb_fval; assumption).
  destruct (levels_weakly_ordered high low trend Fh Fl H0 Hlh) as [Hin Hord].
  cbv zeta in *.
  split; [exact Hin|]. split; [|split; [exact Hord|]].
  - intros El Eh. rewrite El, Eh in Hin. exact Hin.
  - intros Hcap Hrange. now apply level_prices_strict.
Qed.

Lemma level_prices_ordered_within_range_witness :
  Forall (fun p => (10 <=? p)%float = true /\ (p <=? 10.09)%float = true)
    (map price (calculateFibLevels 10.09%float 10%float uptrend)) /\
  StronglySorted (strictOrder uptrend)
    (map price (calculateFibLevels 10.09%float 10%float uptrend)).
Proof.
  destruct (level_prices_ordered_within_range 10.09%float 10%float uptrend
              eq_refl eq_refl eq_refl eq_refl) as (_ & A & _ & B).
  split.
  - apply A; vm_compute; reflexivity.
  - apply B; reflexivity.
Defined.

End Spacing.

(** ** The regions of the signal *)

Module Regions.
Import JS Notations Order Fib LevelFacts Binary64 LevelBounds Spacing.
Local Open Scope float_scope.

(** Some finite price gets the signal [s]. *)
Definition reached (levels : list FibLevel) (trend : TrendDirection)
    (s : ThemeStatus) : Prop :=
  exists cp, finite cp /\ signalAt levels trend cp = Ok s.

(** The caution region of the decision table is not empty exactly when the
    golden threshold lies strictly on the far side of the shallow one. *)
Lemma signalRule_caution (trend : TrendDirection) (s g : number) :
  finite s -> finite g ->
  (exists cp, finite cp /\ signalRule trend s g cp = warning) <->
  strictOrder trend s g.
Proof.
  intros Fs Fg.
  pose proof (finite_ordered s Fs) as Os. pose proof (finite_ordered g Fg) as Og.
  destruct trend; cbn [strictOrder signalRule]; unfold geb; split.
  - intros (cp & _ & H).
    destruct (s <=? cp) eqn:E1; [discriminate|].
    destruct (g <=? cp) eqn:E2; [|discriminate].
    rewrite (ltb_not_leb g s Og Os).
    destruct (s <=? g) eqn:E3; [|reflexivity].
    rewrite (leb_trans s g cp E3 E2) in E1. discriminate.
  - intros H. exists g. split; [exact Fg|].
    rewrite (ltb_not_leb g s Og Os) in H.
    destruct (s <=? g); [discriminate|]. now rewrite (leb_refl g Og).
  - intros (cp & _ & H).
    destruct (cp <=? s) eqn:E1; [discriminate|].
    destruct (cp <=? g) eqn:E2; [|discriminate].
    rewrite (ltb_not_leb s g Os Og).
    destruct (g <=? s) eqn:E3; [|reflexivity].
    rewrite (leb_trans cp g s E2 E3) in E1. discriminate.
  - intros H. exists g. split; [exact Fg|].
    rewrite (ltb_not_leb s g Os Og) in H.
    destruct (g <=? s); [discriminate|]. now rewrite (leb_refl g Og).
Qed.

(** The two outer regions are never empty when the thresholds are prices. *)
Lemma signalRule_outer (trend : TrendDirection) (s g : number) :
  finite s -> (0 <=? s) = true -> (0 <=? g) = true ->
  (s <=? 1e12) = true -> (g <=? 1e12) = true ->
  (exists cp, finite cp /\ signalRule trend s g cp = success) /\
  (exists cp, finite cp /\ signalRule trend s g cp = danger).
Proof.
  intros Fs Hs Hg Hs' Hg'.
  pose proof (finite_ordered s Fs) as Os.
  destruct trend; cbn [signalRule]; unfold geb; split.
  - exists s. split; [exact Fs|]. now rewrite (leb_refl s Os).
  - exists (-1). split; [reflexivity|].
    destruct (s <=? -1) eqn:E1.
    { pose proof (leb_trans _ _ _ Hs E1) as K. discriminate K. }
    destruct (g <=? -1) eqn:E2; [|reflexivity].
    pose proof (leb_trans _ _ _ Hg E2) as K. discriminate K.
  - exists 1e13. split; [reflexivity|].
    destruct (1e13 <=? s) eqn:E1.
    { pose proof (leb_trans _ _ _ E1 Hs') as K. discriminate K. }
    destruct (1e13 <=? g) eqn:E2; [|reflexivity].
    pose proof (leb_trans _ _ _ E2 Hg') as K. discriminate K.
  - exists s. split; [exact Fs|]. now rewrite (leb_refl s Os).
Qed.


Lemma round2_1e12 : round2 1e12 = 1e12.
Proof. vm_compute. reflexivity. Qed.

(** A level price is a price: finite, zero or positive, and at most
    [10^12] when the high is. *)
Lemma level_price_facts (high low r : number) (t : TrendDirection) :
  finite high -> finite low -> (0 <=? low) = true -> (low <=? high) = true ->
  smallRatio r ->
  let p := round2 (rawLevel high low t r) in
  finite p /\ (0 <=? p) = true /\ ((high <=? 1e12) = true -> (p <=? 1e12) = true).
Proof.
  intros Fh Fl H0 Hlh Hr. cbv zeta.
  assert (Hl : nn low) by (apply nn_intro; assumption).
  assert (Hh : nn high).
  { apply nn_intro; [assumption|]. exact (leb_trans _ _ _ H0 Hlh). }
  assert (Hle : (fval low <= fval high)%Z) by (apply leb_fval; assumption).
  destruct (rawLevel_bounds high low r t Hh Hl Hle Hr) as [Hn _].
  destruct (DomainFacts.nn_plottable _ (DomainFacts.round2_nn _ Hn)) as [Fp Pp].
  split; [exact Fp|]. split; [exact Pp|].
  intros Hcap.
  destruct (level_in_range high low r t Hh Hl Hle Hr) as [_ Hup].
  cbv zeta in Hup. apply (leb_trans _ _ _ Hup).
  rewrite <- round2_1e12. apply round2_mono; [exact Hh|exact nn_1e12|].
  apply leb_fval; [exact Hh|exact nn_1e12|exact Hcap].
Qed.

Lemma smallRatio_shallow : smallRatio 0.236.
Proof. apply smallRatio_intro; vm_compute; reflexivity. Qed.

Lemma smallRatio_golden : smallRatio 0.618.
Proof. apply smallRatio_intro; vm_compute; reflexivity. Qed.

Lemma shallow_golden_spaced :
  (11799 * 2 ^ C <= 100000 * (fval 0.618%float - fval 0.236%float))%Z.
Proof. apply Z.leb_le. vm_compute. reflexivity. Qed.

(** Claim C5, as the code has it. For every level list produced by
    [calculateFibLevels] and each trend direction, [determineSignal] assigns
    to every current price one signal, by the rule: in an uptrend, favorable
    when [currentPrice >= shallow (0.236) price], else caution when
    [currentPrice >= Golden Zone (0.618) price], else unfavorable; mirrored
    in a downtrend. The prices of each signal form a contiguous region, so
    the regions, at most three, do not overlap and leave no gap. For finite
    prices [0 <= low <= high] the caution region is not empty exactly when
    the Golden Zone price lies strictly beyond the shallow price, below it
    in an uptrend and above it in a downtrend. For a high of at most [10^12]
    the favorable and the unfavorable region are never empty, and the
    caution region is not empty either, which makes exactly three regions,
    when the levels are those of the same trend and [high - low >= 0.0875];
    there are two regions when the two level prices coincide. *)
Theorem determineSignal_regions (high low : number) (t trend : TrendDirection) :
  let levels := calculateFibLevels high low t in
  exists shallow golden,
    nth_error levels 0 = Some shallow /\ ratio shallow = 0.236 /\
    find isGoldenZone levels = Some golden /\ ratio golden = 0.618 /\
    (forall cp,
       signalAt levels trend cp =
       Ok (signalRule trend (price shallow) (price golden) cp)) /\
    (forall a b c s,
       (a <=? b) = true -> (b <=? c) = true ->
       signalAt levels trend a = Ok s -> signalAt levels trend c = Ok s ->
       signalAt levels trend b = Ok s) /\
    (finite high -> finite low ->
     (0 <=? low) = true -> (low <=? high) = true ->
     (reached levels trend warning <->
      strictOrder trend (price shallow) (price golden)) /\
     ((high <=? 1e12) = true ->
      reached levels trend success /\
      reached levels trend danger /\
      (t = trend -> (0.0875 <=? high - low) = true ->
       reached levels trend warning))).
Proof.
  cbv zeta.
  destruct (calculateFibLevels_shallow high low t) as (sh & Es & Rs & Ps).
  destruct (calculateFibLevels_golden high low t) as (g & Eg & _ & Rg & Pg).
  exists sh, g. rewrite Ps, Pg.
  split; [exact Es|]. split; [exact Rs|]. split; [exact Eg|]. split; [exact Rg|].
  split; [intros cp; apply determineSignal_rule|].
  split.
  { intros a b c s Hab Hbc.
    rewrite !(determineSignal_rule high low t trend).
    intros Ha Hc. injection Ha as Ha. injection Hc as Hc.
    f_equal. rewrite <- Ha.
    apply signalRule_convex with (c := c); congruence. }
  intros Fh Fl H0 Hlh.
  destruct (level_price_facts high low 0.236 t Fh Fl H0 Hlh smallRatio_shallow)
    as (Fs & Ns & Cs).
  destruct (level_price_facts high low 0.618 t Fh Fl H0 Hlh smallRatio_golden)
    as (Fg & Ng & Cg).
  cbv zeta in *.
  set (s := round2 (rawLevel high low t 0.236)) in *.
  set (gp := round2 (rawLevel high low t 0.618)) in *.
  assert (R : forall st,
             reached (calculateFibLevels high low t) trend st <->
             exists cp, finite cp /\ signalRule trend s gp cp = st).
  { intros st. unfold reached. split; intros (cp & Fc & H); exists cp;
      (split; [exact Fc|]).
    - rewrite (determineSignal_rule high low t trend) in H. now injection H.
    - rewrite (determineSignal_rule high low t trend). now f_equal. }
  assert (Hcaution : reached (calculateFibLevels high low t) trend warning <->
                     strictOrder trend s gp).
  { rewrite R. now apply signalRule_caution. }
  split; [exact Hcaution|].
  intros Hcap.
  destruct (signalRule_outer trend s gp Fs Ns Ng (Cs Hcap) (Cg Hcap)) as [O1 O2].
  split; [now apply R|]. split; [now apply R|].
  intros <- Hrange. apply Hcaution.
  assert (Hl : nn low) by (apply nn_intro; assumption).
  assert (Hh : nn high).
  { apply nn_intro; [assumption|]. exact (leb_trans _ _ _ H0 Hlh). }
  assert (Hle : (fval low <= fval high)%Z) by (apply leb_fval; assumption).
  destruct (spaced_inputs high low Hh Hl Hle Hcap Hrange) as [Hc Hr].
  apply level_pair_strict;
    [assumption..|exact smallRatio_shallow|exact smallRatio_golden
    |exact shallow_golden_spaced].
Qed.

Lemma determineSignal_regions_witness :
  reached (calculateFibLevels 12 8 uptrend) uptrend success /\
  reached (calculateFibLevels 12 8 uptrend) uptrend warning /\
  reached (calculateFibLevels 12 8 uptrend) uptrend danger.
Proof.
  destruct (determineSignal_regions 12 8 uptrend uptrend)
    as (sh & g & _ & _ & _ & _ & _ & _ & H).
  destruct (H eq_refl eq_refl eq_refl eq_refl) as [_ H2].
  destruct (H2 eq_refl) as (A & B & K).
  exact (conj A (conj (K eq_refl eq_refl) B)).
Defined.

(** Where claim C5 fails. On a flat range, high = low = 100, all five levels
    are 100 and no price gets caution, in either trend: the regions are two.
    The same holds between 10 and 10.004, where the levels are all 10. *)
Lemma determineSignal_caution_region_empty :
  map price (calculateFibLevels 100 100 uptrend) = [100; 100; 100; 100; 100] /\
  (forall cp, signalAt (calculateFibLevels 100 100 uptrend) uptrend cp
              <> Ok warning) /\
  (forall cp, signalAt (calculateFibLevels 100 100 downtrend) downtrend cp
              <> Ok warning) /\
  (10 <? 10.004) = true /\
  map price (calculateFibLevels 10.004 10 uptrend) = [10; 10; 10; 10; 10] /\
  (forall cp, signalAt (calculateFibLevels 10.004 10 uptrend) uptrend cp
              <> Ok warning) /\
  signalAt (calculateFibLevels 10.004 10 uptrend) uptrend 10 = Ok success /\
  signalAt (calculateFibLevels 10.004 10 uptrend) uptrend 9.99 = Ok danger.
Proof.
  assert (E : forall high low t trend v cp,
            round2 (rawLevel high low t 0.236) = v ->
            round2 (rawLevel high low t 0.618) = v ->
            signalAt (calculateFibLevels high low t) trend cp <> Ok warning).
  { intros high low t trend v cp Hs Hg.
    rewrite (determineSignal_rule high low t trend).
    fold (round2 (rawLevel high low t 0.236)).
    fold (round2 (rawLevel high low t 0.618)). rewrite Hs, Hg.
    unfold signalRule, geb.
    destruct trend; [destruct (v <=? cp)|destruct (cp <=? v)]; discriminate. }
  split; [vm_compute; reflexivity|].
  split; [intros cp; apply (E _ _ _ _ 100); vm_compute; reflexivity|].
  split; [intros cp; apply (E _ _ _ _ 100); vm_compute; reflexivity|].
  split; [reflexivity|].
  split; [vm_compute; reflexivity|].
  split; [intros cp; apply (E _ _ _ _ 10); vm_compute; reflexivity|].
  split; vm_compute; reflexivity.
Qed.

End Regions.

(** ** The level price against the exact formula *)

Module Exactness.
Import JS Notations Order Fib LevelFacts Binary64 RoundingFacts LevelBounds
       DisplayFacts Spacing.
Local Open Scope Z_scope.

Lemma mul_atom_bounds (a b c d : Z) :
  0 <= a <= c -> 0 <= b <= d -> 0 <= a * b <= c * d.
Proof.
  intros Ha Hb. split; [apply Z.mul_nonneg_nonneg; lia|].
  apply Z.mul_le_mono_nonneg; lia.
Qed.

(** The computed level against the exact one, on the square of the scale:
    [A] is the exact argument of the last operation, [F] its rounding, and
    [M] the error carried by the product. *)
Lemma exact_arith (T t D R P H L A F M : Z) :
  0 < T -> 0 <= t <= T -> 0 <= R <= T -> 0 <= L <= H ->
  H <= 10 ^ 12 * T -> 0 <= D <= H ->
  2 ^ 53 * (T * P - D * R) <= D * R + T * t ->
  2 ^ 53 * (D * R - T * P) <= D * R + T * t ->
  2 ^ 53 * (D - (H - L)) <= (H - L) + t ->
  2 ^ 53 * ((H - L) - D) <= (H - L) + t ->
  0 <= A <= H ->
  2 ^ 53 * (F - A) <= A + t ->
  2 ^ 53 * (A - F) <= A + t ->
  M = T * P - (H - L) * R ->
  100 * (T * F - (T * A + M)) <= T * T /\
  100 * ((T * A + M) - T * F) <= T * T /\
  100 * (T * F - (T * A - M)) <= T * T /\
  100 * ((T * A - M) - T * F) <= T * T.
Proof.
  intros HT Ht HR HL HH HD Hp1 Hp2 Hd1 Hd2 HA Hf1 Hf2 ->.
  assert (A0 : 0 < T * T) by (apply Z.mul_pos_pos; lia).
  assert (A1 : 0 <= D * R <= H * T) by (apply mul_atom_bounds; lia).
  assert (A2 : 0 <= (H - L) * R <= H * T) by (apply mul_atom_bounds; lia).
  assert (A3 : 0 <= t * R <= t * T) by (apply mul_atom_bounds; lia).
  assert (A4 : 2 ^ 53 * (D * R - (H - L) * R) <= (H - L) * R + t * R).
  { replace (2 ^ 53 * (D * R - (H - L) * R))
      with (R * (2 ^ 53 * (D - (H - L)))) by ring.
    replace ((H - L) * R + t * R) with (R * ((H - L) + t)) by ring.
    apply mul_atom_le; lia. }
  assert (A5 : 2 ^ 53 * ((H - L) * R - D * R) <= (H - L) * R + t * R).
  { replace (2 ^ 53 * ((H - L) * R - D * R))
      with (R * (2 ^ 53 * ((H - L) - D))) by ring.
    replace ((H - L) * R + t * R) with (R * ((H - L) + t)) by ring.
    apply mul_atom_le; lia. }
  assert (A6 : 2 ^ 53 * (T * F - T * A) <= T * A + t * T).
  { replace (2 ^ 53 * (T * F - T * A)) with (T * (2 ^ 53 * (F - A))) by ring.
    replace (T * A + t * T) with (T * (A + t)) by ring.
    apply mul_atom_le; lia. }
  assert (A7 : 2 ^ 53 * (T * A - T * F) <= T * A + t * T).
  { replace (2 ^ 53 * (T * A - T * F)) with (T * (2 ^ 53 * (A - F))) by ring.
    replace (T * A + t * T) with (T * (A + t)) by ring.
    apply mul_atom_le; lia. }
  assert (A8 : 0 <= T * A <= H * T).
  { replace (T * A) with (A * T) by ring. apply mul_atom_bounds; lia. }
  assert (A9 : H * T <= 10 ^ 12 * (T * T)).
  { replace (10 ^ 12 * (T * T)) with ((10 ^ 12 * T) * T) by ring.
    apply Z.mul_le_mono_nonneg_r; lia. }
  assert (A10 : 0 <= t * T <= T * T) by (apply mul_atom_bounds; lia).
  replace (T * t) with (t * T) in Hp1, Hp2 by ring.
  change (2 ^ 53) with 9007199254740992 in *.
  change (10 ^ 12) with 1000000000000 in *.
  set (TT := T * T) in *. set (DR := D * R) in *.
  set (GR := (H - L) * R) in *. set (tR := t * R) in *. set (tT := t * T) in *.
  set (HT' := H * T) in *. set (TP := T * P) in *.
  set (TA := T * A) in *. set (TF := T * F) in *.
  clearbody TT DR GR tR tT HT' TP TA TF.
  clear - A0 A1 A2 A3 A4 A5 A6 A7 A8 A9 A10 Hp1 Hp2.
  repeat split; lia.
Qed.


(** The exact level of the formula, on the square of the scale. *)
Definition exactScaled (H L R : Z) (trend : TrendDirection) : Z :=
  match trend with
  | uptrend => 2 ^ C * H - (H - L) * R
  | downtrend => 2 ^ C * L + (H - L) * R
  end.

(** The computed level is within [10^-2] of a cent of the exact one. *)
Lemma raw_exact (high low r : number) (trend : TrendDirection) :
  nn high -> nn low -> fval low <= fval high ->
  fval high <= 10 ^ 12 * 2 ^ C -> smallRatio r ->
  let F := fval (rawLevel high low trend r) in
  let E := exactScaled (fval high) (fval low) (fval r) trend in
  100 * (2 ^ C * F - E) <= 2 ^ C * 2 ^ C /\
  100 * (E - 2 ^ C * F) <= 2 ^ C * 2 ^ C.
Proof.
  intros Hh Hl Hle Hcap Hr. cbv zeta.
  assert (HT : 0 < 2 ^ C) by (apply pow2_pos; unfold C; lia).
  pose proof tiny_bounds as Ht.
  destruct (retracement_facts high low r Hh Hl Hle Hr) as (Hd & Hy & Hyd).
  destruct (product_error high low r Hh Hl Hle Hr) as [Hp1 Hp2].
  cbv zeta in Hp1, Hp2.
  destruct (rawLevel_bounds high low r trend Hh Hl Hle Hr) as [Hn _].
  pose proof (fval_nonneg _ Hl) as Hl0.
  pose proof (fval_nonneg _ Hy) as Hy0.
  pose proof (fval_nonneg _ Hd) as Hd0.
  pose proof (sub_rounded high low Hh Hl Hle) as Sd.
  destruct (rounded_error 1 _ _ ltac:(lia) Sd Hd) as [Ed1 Ed2].
  fold (fval (high - low)%float) in Ed1, Ed2.
  assert (HdH : fval (high - low)%float <= fval high).
  { destruct (rounded_upper 1 _ _ (Prim2SF high) ltac:(lia) Sd Hh) as [_ K];
      [unfold fval in *; lia|exact K]. }
  assert (HR : 0 <= fval r <= 2 ^ C).
  { destruct Hr as [Hr0 Hr1]. pose proof (fval_nonneg _ Hr0). lia. }
  unfold rawLevel in *. cbv zeta in *. destruct trend; cbn [exactScaled].
  - pose proof (sub_rounded high _ Hh Hy ltac:(lia)) as S1.
    destruct (rounded_error 1 _ _ ltac:(lia) S1 Hn) as [E1 E2].
    fold (fval (high - (high - low) * r)%float) in E1, E2.
    destruct (exact_arith (2 ^ C) tiny (fval (high - low)%float) (fval r)
                (fval ((high - low) * r)%float) (fval high) (fval low)
                (fval high - fval ((high - low) * r)%float)
                (fval (high - (high - low) * r)%float)
                (2 ^ C * fval ((high - low) * r)%float
                 - (fval high - fval low) * fval r))
      as (K1 & K2 & _ & _); try assumption; try lia; reflexivity.
  - pose proof (add_rounded low _ Hl Hy) as S1.
    destruct (rounded_error 1 _ _ ltac:(lia) S1 Hn) as [E1 E2].
    fold (fval (low + (high - low) * r)%float) in E1, E2.
    destruct (exact_arith (2 ^ C) tiny (fval (high - low)%float) (fval r)
                (fval ((high - low) * r)%float) (fval high) (fval low)
                (fval low + fval ((high - low) * r)%float)
                (fval (low + (high - low) * r)%float)
                (2 ^ C * fval ((high - low) * r)%float
                 - (fval high - fval low) * fval r))
      as (_ & _ & K1 & K2); try assumption; try lia; reflexivity.
Qed.

(** Two quotients by [d] of integers at most [d] apart differ by at most
    one. *)
Lemma floor_close (a b d : Z) :
  0 < d -> a - b <= d -> b - a <= d -> Z.abs (a / d - b / d) <= 1.
Proof.
  intros Hd H1 H2.
  assert (L1 : a / d <= (b + 1 * d) / d) by (apply Z.div_le_mono; lia).
  assert (L2 : b / d <= (a + 1 * d) / d) by (apply Z.div_le_mono; lia).
  rewrite Z.div_add in L1, L2 by lia. lia.
Qed.


(** The exact value of a number, against its value on the scale. *)
Lemma valueQ_scaled (x : number) :
  nn x ->
  exists v, valueQ x = Some v /\
            (v * inject_Z (2 ^ C) == inject_Z (fval x))%Q.
Proof.
  intros Hx. unfold nn, valueQ, fval in *.
  destruct (Prim2SF x) as [s|s| |[] m e]; cbn [nnf] in Hx; try contradiction.
  - exists 0%Q. split; [reflexivity|]. cbn [sval]. ring.
  - exists (magnitude m e). split; [reflexivity|].
    apply bounded_spec in Hx as (He & _).
    cbn [sval]. unfold hu, magnitude.
    replace (2 * Zpos m * (1 * 2 ^ (e - 1 + C))) with (Zpos m * 2 ^ (e + C)).
    2:{ replace (e + C) with (1 + (e - 1 + C)) by lia.
        rewrite Z.pow_add_r by (unfold C; lia). change (2 ^ 1) with 2. ring. }
    rewrite inject_Z_mult, !Zpower_Qpower by (unfold C in *; lia).
    change (inject_Z 2) with 2%Q.
    rewrite (Qpower_plus 2 e C) by discriminate. ring.
Qed.

(** Half-up rounding of the exact level, in integers. *)
Lemma roundHalfUp_exact (h l q : Q) (H L R : Z) (trend : TrendDirection) :
  (h * inject_Z (2 ^ C) == inject_Z H)%Q ->
  (l * inject_Z (2 ^ C) == inject_Z L)%Q ->
  (q * inject_Z (2 ^ C) == inject_Z R)%Q ->
  roundHalfUp (exactLevel h l trend q) 2 =
  (200 * exactScaled H L R trend + 2 ^ C * 2 ^ C) / (2 * (2 ^ C * 2 ^ C)).
Proof.
  intros Eh El Eq.
  assert (HT : 0 < 2 ^ C) by (apply pow2_pos; unfold C; lia).
  unfold exactScaled.
  set (T := 2 ^ C) in *. clearbody T.
  assert (HTq : ~ (inject_Z T == 0)%Q).
  { intros K. unfold Qeq in K. cbn [Qnum Qden inject_Z] in K. lia. }
  assert (Eh' : (h == inject_Z H / inject_Z T)%Q) by (rewrite <- Eh; field; exact HTq).
  assert (El' : (l == inject_Z L / inject_Z T)%Q) by (rewrite <- El; field; exact HTq).
  assert (Eq' : (q == inject_Z R / inject_Z T)%Q) by (rewrite <- Eq; field; exact HTq).
  unfold roundHalfUp. rewrite Zdiv_Qdiv. apply Qfloor_comp.
  change (inject_Z (10 ^ Z.of_nat 2)) with 100%Q.
  destruct trend; cbn [exactLevel]; rewrite Eh', El', Eq'; unfold Z.sub;
    repeat rewrite ?inject_Z_plus, ?inject_Z_mult, ?inject_Z_opp;
    change (inject_Z 200) with 200%Q; change (inject_Z 2) with 2%Q;
    field; exact HTq.
Qed.


(** The price of a level is at most one cent from the exact value of the
    formula rounded half-up. *)
Lemma price_near_exact (high low r : number) (trend : TrendDirection) :
  smallRatio r ->
  finite high -> finite low ->
  (0 <=? low)%float = true -> (low <=? high)%float = true ->
  (high <=? 1e12)%float = true ->
  exists h l q n,
    valueQ high = Some h /\ valueQ low = Some l /\ valueQ r = Some q /\
    parseFloat (toFixed (rawLevel high low trend r) 2) = decimalNumber n 2 /\
    Z.abs (n - roundHalfUp (exactLevel h l trend q) 2) <= 1.
Proof.
  intros Hr Fh Fl H0 Hlh Hcap.
  assert (Hl : nn low) by (apply nn_intro; assumption).
  assert (Hh : nn high).
  { apply nn_intro; [assumption|]. exact (leb_trans _ _ _ H0 Hlh). }
  assert (Hle : fval low <= fval high) by (apply leb_fval; assumption).
  apply (leb_fval _ _ Hh nn_1e12) in Hcap. rewrite fval_1e12 in Hcap.
  assert (HT : 0 < 2 ^ C) by (apply pow2_pos; unfold C; lia).
  destruct (valueQ_scaled high Hh) as (h & Vh & Eh).
  destruct (valueQ_scaled low Hl) as (l & Vl & El).
  destruct (valueQ_scaled r (proj1 Hr)) as (q & Vq & Eq).
  destruct (rawLevel_bounds high low r trend Hh Hl Hle Hr) as [Hn [_ Hup]].
  destruct (raw_exact high low r trend Hh Hl Hle Hcap Hr) as [K1 K2].
  cbv zeta in K1, K2.
  set (x := rawLevel high low trend r) in *.
  pose proof (fval_nonneg x Hn) as Hx0.
  exists h, l, q, (cents (fval x)).
  split; [exact Vh|]. split; [exact Vl|]. split; [exact Vq|]. split.
  - assert (Hlt : fval x < fval 1e21%float).
    { rewrite fval_1e21. set (T := 2 ^ C) in *. clearbody T.
      assert (10 ^ 12 * T < 10 ^ 21 * T) by (apply Z.mul_lt_mono_pos_r; lia).
      lia. }
    rewrite (toFixed2_nn x Hn Hlt). unfold decimalNumber.
    pose proof (cents_nonneg _ Hx0) as Hc.
    replace (cents (fval x) <? 0) with false by (symmetry; apply Z.ltb_ge; lia).
    now rewrite Z.abs_eq by lia.
  - rewrite (roundHalfUp_exact h l q (fval high) (fval low) (fval r) trend Eh El Eq).
    set (E := exactScaled (fval high) (fval low) (fval r) trend) in *.
    unfold cents. set (F := fval x) in *. set (T := 2 ^ C) in *.
    clearbody E F T.
    rewrite <- (Z.div_mul_cancel_l (200 * F + T) (2 * T) T) by lia.
    replace (T * (2 * T)) with (2 * (T * T)) by ring.
    assert (0 < T * T) by (apply Z.mul_pos_pos; lia).
    apply floor_close; [lia| |].
    + replace (T * (200 * F + T) - (200 * E + T * T))
        with (2 * (100 * (T * F - E))) by ring. lia.
    + replace (200 * E + T * T - T * (200 * F + T))
        with (2 * (100 * (E - T * F))) by ring. lia.
Qed.

(** Claim C7, as the code has it. The levels have the ratios of the table,
    and for each of them the price is [parseFloat (x.toFixed(2))] where [x]
    is the binary64 evaluation, each operation rounded to nearest, of
    [high - (high - low) * ratio] (uptrend) or [low + (high - low) * ratio]
    (downtrend). When [x] is finite and below [10^21] in magnitude, the price
    is the number nearest to [n / 100], with the sign of [x], where [n] is
    the integer nearest to [100 * |x|], the larger one on a tie: half-up
    rounding to two decimals of the computed [x], not of the exact value of
    the formula. For finite prices [0 <= low <= high <= 10^12] the two are at
    most one cent apart: the price is the number nearest to [n / 100] for an
    [n] that differs by at most one from the exact value of the formula
    times 100, rounded half-up. *)
Theorem level_price_rounds_computed_value (high low : number)
    (trend : TrendDirection) :
  map ratio (calculateFibLevels high low trend) =
    [0.236; 0.382; 0.5; 0.618; 0.786]%float /\
  Forall (fun lvl =>
            let x := match trend with
                     | uptrend => (high - (high - low) * ratio lvl)%float
                     | downtrend => (low + (high - low) * ratio lvl)%float
                     end in
            price lvl = parseFloat (toFixed x 2) /\
            (forall sg m e,
               Prim2SF x = S754_finite sg m e ->
               (1e21 <=? abs x)%float = false ->
               exists n,
                 (magnitude m e * 100 - (1 # 2) < inject_Z n /\
                  inject_Z n <= magnitude m e * 100 + (1 # 2))%Q /\
                 price lvl = signed sg (SF2Prim (nearestDecimal n 2))) /\
            (finite high -> finite low ->
             (0 <=? low)%float = true -> (low <=? high)%float = true ->
             (high <=? 1e12)%float = true ->
             exists h l q n,
               valueQ high = Some h /\ valueQ low = Some l /\
               valueQ (ratio lvl) = Some q /\
               price lvl = decimalNumber n 2 /\
               Z.abs (n - roundHalfUp (exactLevel h l trend q) 2) <= 1))
         (calculateFibLevels high low trend).
Proof.
  split; [reflexivity|].
  assert (Ex : forall r,
            match trend with
            | uptrend => (high - (high - low) * r)%float
            | downtrend => (low + (high - low) * r)%float
            end = rawLevel high low trend r)
    by (intros r; destruct trend; reflexivity).
  pose proof smallRatio_table as Hs.
  rewrite calculateFibLevels_unfold. apply Forall_forall.
  intros lvl Hin. apply in_map_iff in Hin as (r & <- & Hr).
  assert (Hsr : smallRatio (fr_ratio r)).
  { rewrite Forall_forall in Hs. apply Hs. now apply in_map. }
  cbv zeta. cbn [levelOf ratio price]. rewrite Ex.
  split; [reflexivity|]. split.
  - intros sg m e H1 H2. rewrite (toFixed_finite _ 2 sg m e H1 H2).
    eexists. split; [exact (roundHalfUp_spec (magnitude m e) 2)|reflexivity].
  - intros Fh Fl H0 Hlh Hcap.
    exact (price_near_exact high low (fr_ratio r) trend Hsr Fh Fl H0 Hlh Hcap).
Qed.

Lemma level_price_rounds_computed_value_witness :
  Forall (fun lvl =>
            exists h l q n,
              valueQ 1.01%float = Some h /\ valueQ 1%float = Some l /\
              valueQ (ratio lvl) = Some q /\
              price lvl = decimalNumber n 2 /\
              Z.abs (n - roundHalfUp (exactLevel h l downtrend q) 2) <= 1)
         (calculateFibLevels 1.01%float 1%float downtrend).
Proof.
  destruct (level_price_rounds_computed_value 1.01%float 1%float downtrend) as [_ H].
  eapply Forall_impl; [|exact H].
  intros lvl (_ & _ & K). apply K; reflexivity.
Defined.

End Exactness.
